(** * business-web: the animated three.js background of [src/main.js]

    A shallow embedding of [initThreeBackground] (lines 10-157 of
    [src/main.js]): the construction of the scene, the animation loop
    [tick] and the resize listener, followed by the properties of the
    specification that concern them.  [initDOMAnimations], the other call
    of the [DOMContentLoaded] listener (lines 163-258), shares no object
    with it; it is embedded after the background, with its own page
    [DomPage] and events [DomEvent], and its properties follow those of
    the background.  The file closes with the properties that depend on
    IEEE-754 rounding.

    Modelling choices.

    - Numbers.  A JavaScript Number is an IEEE-754 double.  The
      arithmetic of the background is read twice.  In the first reading
      finite Numbers are the real numbers [R], and [+], [-], [*],
      [Math.sin], [Math.cos] and [Math.PI] their exact counterparts; it
      carries the page as a whole (camera, renderer, host, events) and
      the properties that do not hinge on a rounding step.  The second
      reading, the module [Binary64], computes the expressions of lines
      47-52, 93-116 and 132-139 as the engine does: with primitive
      binary64 floats, rounding to nearest, and a rounding to binary32 at
      the store into the [Float32Array] [posArray]; [Math.sin] and
      [Math.cos] are parameters there.  It carries the properties of the
      random parameters, of the particle positions and of the accumulated
      rotations, where one rounding moves a value onto a bound or away
      from a product.  The one division whose divisor is not a literal,
      [innerWidth / innerHeight], can leave the finite Numbers; its result
      has type [Number], which adds [NaN] and the two infinities, and is
      computed by [Number_divide] following ECMAScript's Number::divide.
    - Environment.  [Math.random()] is an oracle [Math_random]: its
      [k]-th value is the one returned to the [k]-th call that the code of
      [main.js] itself makes, and [randomCalls] counts those calls.
      three.js draws from the same generator (for the uuid of every object
      it constructs); the calls it makes are not part of [main.js] and
      are neither numbered nor counted.  The clock reading of an
      iteration is the argument [elapsedTime] of [tick]; the viewport is
      a [Window] record; [document.querySelector('#bg-canvas')] is an
      [option Canvas].
    - Effects.  Calls into three.js and the browser that build or
      schedule something are recorded, in order, in the [effects] log of
      the [Host]; the objects the closure [tick] and the resize listener
      capture form the [World].  Of three.js itself only what the page
      reads or writes is kept: positions, rotations, the camera's frustum
      and the renderer's size and pixel ratio.
    - DOM.  An element is kept by what the listeners read or write: its
      [classList] (an ordered set of tokens), its text, its [data-target]
      attribute.  A listener that throws is counted in [uncaughtErrors]
      and leaves the page as it was.  The conversion of an attribute to a
      Number is a parameter [StringToNumber]; the counters compute in
      exact arithmetic. *)

From Stdlib Require Import Reals Lra Lia List ZArith String Bool Floats.
#[local] Set Warnings "-inexact-float".
Import ListNotations.
Local Open Scope string_scope.
Local Open Scope list_scope.
Local Open Scope R_scope.

(** ** Numbers that may be non-finite *)

Inductive Number : Type :=
| Finite (r : R)
| PosInfinity
| NegInfinity
| NaN.

(** Sign of a finite value, a zero counting as [+0] (the operands below
    are viewport sizes, integers, which are never [-0]). *)
Definition negative (r : R) : bool :=
  if Rlt_dec r 0 then true else false.

Definition infinity (neg : bool) : Number :=
  if neg then NegInfinity else PosInfinity.

(** ECMAScript Number::divide. *)
Definition Number_divide (a b : Number) : Number :=
  match a, b with
  | NaN, _ | _, NaN => NaN
  | (PosInfinity | NegInfinity), (PosInfinity | NegInfinity) => NaN
  | PosInfinity, Finite y => infinity (negative y)
  | NegInfinity, Finite y => infinity (negb (negative y))
  | Finite _, (PosInfinity | NegInfinity) => Finite 0
  | Finite x, Finite y =>
      if Req_dec_T y 0
      then if Req_dec_T x 0 then NaN else infinity (negative x)
      else Finite (x / y)
  end.

Definition Number_of_Z (n : Z) : Number := Finite (IZR n).

(** ** The three.js objects the page builds *)

Record Vector3 : Type := mkVector3 { x : R; y : R; z : R }.

Record Euler : Type := mkEuler { rx : R; ry : R; rz : R }.

(** An [Object3D] as far as the page reads or writes it. *)
Record Object3D : Type := mkObject3D { position : Vector3; rotation : Euler }.

Definition newObject3D : Object3D :=
  mkObject3D (mkVector3 0 0 0) (mkEuler 0 0 0).

Inductive Geometry : Type :=
| TetrahedronGeometry (radius : R)
| BoxGeometry (width height depth : R)
| TorusGeometry (radius tube : R) (radialSegments tubularSegments : nat)
| OctahedronGeometry (radius : R).

(** [mesh.userData] of a floating shape (lines 107-112). *)
Record UserData : Type := mkUserData {
  initialY : R;
  speed : R;
  offset : R;
  rotSpeed : R
}.

Record Shape : Type := mkShape {
  geometry : Geometry;
  object : Object3D;
  userData : UserData
}.

(** The frustum a projection matrix was computed from. *)
Record Projection : Type := mkProjection {
  proj_fov : R;
  proj_aspect : Number;
  proj_near : R;
  proj_far : R
}.

Record PerspectiveCamera : Type := mkCamera {
  fov : R;
  aspect : Number;
  near : R;
  far : R;
  camera_position : Vector3;
  projectionMatrix : Projection
}.

Definition updateProjectionMatrix (c : PerspectiveCamera) : PerspectiveCamera :=
  mkCamera (fov c) (aspect c) (near c) (far c) (camera_position c)
           (mkProjection (fov c) (aspect c) (near c) (far c)).

(** [new THREE.PerspectiveCamera(fov, aspect, near, far)] computes its
    projection matrix on construction. *)
Definition newPerspectiveCamera (fov : R) (aspect : Number) (near far : R)
  : PerspectiveCamera :=
  updateProjectionMatrix
    (mkCamera fov aspect near far (mkVector3 0 0 0)
              (mkProjection fov aspect near far)).

Record Canvas : Type := mkCanvas { canvas_width : Z; canvas_height : Z }.

Record WebGLRenderer : Type := mkRenderer {
  width : Z;
  height : Z;
  pixelRatio : R
}.

Definition newWebGLRenderer (canvas : Canvas) : WebGLRenderer :=
  mkRenderer (canvas_width canvas) (canvas_height canvas) 1.

Definition setSize (w h : Z) (r : WebGLRenderer) : WebGLRenderer :=
  mkRenderer w h (pixelRatio r).

Definition setPixelRatio (v : R) (r : WebGLRenderer) : WebGLRenderer :=
  mkRenderer (width r) (height r) v.

Record Window : Type := mkWindow {
  innerWidth : Z;
  innerHeight : Z;
  devicePixelRatio : R
}.

(** What [tick] and the resize listener capture. *)
Record World : Type := mkWorld {
  camera : PerspectiveCamera;
  renderer : WebGLRenderer;
  globe : Object3D;
  particlesMesh : Object3D;
  posArray : list R;
  shapes : list Shape
}.

(** ** Effects on the host *)

Inductive Effect : Type :=
| New (class : string)
| Add (parent child : string)
| Render
| RequestAnimationFrame
| AddEventListener (type : string).

(** [randomCalls] counts the calls of [Math.random()] that the code of
    [main.js] has made; [effects] is the log. *)
Record Host : Type := mkHost {
  randomCalls : nat;
  effects : list Effect
}.

Definition M (A : Type) : Type := Host -> A * Host.

Definition ret {A : Type} (a : A) : M A := fun h => (a, h).

Definition bind {A B : Type} (m : M A) (k : A -> M B) : M B :=
  fun h => let (a, h') := m h in k a h'.

Notation "x <- m ;; k" := (bind m (fun x => k))
  (at level 61, m at next level, right associativity).
Notation "m ;;; k" := (bind m (fun _ => k))
  (at level 61, right associativity).

Definition emit (e : Effect) : M unit :=
  fun h => (tt, mkHost (randomCalls h) (effects h ++ [e])).

(** ** Constants of the source *)

Definition particlesCount : nat := 700.

Definition shapeGeometries : list Geometry :=
  [ TetrahedronGeometry 1.5;
    BoxGeometry 1.5 2 0.2;
    TorusGeometry 1 0.3 16 50;
    OctahedronGeometry 1.5 ].

Definition shapeCount : nat := 5.

(** ** The per-shape body of [shapes.forEach] in [tick] (lines 132-139) *)

Definition animate (elapsedTime : R) (shape : Shape) : Shape :=
  let d := userData shape in
  let p := position (object shape) in
  let r := rotation (object shape) in
  mkShape (geometry shape)
    (mkObject3D
       (mkVector3 (x p) (initialY d + sin (elapsedTime * speed d + offset d) * 1.5) (z p))
       (mkEuler (rx r + rotSpeed d) (ry r + rotSpeed d) (rz r)))
    d.

Definition setRotationY (v : R) (o : Object3D) : Object3D :=
  mkObject3D (position o) (mkEuler (rx (rotation o)) v (rz (rotation o))).

Definition setRotationX (v : R) (o : Object3D) : Object3D :=
  mkObject3D (position o) (mkEuler v (ry (rotation o)) (rz (rotation o))).

(** The writes of one iteration (lines 125-139). *)
Definition tickWorld (elapsedTime : R) (w : World) : World :=
  mkWorld (camera w) (renderer w)
    (setRotationY (elapsedTime * 0.05) (globe w))
    (setRotationX (elapsedTime * 0.01)
       (setRotationY (- elapsedTime * 0.02) (particlesMesh w)))
    (posArray w)
    (map (animate elapsedTime) (shapes w)).

(** [tick] (lines 121-147): the writes, one render, one request for the
    next frame. *)
Definition tick (elapsedTime : R) (w : World) : M World :=
  let w' := tickWorld elapsedTime w in
  emit Render ;;;
  emit RequestAnimationFrame ;;;
  ret w'.

(** ** The resize listener (lines 152-156) *)

Definition resizeWorld (window : Window) (w : World) : World :=
  let c := camera w in
  let c' :=
    mkCamera (fov c)
      (Number_divide (Number_of_Z (innerWidth window))
                     (Number_of_Z (innerHeight window)))
      (near c) (far c) (camera_position c) (projectionMatrix c) in
  mkWorld (updateProjectionMatrix c')
    (setSize (innerWidth window) (innerHeight window) (renderer w))
    (globe w) (particlesMesh w) (posArray w) (shapes w).

(** ** Construction (lines 14-119) *)

Section Page.

(** The value returned to the [k]-th call of [Math.random()] made by
    [main.js]. *)
Variable Math_random : nat -> R.

Definition random : M R :=
  fun h => (Math_random (randomCalls h),
            mkHost (S (randomCalls h)) (effects h)).

(** Lines 49-52: [n] successive elements of [posArray]. *)
Fixpoint fillPosArray (n : nat) : M (list R) :=
  match n with
  | O => ret []
  | S n' =>
      u <- random ;;
      rest <- fillPosArray n' ;;
      ret ((u - 0.5) * 100 :: rest)
  end.

(** Lines 94-115: the body of the loop for index [i]. *)
Definition createShape (i : nat) : M Shape :=
  let geom :=
    nth (i mod List.length shapeGeometries) shapeGeometries (TetrahedronGeometry 0) in
  emit (New "Mesh") ;;;
  let angle := INR i / 5 * PI * 2 in
  u_radius <- random ;;
  let radius := 15 + u_radius * 5 in
  u_y <- random ;;
  let position :=
    mkVector3 (cos angle * radius) ((u_y - 0.5) * 10) (sin angle * radius) in
  u_speed <- random ;;
  u_offset <- random ;;
  u_rot <- random ;;
  let userData :=
    mkUserData (y position) (0.5 + u_speed * 0.5) (u_offset * PI * 2)
               ((u_rot - 0.5) * 0.02) in
  emit (Add "objectsGroup" "mesh") ;;;
  ret (mkShape geom (mkObject3D position (mkEuler 0 0 0)) userData).

(** Lines 93-116: [count] iterations from index [i] on. *)
Fixpoint createShapes (i count : nat) : M (list Shape) :=
  match count with
  | O => ret []
  | S count' =>
      s <- createShape i ;;
      rest <- createShapes (S i) count' ;;
      ret (s :: rest)
  end.

(** Lines 14-119. *)
Definition buildScene (canvas : Canvas) (window : Window) : M World :=
  emit (New "Scene") ;;;
  emit (New "PerspectiveCamera") ;;;
  let camera0 :=
    newPerspectiveCamera 75
      (Number_divide (Number_of_Z (innerWidth window))
                     (Number_of_Z (innerHeight window)))
      0.1 1000 in
  let camera :=
    mkCamera (fov camera0) (aspect camera0) (near camera0) (far camera0)
             (mkVector3 (x (camera_position camera0))
                        (y (camera_position camera0)) 30)
             (projectionMatrix camera0) in
  emit (New "WebGLRenderer") ;;;
  let renderer :=
    setPixelRatio (Rmin (devicePixelRatio window) 2)
      (setSize (innerWidth window) (innerHeight window)
         (newWebGLRenderer canvas)) in
  emit (New "Group") ;;;
  emit (Add "scene" "objectsGroup") ;;;
  emit (New "IcosahedronGeometry") ;;;
  emit (New "MeshBasicMaterial") ;;;
  emit (New "Mesh") ;;;
  let globe := newObject3D in
  emit (Add "objectsGroup" "globe") ;;;
  emit (New "BufferGeometry") ;;;
  emit (New "Float32Array") ;;;
  posArray <- fillPosArray (particlesCount * 3) ;;
  emit (New "BufferAttribute") ;;;
  emit (New "PointsMaterial") ;;;
  emit (New "Points") ;;;
  let particlesMesh := newObject3D in
  emit (Add "scene" "particlesMesh") ;;;
  emit (New "TetrahedronGeometry") ;;;
  emit (New "BoxGeometry") ;;;
  emit (New "TorusGeometry") ;;;
  emit (New "OctahedronGeometry") ;;;
  emit (New "MeshStandardMaterial") ;;;
  emit (New "PointLight") ;;;
  emit (Add "scene" "light") ;;;
  emit (New "AmbientLight") ;;;
  emit (Add "scene" "ambientLight") ;;;
  shapes <- createShapes 0 shapeCount ;;
  emit (New "Clock") ;;;
  ret (mkWorld camera renderer globe particlesMesh posArray shapes).

(** [initThreeBackground] (lines 10-157).  [firstTime] is what the clock
    returns to the call [tick()] of line 149. *)
Definition initThreeBackground
    (canvas : option Canvas) (window : Window) (firstTime : R)
  : M (option World) :=
  match canvas with
  | None => ret None
  | Some canvas =>
      w <- buildScene canvas window ;;
      w' <- tick firstTime w ;;
      emit (AddEventListener "resize") ;;;
      ret (Some w')
  end.

(** ** The page after initialisation *)

(** [session] holds the captured objects once [initThreeBackground] has
    gone past line 12: from then on one frame request is pending and
    the resize listener is registered. *)
Record Page : Type := mkPage { host : Host; session : option World }.

Definition DOMContentLoaded
    (canvas : option Canvas) (window : Window) (firstTime : R) : Page :=
  let (w, h) := initThreeBackground canvas window firstTime (mkHost 0 []) in
  mkPage h w.

Inductive Event : Type :=
| AnimationFrame (elapsedTime : R)
| Resize (window : Window).

Definition handle (ev : Event) (w : World) : M World :=
  match ev with
  | AnimationFrame elapsedTime => tick elapsedTime w
  | Resize window => ret (resizeWorld window w)
  end.

Definition dispatch (p : Page) (ev : Event) : Page :=
  match session p with
  | None => p
  | Some w => let (w', h) := handle ev w (host p) in mkPage h (Some w')
  end.

Definition run (evs : list Event) (p : Page) : Page :=
  fold_left dispatch evs p.

End Page.

(** ** Derived descriptions of what the code builds and how it evolves *)

Section Derived.

Variable Math_random : nat -> R.

(** The number, among the calls of [Math.random()] that [main.js] makes,
    of the first one made for the shape of index [i]: the particles have
    consumed [particlesCount * 3] calls and every earlier shape five. *)
Definition firstDraw (i : nat) : nat := (particlesCount * 3 + 5 * i)%nat.

Definition shapeRadius (first : nat) : R := 15 + Math_random first * 5.

Definition shapeAngle (i : nat) : R := INR i / 5 * PI * 2.

Definition shapeData (first : nat) : UserData :=
  mkUserData ((Math_random (first + 1) - 0.5) * 10)
             (0.5 + Math_random (first + 2) * 0.5)
             (Math_random (first + 3) * PI * 2)
             ((Math_random (first + 4) - 0.5) * 0.02).

(** The shape of index [i] as line 115 pushes it, when its first call of
    [Math.random()] is call number [first]. *)
Definition builtShape (first i : nat) : Shape :=
  mkShape
    (nth (i mod 4) shapeGeometries (TetrahedronGeometry 0))
    (mkObject3D
       (mkVector3 (cos (shapeAngle i) * shapeRadius first)
                  ((Math_random (first + 1) - 0.5) * 10)
                  (sin (shapeAngle i) * shapeRadius first))
       (mkEuler 0 0 0))
    (shapeData first).

Definition builtPosArray : list R :=
  map (fun k => (Math_random k - 0.5) * 100) (seq 0 (particlesCount * 3)).

(** The captured objects when line 119 is reached. *)
Definition builtWorld (canvas : Canvas) (window : Window) : World :=
  mkWorld
    (mkCamera 75
       (Number_divide (Number_of_Z (innerWidth window))
                      (Number_of_Z (innerHeight window)))
       0.1 1000 (mkVector3 0 0 30)
       (mkProjection 75
          (Number_divide (Number_of_Z (innerWidth window))
                         (Number_of_Z (innerHeight window)))
          0.1 1000))
    (mkRenderer (innerWidth window) (innerHeight window)
                (Rmin (devicePixelRatio window) 2))
    newObject3D newObject3D
    builtPosArray
    (map (fun i => builtShape (firstDraw i) i) (seq 0 shapeCount)).

(** The writes of one event, without the host. *)
Definition applyEvent (w : World) (ev : Event) : World :=
  match ev with
  | AnimationFrame elapsedTime => tickWorld elapsedTime w
  | Resize window => resizeWorld window w
  end.

Definition runWorld (evs : list Event) (w : World) : World :=
  fold_left applyEvent evs w.

(** The clock readings of the frames among [evs], in order. *)
Fixpoint frameTimes (evs : list Event) : list R :=
  match evs with
  | [] => []
  | AnimationFrame elapsedTime :: evs' => elapsedTime :: frameTimes evs'
  | Resize _ :: evs' => frameTimes evs'
  end.

(** Executions of [tick] once the page is loaded and [evs] have been
    dispatched: the call of line 149 and one per frame. *)
Definition iterations (evs : list Event) : nat :=
  S (List.length (frameTimes evs)).

(** The clock reading of the latest execution of [tick]. *)
Definition lastTime (firstTime : R) (evs : list Event) : R :=
  last (frameTimes evs) firstTime.

Definition animateAll (ts : list R) (s : Shape) : Shape :=
  fold_left (fun s t => animate t s) ts s.

(** The world of a page with a canvas after [evs]. *)
Definition loadedWorld
    (canvas : Canvas) (window : Window) (firstTime : R) (evs : list Event)
  : World :=
  runWorld evs (tickWorld firstTime (builtWorld canvas window)).

End Derived.

(** The log lines 94-115 append for one shape. *)
Definition shapeEffects : list Effect :=
  [New "Mesh"; Add "objectsGroup" "mesh"].

(** The log of lines 14-119, in order. *)
Definition buildEffects : list Effect :=
  [ New "Scene"; New "PerspectiveCamera"; New "WebGLRenderer";
    New "Group"; Add "scene" "objectsGroup";
    New "IcosahedronGeometry"; New "MeshBasicMaterial"; New "Mesh";
    Add "objectsGroup" "globe";
    New "BufferGeometry"; New "Float32Array"; New "BufferAttribute";
    New "PointsMaterial"; New "Points"; Add "scene" "particlesMesh";
    New "TetrahedronGeometry"; New "BoxGeometry"; New "TorusGeometry";
    New "OctahedronGeometry"; New "MeshStandardMaterial";
    New "PointLight"; Add "scene" "light";
    New "AmbientLight"; Add "scene" "ambientLight" ]
  ++ List.concat (repeat shapeEffects shapeCount)
  ++ [New "Clock"].

(** The log of one execution of [tick]. *)
Definition tickEffects : list Effect := [Render; RequestAnimationFrame].

Definition isRender (e : Effect) : bool :=
  match e with Render => true | _ => false end.

Definition isRequest (e : Effect) : bool :=
  match e with RequestAnimationFrame => true | _ => false end.

Definition isListener (e : Effect) : bool :=
  match e with AddEventListener _ => true | _ => false end.

Definition isConstruction (e : Effect) : bool :=
  match e with New _ => true | _ => false end.

Definition countEffects (p : Effect -> bool) (es : list Effect) : nat :=
  List.length (filter p es).

(** ** Concrete pages used in the examples *)

Definition sampleCanvas : Canvas := mkCanvas 300 150.

Definition sampleWindow : Window := mkWindow 800 600 1.

(** [Math.random()] returning [u] at every call. *)
Definition constantDraws (u : R) : nat -> R := fun _ => u.

(** One second of animation at two frames per second. *)
Definition twoFrames : list Event := [AnimationFrame 0.5; AnimationFrame 1].

(** The vertical position [tick] assigns (line 135). *)
Definition floatY (d : UserData) (elapsedTime : R) : R :=
  initialY d + sin (elapsedTime * speed d + offset d) * 1.5.

(** ** The DOM animations ([initDOMAnimations], lines 163-258) *)

(** *** Number operations of the counter *)

(** ECMAScript Number::add. *)
Definition Number_add (a b : Number) : Number :=
  match a, b with
  | NaN, _ | _, NaN => NaN
  | PosInfinity, NegInfinity | NegInfinity, PosInfinity => NaN
  | PosInfinity, _ | _, PosInfinity => PosInfinity
  | NegInfinity, _ | _, NegInfinity => NegInfinity
  | Finite a', Finite b' => Finite (a' + b')
  end.

(** [a >= b]: false as soon as an operand is [NaN]. *)
Definition Number_ge (a b : Number) : bool :=
  match a, b with
  | NaN, _ | _, NaN => false
  | PosInfinity, _ => true
  | _, NegInfinity => true
  | NegInfinity, _ => false
  | _, PosInfinity => false
  | Finite a', Finite b' => if Rle_dec b' a' then true else false
  end.

Definition Math_ceil (a : Number) : Number :=
  match a with
  | Finite a' => Finite (IZR (Zceil a'))
  | _ => a
  end.

(** *** DOMTokenList: the [classList] of an element, an ordered set *)

Definition classList_contains (token : string) (classList : list string) : bool :=
  existsb (String.eqb token) classList.

Definition classList_add (token : string) (classList : list string) : list string :=
  if classList_contains token classList then classList else classList ++ [token].

Definition classList_remove (token : string) (classList : list string) : list string :=
  filter (fun t => negb (String.eqb token t)) classList.

Definition classList_toggle (token : string) (classList : list string) : list string :=
  if classList_contains token classList
  then classList_remove token classList
  else classList ++ [token].

(** *** The statistics counters (lines 192-217) *)

(** What an element shows: its markup as loaded, or the number the
    counter last assigned to [innerText]. *)
Inductive Text : Type :=
| Markup
| Written (n : Number).

(** One call of [animateCounter]: its [target], [current], [increment],
    and whether its interval timer is still set. *)
Record Timer : Type := mkTimer {
  timer_target : Number;
  timer_current : Number;
  timer_increment : Number;
  timer_set : bool
}.

(** A [.stat-number] element: its [data-target] attribute, whether the
    observer observes it, its text, and the timers started on it. *)
Record Stat : Type := mkStat {
  data_target : option string;
  stat_observed : bool;
  stat_text : Text;
  stat_timers : list Timer
}.

Record Entry : Type := mkEntry {
  entry_target : nat;
  isIntersecting : bool
}.

Fixpoint updateAt {A : Type} (i : nat) (f : A -> A) (l : list A) : list A :=
  match l, i with
  | [], _ => []
  | a :: l', O => f a :: l'
  | a :: l', S i' => a :: updateAt i' f l'
  end.

(** [animateCounter(el, target)] up to [setInterval] (lines 205-208). *)
Definition animateCounter (target : Number) (el : Stat) : Stat :=
  mkStat (data_target el) (stat_observed el) (stat_text el)
    (stat_timers el
       ++ [mkTimer target (Finite 0) (Number_divide target (Finite 50)) true]).

(** One firing of the interval of the [j]-th timer of [el]
    (lines 209-215); a cleared interval does not fire. *)
Definition intervalCallback (j : nat) (el : Stat) : Stat :=
  match nth_error (stat_timers el) j with
  | None => el
  | Some t =>
      if timer_set t then
        let current := Number_add (timer_current t) (timer_increment t) in
        if Number_ge current (timer_target t) then
          mkStat (data_target el) (stat_observed el)
            (Written (timer_target t))
            (updateAt j (fun _ => mkTimer (timer_target t) current
                                    (timer_increment t) false)
               (stat_timers el))
        else
          mkStat (data_target el) (stat_observed el)
            (Written (Math_ceil current))
            (updateAt j (fun _ => mkTimer (timer_target t) current
                                    (timer_increment t) true)
               (stat_timers el))
      else el
  end.

Definition unobserve (el : Stat) : Stat :=
  mkStat (data_target el) false (stat_text el) (stat_timers el).

Definition observe (el : Stat) : Stat :=
  mkStat (data_target el) true (stat_text el) (stat_timers el).

(** *** The service cards (lines 220-257) *)

Record Service : Type := mkService { title : string; icon : string }.

Definition services : list Service :=
  [ mkService "Business Formation" "🏢";
    mkService "Legal Structuring" "⚖️";
    mkService "Banking Solutions" "🏦";
    mkService "Growth Strategy" "📈";
    mkService "Visa Services" "🛂" ].

(** A card: its classes, the three children its [innerHTML] creates, and
    the two style properties set on it. *)
Record Card : Type := mkCard {
  card_classList : list string;
  card_icon : string;
  card_title : string;
  card_paragraph : string;
  card_opacity : string;
  card_transform : string
}.

(** A call [gsap.to(card, {...})], [tween_card] being the position of the
    card among the children of the container. *)
Record Tween : Type := mkTween {
  tween_card : nat;
  tween_opacity : R;
  tween_y : R;
  tween_duration : R;
  tween_delay : R;
  tween_ease : string;
  tween_start : string
}.

Definition createCard (service : Service) : Card :=
  mkCard (classList_add "service-card" []) (icon service) (title service)
         "Comprehensive solutions." "0" "translateY(50px)".

(** [forEach((service, index) => ...)] from [index] on (lines 231-256). *)
Fixpoint appendCards
    (todo : list Service) (index : nat)
    (children : list Card) (tweens : list Tween)
  : list Card * list Tween :=
  match todo with
  | [] => (children, tweens)
  | service :: todo' =>
      appendCards todo' (S index)
        (children ++ [createCard service])
        (tweens ++ [mkTween (List.length children) 1 0 0.8
                            (0.2 + INR index * 0.2)
                            "back.out(1.7)" "top 80%"])
  end.

(** Lines 229-257 for a list of services. *)
Definition populateServices
    (todo : list Service) (servicesContainer : option (list Card))
  : option (list Card) * list Tween :=
  match servicesContainer with
  | None => (None, [])
  | Some _ =>
      let (children, tweens) := appendCards todo 0 [] [] in
      (Some children, tweens)
  end.

(** *** The document and the listeners *)

(** What the queries of [initDOMAnimations] find when the DOM is ready:
    the classes of [.navbar] and of [.nav-links] if they exist, whether
    [.mobile-menu-toggle] exists, the number of [a] inside [.nav-links],
    the [data-target] attribute of every [.stat-number], and the children
    of [.services-arc-container] if it exists. *)
Record Document : Type := mkDocument {
  doc_navbar : option (list string);
  doc_menuToggle : bool;
  doc_navLinks : option (list string);
  doc_anchors : nat;
  doc_stats : list (option string);
  doc_servicesContainer : option (list Card)
}.

(** The page once [initDOMAnimations] has run.  The scroll listener is
    always registered; the click listeners are registered together or not
    at all. *)
Record DomPage : Type := mkDomPage {
  navbar : option (list string);
  navLinks : option (list string);
  toggleListener : bool;
  anchorListeners : nat;
  stats : list Stat;
  servicesContainer : option (list Card);
  tweens : list Tween;
  uncaughtErrors : nat
}.

Inductive DomEvent : Type :=
| Scroll (scrollY : R)
| ClickMenuToggle
| ClickNavLink (i : nat)
| Intersections (entries : list Entry)
| Interval (stat timer : nat).

(** The body of the scroll listener (lines 167-171) on the classes of a
    navbar that exists. *)
Definition scrollHandler (scrollY : R) (classList : list string) : list string :=
  if Rlt_dec 50 scrollY
  then classList_add "scrolled" classList
  else classList_remove "scrolled" classList.

Section DomAnimations.

(** The conversion of a string to a Number by the unary [+] of line 196. *)
Variable StringToNumber : string -> Number.

(** [+entry.target.getAttribute('data-target')]: a missing attribute is
    [null], and [+null] is 0. *)
Definition targetOf (el : Stat) : Number :=
  match data_target el with
  | None => Finite 0
  | Some s => StringToNumber s
  end.

(** The callback of the observer (lines 193-201). *)
Definition observerCallback (entries : list Entry) (stats : list Stat) : list Stat :=
  fold_left
    (fun stats entry =>
       if isIntersecting entry then
         updateAt (entry_target entry)
           (fun el => unobserve (animateCounter (targetOf el) el)) stats
       else stats)
    entries stats.

(** [initDOMAnimations] (lines 163-258). *)
Definition initDOMAnimations (doc : Document) : DomPage :=
  let menu :=
    match doc_navLinks doc with
    | Some _ => doc_menuToggle doc
    | None => false
    end in
  let (children, tweens) := populateServices services (doc_servicesContainer doc) in
  mkDomPage (doc_navbar doc) (doc_navLinks doc)
    menu (if menu then doc_anchors doc else O)
    (map (fun attribute => observe (mkStat attribute false Markup []))
         (doc_stats doc))
    children tweens 0.

(** What the browser runs for one event. *)
Definition dispatchDom (p : DomPage) (ev : DomEvent) : DomPage :=
  match ev with
  | Scroll scrollY =>
      match navbar p with
      | None =>
          mkDomPage (navbar p) (navLinks p) (toggleListener p)
            (anchorListeners p) (stats p) (servicesContainer p) (tweens p)
            (S (uncaughtErrors p))
      | Some classList =>
          mkDomPage (Some (scrollHandler scrollY classList)) (navLinks p)
            (toggleListener p) (anchorListeners p) (stats p)
            (servicesContainer p) (tweens p) (uncaughtErrors p)
      end
  | ClickMenuToggle =>
      if toggleListener p then
        mkDomPage (navbar p) (option_map (classList_toggle "active") (navLinks p))
          (toggleListener p) (anchorListeners p) (stats p)
          (servicesContainer p) (tweens p) (uncaughtErrors p)
      else p
  | ClickNavLink i =>
      if (i <? anchorListeners p)%nat then
        mkDomPage (navbar p) (option_map (classList_remove "active") (navLinks p))
          (toggleListener p) (anchorListeners p) (stats p)
          (servicesContainer p) (tweens p) (uncaughtErrors p)
      else p
  | Intersections entries =>
      mkDomPage (navbar p) (navLinks p) (toggleListener p) (anchorListeners p)
        (observerCallback entries (stats p))
        (servicesContainer p) (tweens p) (uncaughtErrors p)
  | Interval i j =>
      mkDomPage (navbar p) (navLinks p) (toggleListener p) (anchorListeners p)
        (updateAt i (intervalCallback j) (stats p))
        (servicesContainer p) (tweens p) (uncaughtErrors p)
  end.

Definition runDom (evs : list DomEvent) (p : DomPage) : DomPage :=
  fold_left dispatchDom evs p.

(** What the browser guarantees about a batch of entries: every entry is
    about an element the observer observes, and no element has two. *)
Definition batchOK (stats : list Stat) (entries : list Entry) : Prop :=
  NoDup (map entry_target entries) /\
  Forall (fun entry =>
            exists el, nth_error stats (entry_target entry) = Some el /\
                       stat_observed el = true)
         entries.

Fixpoint platformOK (p : DomPage) (evs : list DomEvent) : Prop :=
  match evs with
  | [] => True
  | ev :: evs' =>
      match ev with
      | Intersections entries => batchOK (stats p) entries
      | _ => True
      end /\ platformOK (dispatchDom p ev) evs'
  end.

End DomAnimations.

(** The scroll events among [evs]. *)
Definition scrollCount (evs : list DomEvent) : nat :=
  List.length (filter (fun ev => match ev with Scroll _ => true | _ => false end) evs).

(** The resizes, and the frames, among the events of the background. *)
Definition onlyResizes (evs : list Event) : list Event :=
  filter (fun ev => match ev with Resize _ => true | _ => false end) evs.

Definition onlyFrames (evs : list Event) : list Event :=
  filter (fun ev => match ev with AnimationFrame _ => true | _ => false end) evs.

(** The viewport of the latest resize, the one of construction if none. *)
Definition lastViewport (window : Window) (evs : list Event) : Window :=
  fold_left (fun win ev => match ev with Resize w => w | _ => win end) evs window.

(** The camera and the renderer as the viewport [window] and the pixel
    ratio [ratio] set them. *)
Definition viewOf (window : Window) (ratio : R) (w : World) : Prop :=
  camera w =
    mkCamera 75
      (Number_divide (Number_of_Z (innerWidth window))
                     (Number_of_Z (innerHeight window)))
      0.1 1000 (mkVector3 0 0 30)
      (mkProjection 75
         (Number_divide (Number_of_Z (innerWidth window))
                        (Number_of_Z (innerHeight window)))
         0.1 1000) /\
  renderer w = mkRenderer (innerWidth window) (innerHeight window) ratio.

(** The classes of [a] and [b] agree except possibly on [token]. *)
Definition sameBut (token : string) (a b : list string) : Prop :=
  forall t, t <> token -> (In t a <-> In t b).

(** An element is either still observed and without a timer, or no longer
    observed and with the one timer of its counter. *)
Definition animatedOnce (StringToNumber : string -> Number) (el : Stat) : Prop :=
  (stat_observed el = true /\ stat_timers el = []) \/
  (stat_observed el = false /\
   exists t, stat_timers el = [t] /\
             timer_target t = targetOf StringToNumber el).

(** The tween of the card at position [i]. *)
Definition revealTween (i : nat) : Tween :=
  mkTween i 1 0 0.8 (0.2 + INR i * 0.2) "back.out(1.7)" "top 80%".

(** *** Concrete documents used in the examples *)

Definition sampleDocument : Document :=
  mkDocument (Some ["navbar"]) true (Some ["nav-links"]) 3
             [Some "500"; None] (Some []).

Definition bareDocument : Document :=
  mkDocument None false None 0 [] None.

Definition sampleStat : Stat := mkStat (Some "500") true Markup [].

(** A conversion that reads every attribute as 500. *)
Definition sampleToNumber : string -> Number := fun _ => Finite 500.

Definition bareStat : Stat := mkStat None true Markup [].

(** A batch that reports the first element in view, a firing of its
    counter, and a batch that reports the second element out of view. *)
Definition sampleDomEvents : list DomEvent :=
  [Intersections [mkEntry 0 true]; Interval 0 0;
   Intersections [mkEntry 1 false]].

(** ** IEEE-754 data read as real numbers

    [SpecFloat] (the specification Rocq's primitive floats obey) gives the
    operations of a binary format of precision [prec] and exponent bound
    [emax] on sign/mantissa/exponent triples.  The definitions of this
    module say which real number such a triple stands for and what it
    means for a triple to be the rounding of a real number; they serve the
    proofs about [Binary64] below. *)

Module IEEE754.

Local Open Scope Z_scope.

Definition pow2 (e : Z) : R := powerRZ 2 e.

(** The value of the mantissa [m] at exponent [e]. *)
Definition val (m : positive) (e : Z) : R := (IZR (Z.pos m) * pow2 e)%R.

Definition sgn (s : bool) : R := if s then (-1)%R else 1%R.

(** The real number a finite datum stands for. *)
Definition SF2R (f : spec_float) : R :=
  match f with
  | S754_finite s m e => (sgn s * val m e)%R
  | _ => 0%R
  end.

(** Round to nearest, ties to even, on integers: [RNE k m] is the multiple
    of [2^k] nearest to [m], divided by [2^k]. *)
Definition RNE (k m : Z) : Z :=
  if k =? 0 then m
  else
    let q := m / 2 ^ k in
    let rho := m mod 2 ^ k in
    let h := 2 ^ (k - 1) in
    if (h <? rho) || ((rho =? h) && Z.odd q) then q + 1 else q.

(** What [SpecFloat.shr] leaves after shifting [m] by [k] bits. *)
Definition shr_spec (k m : Z) (r : shr_record) : Prop :=
  shr_m r = m / 2 ^ k /\
  (k = 0 -> shr_r r = false /\ shr_s r = false) /\
  (0 < k -> shr_r r = Z.odd (m / 2 ^ (k - 1)) /\
            shr_s r = negb (m mod 2 ^ (k - 1) =? 0)).

Section Format.

Variables prec emax : Z.

Definition canonical (m : positive) (e : Z) : Prop :=
  fexp prec emax (Z.pos (digits2_pos m) + e) = e.

(** [m * 2^e] has at least as many bits as the format keeps: rounding it
    only ever shifts to the right. *)
Definition aligned (m : positive) (e : Z) : Prop :=
  e <= fexp prec emax (Z.pos (digits2_pos m) + e).

(** The value rounding gives to [m * 2^e]. *)
Definition rv (m : positive) (e : Z) : R :=
  (IZR (RNE (fexp prec emax (Z.pos (digits2_pos m) + e) - e) (Z.pos m))
   * pow2 (fexp prec emax (Z.pos (digits2_pos m) + e)))%R.

(** The finite data of the format. *)
Definition good (f : spec_float) : Prop :=
  match f with
  | S754_zero _ => True
  | S754_finite _ m e => bounded prec emax m e = true
  | _ => False
  end.

(** [f] is what the format's rounding makes of the real number [v]. *)
Definition Rnd (v : R) (f : spec_float) : Prop :=
  (v = 0%R /\ exists s, f = S754_zero s) \/
  (exists s m e, aligned m e /\ v = (sgn s * val m e)%R /\
                 f = binary_round_aux prec emax s (Z.pos m) e loc_Exact).

(** Conversion of a datum of any format into this one. *)
Definition SFround (f : spec_float) : spec_float :=
  match f with
  | S754_finite s m e => binary_round prec emax s m e
  | _ => f
  end.

End Format.

(** The real number a finite [float] stands for. *)
Definition B2R (x : float) : R := SF2R (Prim2SF x).

Definition finite (x : float) : bool :=
  match Prim2SF x with
  | S754_zero _ | S754_finite _ _ _ => true
  | _ => false
  end.

(** The largest [float] below 1. *)
Definition below_one : float := 0x1.fffffffffffffp-1%float.

End IEEE754.

(** ** The arithmetic of the page in binary64

    The definitions above compute with exact real numbers.  This module
    computes the same expressions as the engine does: a Number is a
    primitive [float] (IEEE-754 binary64, round to nearest, ties to even),
    and an element of the [Float32Array] [posArray] is a binary32 datum,
    the rounding of the Number stored into it.  [Math.sin] and [Math.cos],
    which ECMAScript leaves implementation-approximated, are parameters.
    Of the page, the module follows what carries Numbers computed by
    [main.js] whose properties rounding decides: [posArray] (lines 47-52),
    the floating shapes (lines 93-116) and what [tick] writes to them
    (lines 132-139).  The canvas is present; the camera, the renderer and
    the host's log are as above. *)

Module Binary64.

Local Open Scope float_scope.

Definition Math_PI : float := 0x1.921fb54442d18p+1.

(** The Number a loop counter holds. *)
Definition Number_of_nat (n : nat) : float :=
  of_uint63 (Uint63Axioms.of_Z (Z.of_nat n)).

(** An element of a [Float32Array]: a binary32 datum. *)
Definition float32 : Type := spec_float.

(** The store [posArray[i] = v] rounds the Number [v] to binary32. *)
Definition ToFloat32 (v : float) : float32 := IEEE754.SFround 24 128 (Prim2SF v).

Definition float32_le (a b : float32) : Prop := SFleb a b = true.

Definition float32_finite (a : float32) : Prop :=
  match a with
  | S754_zero _ => True
  | S754_finite _ m e => bounded 24 128 m e = true
  | _ => False
  end.

Record Vector3 : Type := mkVector3 { x : float; y : float; z : float }.

Record Euler : Type := mkEuler { rx : float; ry : float; rz : float }.

Record Object3D : Type := mkObject3D { position : Vector3; rotation : Euler }.

(** [mesh.userData] of a floating shape (lines 107-112). *)
Record UserData : Type := mkUserData {
  initialY : float;
  speed : float;
  offset : float;
  rotSpeed : float
}.

Record Shape : Type := mkShape {
  geometry : Geometry;
  object : Object3D;
  userData : UserData
}.

(** The captured objects that hold Numbers computed from [Math.random()]. *)
Record World : Type := mkWorld {
  posArray : list float32;
  shapes : list Shape
}.

Inductive Event : Type :=
| AnimationFrame (elapsedTime : float)
| Resize (window : Window).

(** [Math.random()] returning [u] at every call. *)
Definition constantDraws (u : float) : nat -> float := fun _ => u.


Definition twoFrames : list Event := [AnimationFrame 0.5; AnimationFrame 1].


(** [n] times [r += rotSpeed], from 0. *)
Definition accumulate (n : nat) (rotSpeed : float) : float :=
  Nat.iter n (fun r => r + rotSpeed) 0.

(** The clock readings of the frames among [evs], in order. *)
Fixpoint frameTimes (evs : list Event) : list float :=
  match evs with
  | [] => []
  | AnimationFrame elapsedTime :: evs' => elapsedTime :: frameTimes evs'
  | Resize _ :: evs' => frameTimes evs'
  end.

(** Executions of [tick] once the page is loaded and [evs] have been
    dispatched: the call of line 149 and one per frame. *)
Definition iterations (evs : list Event) : nat :=
  S (List.length (frameTimes evs)).

(** The clock reading of the latest execution of [tick]. *)
Definition lastTime (firstTime : float) (evs : list Event) : float :=
  last (frameTimes evs) firstTime.

Section Page.

(** The [k]-th value returned to a call of [Math.random()] made by
    [main.js]. *)
Variable Math_random : nat -> float.

Variables Math_sin Math_cos : float -> float.

Definition random : M float :=
  fun h => (Math_random (randomCalls h),
            mkHost (S (randomCalls h)) (effects h)).

(** Lines 49-52: [n] successive elements of [posArray]. *)
Fixpoint fillPosArray (n : nat) : M (list float32) :=
  match n with
  | O => ret []
  | S n' =>
      u <- random ;;
      rest <- fillPosArray n' ;;
      ret (ToFloat32 ((u - 0.5) * 100) :: rest)
  end.

(** Lines 94-115: the body of the loop for index [i]. *)
Definition createShape (i : nat) : M Shape :=
  let geom :=
    nth (i mod List.length shapeGeometries) shapeGeometries
        (TetrahedronGeometry 0%R) in
  let angle := Number_of_nat i / 5 * Math_PI * 2 in
  u_radius <- random ;;
  let radius := 15 + u_radius * 5 in
  u_y <- random ;;
  let position :=
    mkVector3 (Math_cos angle * radius) ((u_y - 0.5) * 10)
              (Math_sin angle * radius) in
  u_speed <- random ;;
  u_offset <- random ;;
  u_rot <- random ;;
  let userData :=
    mkUserData (y position) (0.5 + u_speed * 0.5) (u_offset * Math_PI * 2)
               ((u_rot - 0.5) * 0.02) in
  ret (mkShape geom (mkObject3D position (mkEuler 0 0 0)) userData).

(** Lines 93-116: [count] iterations from index [i] on. *)
Fixpoint createShapes (i count : nat) : M (list Shape) :=
  match count with
  | O => ret []
  | S count' =>
      s <- createShape i ;;
      rest <- createShapes (S i) count' ;;
      ret (s :: rest)
  end.

(** Lines 45-116, as far as they compute Numbers. *)
Definition buildScene : M World :=
  posArray <- fillPosArray (particlesCount * 3) ;;
  shapes <- createShapes 0 shapeCount ;;
  ret (mkWorld posArray shapes).

(** The per-shape body of [shapes.forEach] in [tick] (lines 132-139). *)
Definition animate (elapsedTime : float) (shape : Shape) : Shape :=
  let d := userData shape in
  let p := position (object shape) in
  let r := rotation (object shape) in
  mkShape (geometry shape)
    (mkObject3D
       (mkVector3 (x p)
          (initialY d + Math_sin (elapsedTime * speed d + offset d) * 1.5)
          (z p))
       (mkEuler (rx r + rotSpeed d) (ry r + rotSpeed d) (rz r)))
    d.

(** What one execution of [tick] writes to the shapes. *)
Definition tickWorld (elapsedTime : float) (w : World) : World :=
  mkWorld (posArray w) (map (animate elapsedTime) (shapes w)).

(** The resize listener (lines 152-156) writes the camera and the
    renderer only. *)
Definition applyEvent (w : World) (ev : Event) : World :=
  match ev with
  | AnimationFrame elapsedTime => tickWorld elapsedTime w
  | Resize _ => w
  end.

Definition runWorld (evs : list Event) (w : World) : World :=
  fold_left applyEvent evs w.

(** The world of a page with a canvas after [evs]: construction, the call
    [tick()] of line 149, which reads [firstTime] from the clock, then the
    events. *)
Definition loadedWorld (firstTime : float) (evs : list Event) : World :=
  runWorld evs (tickWorld firstTime (fst (buildScene (mkHost 0 [])))).

Definition shapeAngle (i : nat) : float := Number_of_nat i / 5 * Math_PI * 2.

Definition shapeRadius (first : nat) : float := 15 + Math_random first * 5.

Definition shapeData (first : nat) : UserData :=
  mkUserData ((Math_random (first + 1) - 0.5) * 10)
             (0.5 + Math_random (first + 2) * 0.5)
             (Math_random (first + 3) * Math_PI * 2)
             ((Math_random (first + 4) - 0.5) * 0.02).

(** The shape of index [i] as line 115 pushes it, when its first call of
    [Math.random()] is call number [first]. *)
Definition builtShape (first i : nat) : Shape :=
  mkShape
    (nth (i mod 4) shapeGeometries (TetrahedronGeometry 0%R))
    (mkObject3D
       (mkVector3 (Math_cos (shapeAngle i) * shapeRadius first)
                  ((Math_random (first + 1) - 0.5) * 10)
                  (Math_sin (shapeAngle i) * shapeRadius first))
       (mkEuler 0 0 0))
    (shapeData first).

Definition builtPosArray : list float32 :=
  map (fun k => ToFloat32 ((Math_random k - 0.5) * 100))
      (seq 0 (particlesCount * 3)).

Definition animateAll (ts : list float) (s : Shape) : Shape :=
  fold_left (fun s t => animate t s) ts s.

(** The vertical position [tick] assigns (line 135). *)
Definition floatY (d : UserData) (elapsedTime : float) : float :=
  initialY d + Math_sin (elapsedTime * speed d + offset d) * 1.5.

(** What [tick] leaves alone in a shape. *)
Definition fixedPart (s : Shape) : Geometry * UserData * float * float * float :=
  (geometry s, userData s,
   x (position (object s)), z (position (object s)), rz (rotation (object s))).

End Page.

End Binary64.

(** * Properties *)

(** ** The monad and the loops *)

Lemma fillPosArray_spec (Math_random : nat -> R) (n : nat) (h : Host) :
  fillPosArray Math_random n h =
  (map (fun k => (Math_random k - 0.5) * 100) (seq (randomCalls h) n),
   mkHost (randomCalls h + n) (effects h)).
Proof.
  revert h; induction n as [|n IH]; intros h.
  - cbn. rewrite Nat.add_0_r. destruct h; reflexivity.
  - cbn [fillPosArray]. unfold bind at 1. unfold random at 1.
    unfold bind at 1. rewrite IH. cbn. unfold ret.
    do 2 f_equal. lia.
Qed.

Lemma createShape_spec (Math_random : nat -> R) (i : nat) (h : Host) :
  createShape Math_random i h =
  (builtShape Math_random (randomCalls h) i,
   mkHost (randomCalls h + 5)
          (effects h ++ [New "Mesh"; Add "objectsGroup" "mesh"])).
Proof.
  unfold createShape, bind, emit, random, ret, builtShape, shapeData,
    shapeRadius, shapeAngle.
  cbn -[Nat.modulo nth shapeGeometries INR].
  rewrite <- app_assoc, !Nat.add_succ_r, Nat.add_0_r.
  reflexivity.
Qed.

Lemma createShapes_spec (Math_random : nat -> R) (count i : nat) (h : Host) :
  createShapes Math_random i count h =
  (map (fun j => builtShape Math_random (randomCalls h + 5 * j) (i + j))
       (seq 0 count),
   mkHost (randomCalls h + 5 * count)
          (effects h ++ List.concat (repeat shapeEffects count))).
Proof.
  revert i h; induction count as [|count IH]; intros i h.
  - cbn. unfold ret. rewrite Nat.add_0_r, app_nil_r.
    destruct h; reflexivity.
  - cbn [createShapes]. unfold bind at 1. rewrite createShape_spec.
    unfold bind at 1. rewrite IH. unfold ret.
    cbn [randomCalls effects seq map repeat List.concat]. f_equal.
    + f_equal.
      * rewrite Nat.mul_0_r, !Nat.add_0_r. reflexivity.
      * rewrite <- seq_shift, map_map. apply map_ext. intros j.
        f_equal; lia.
    + f_equal; [lia|]. rewrite <- app_assoc. reflexivity.
Qed.

(** Line 119 is reached with the world [builtWorld], 2125 calls of
    [Math.random()] made and the log [buildEffects]. *)
Lemma buildScene_spec (Math_random : nat -> R) (canvas : Canvas) (window : Window) :
  buildScene Math_random canvas window (mkHost 0 []) =
  (builtWorld Math_random canvas window,
   mkHost (particlesCount * 3 + 5 * shapeCount) buildEffects).
Proof.
  unfold buildScene, bind, emit.
  cbn [randomCalls effects].
  rewrite fillPosArray_spec.
  cbn [randomCalls effects].
  rewrite createShapes_spec.
  cbn [randomCalls effects].
  unfold ret. f_equal.
Qed.

(** With a canvas, initialisation ends with the log of the construction,
    of one execution of [tick] and of the registration of the listener. *)
Lemma DOMContentLoaded_spec
    (Math_random : nat -> R) (canvas : Canvas) (window : Window) (firstTime : R) :
  DOMContentLoaded Math_random (Some canvas) window firstTime =
  mkPage
    (mkHost (particlesCount * 3 + 5 * shapeCount)
            (buildEffects ++ tickEffects ++ [AddEventListener "resize"]))
    (Some (tickWorld firstTime (builtWorld Math_random canvas window))).
Proof.
  unfold DOMContentLoaded, initThreeBackground.
  unfold bind at 1. rewrite buildScene_spec.
  unfold tick, bind, emit, ret, tickEffects. cbn [randomCalls effects].
  rewrite <- !app_assoc. reflexivity.
Qed.

(** With a canvas, initialisation leaves the world built by lines 14-119
    after one execution of [tick]. *)
Lemma DOMContentLoaded_session
    (Math_random : nat -> R) (canvas : Canvas) (window : Window) (firstTime : R) :
  session (DOMContentLoaded Math_random (Some canvas) window firstTime) =
  Some (tickWorld firstTime (builtWorld Math_random canvas window)).
Proof.
  rewrite DOMContentLoaded_spec. reflexivity.
Qed.

Lemma dispatch_session (p : Page) (ev : Event) :
  session (dispatch p ev) = option_map (fun w => applyEvent w ev) (session p).
Proof.
  unfold dispatch. destruct (session p) as [w|] eqn:E; cbn.
  - destruct ev; cbn; reflexivity.
  - exact E.
Qed.

Lemma run_session (evs : list Event) (p : Page) :
  session (run evs p) = option_map (runWorld evs) (session p).
Proof.
  unfold run, runWorld. revert p.
  induction evs as [|ev evs IH]; intros p; cbn [fold_left].
  - destruct (session p); reflexivity.
  - rewrite IH, dispatch_session. destruct (session p); reflexivity.
Qed.

(** The animation loop is alive after any sequence of events, and its
    captured objects are [loadedWorld]. *)
Lemma loaded_session
    (Math_random : nat -> R) (canvas : Canvas) (window : Window)
    (firstTime : R) (evs : list Event) :
  session (run evs (DOMContentLoaded Math_random (Some canvas) window firstTime)) =
  Some (loadedWorld Math_random canvas window firstTime evs).
Proof.
  rewrite run_session, DOMContentLoaded_session. reflexivity.
Qed.

(** ** How the captured objects evolve *)

(** Induction over the events dispatched to a world: no event, then a
    frame or a resize followed by the rest. *)
Ltac by_events evs w IH :=
  unfold runWorld; revert w;
  induction evs as [|[?|?] evs IH]; intros w; cbn [fold_left].

(** A field that neither [tick] nor the listener writes. *)
Ltac untouched evs w :=
  let IH := fresh "IH" in
  by_events evs w IH; [reflexivity | rewrite IH; reflexivity ..].

Lemma posArray_runWorld (evs : list Event) (w : World) :
  posArray (runWorld evs w) = posArray w.
Proof. untouched evs w. Qed.

Lemma pixelRatio_runWorld (evs : list Event) (w : World) :
  pixelRatio (renderer (runWorld evs w)) = pixelRatio (renderer w).
Proof. untouched evs w. Qed.

Lemma shapes_runWorld (evs : list Event) (w : World) :
  shapes (runWorld evs w) = map (animateAll (frameTimes evs)) (shapes w).
Proof.
  by_events evs w IH; cbn [frameTimes].
  - unfold animateAll. cbn. symmetry. apply map_id.
  - rewrite IH. cbn [applyEvent tickWorld shapes].
    rewrite map_map. reflexivity.
  - rewrite IH. reflexivity.
Qed.

Lemma animateAll_snoc (ts : list R) (t : R) (s : Shape) :
  animateAll (ts ++ [t]) s = animate t (animateAll ts s).
Proof. unfold animateAll. rewrite fold_left_app. reflexivity. Qed.

(** The fields an execution of [tick] never writes. *)
Lemma animateAll_fixed (ts : list R) (s : Shape) :
  userData (animateAll ts s) = userData s /\
  geometry (animateAll ts s) = geometry s /\
  x (position (object (animateAll ts s))) = x (position (object s)) /\
  z (position (object (animateAll ts s))) = z (position (object s)) /\
  rz (rotation (object (animateAll ts s))) = rz (rotation (object s)).
Proof.
  induction ts as [|t ts IH] using rev_ind.
  - repeat split.
  - rewrite animateAll_snoc. cbn. exact IH.
Qed.

Lemma animateAll_userData (ts : list R) (s : Shape) :
  userData (animateAll ts s) = userData s.
Proof. apply animateAll_fixed. Qed.

(** Each execution adds [rotSpeed] to both angles. *)
Lemma animateAll_rotation (ts : list R) (s : Shape) :
  rx (rotation (object (animateAll ts s))) =
    rx (rotation (object s)) + INR (List.length ts) * rotSpeed (userData s) /\
  ry (rotation (object (animateAll ts s))) =
    ry (rotation (object s)) + INR (List.length ts) * rotSpeed (userData s).
Proof.
  induction ts as [|t ts [IHx IHy]] using rev_ind.
  - cbn. split; lra.
  - rewrite animateAll_snoc, length_app, Nat.add_comm.
    cbn [List.length Nat.add animate rotation object rx ry].
    rewrite animateAll_userData, IHx, IHy, S_INR. split; lra.
Qed.

(** The vertical position is the one of the latest execution. *)
Lemma animateAll_y (ts : list R) (t0 : R) (s : Shape) :
  y (position (object (animateAll (t0 :: ts) s))) =
  floatY (userData s) (last ts t0).
Proof.
  induction ts as [|t ts _] using rev_ind.
  - reflexivity.
  - rewrite app_comm_cons, animateAll_snoc, last_last.
    cbn [animate position object y]. rewrite animateAll_userData.
    reflexivity.
Qed.

Lemma sin_amplitude (a v : R) : a - 1.5 <= a + sin v * 1.5 <= a + 1.5.
Proof. pose proof (SIN_bound v). lra. Qed.

(** The shapes of a loaded page: those of line 115, animated at every
    clock reading so far. *)
Lemma loadedWorld_shapes
    (Math_random : nat -> R) (canvas : Canvas) (window : Window)
    (firstTime : R) (evs : list Event) :
  shapes (loadedWorld Math_random canvas window firstTime evs) =
  map (fun i => animateAll (firstTime :: frameTimes evs)
                  (builtShape Math_random (firstDraw i) i))
      (seq 0 shapeCount).
Proof.
  unfold loadedWorld. rewrite shapes_runWorld.
  cbn [tickWorld shapes builtWorld]. rewrite !map_map. reflexivity.
Qed.

Lemma loadedWorld_nth_shape
    (Math_random : nat -> R) (canvas : Canvas) (window : Window)
    (firstTime : R) (evs : list Event) (i : nat) :
  (i < shapeCount)%nat ->
  nth_error (shapes (loadedWorld Math_random canvas window firstTime evs)) i =
  Some (animateAll (firstTime :: frameTimes evs)
          (builtShape Math_random (firstDraw i) i)).
Proof.
  intros Hi. rewrite loadedWorld_shapes.
  rewrite nth_error_map, nth_error_seq.
  apply Nat.ltb_lt in Hi. rewrite Hi. reflexivity.
Qed.

(** Everything the page knows about the shape of index [i] once it is
    loaded and [evs] have been dispatched. *)
Lemma loaded_shape
    (Math_random : nat -> R) (canvas : Canvas) (window : Window)
    (firstTime : R) (evs : list Event) (i : nat) :
  (i < shapeCount)%nat ->
  exists s,
    nth_error (shapes (loadedWorld Math_random canvas window firstTime evs)) i
      = Some s /\
    userData s = shapeData Math_random (firstDraw i) /\
    x (position (object s)) =
      cos (shapeAngle i) * shapeRadius Math_random (firstDraw i) /\
    z (position (object s)) =
      sin (shapeAngle i) * shapeRadius Math_random (firstDraw i) /\
    y (position (object s)) =
      floatY (shapeData Math_random (firstDraw i)) (lastTime firstTime evs) /\
    rx (rotation (object s)) =
      INR (iterations evs) * rotSpeed (shapeData Math_random (firstDraw i)) /\
    ry (rotation (object s)) =
      INR (iterations evs) * rotSpeed (shapeData Math_random (firstDraw i)).
Proof.
  intros Hi. eexists. split; [apply loadedWorld_nth_shape; exact Hi|].
  set (b := builtShape Math_random (firstDraw i) i).
  destruct (animateAll_fixed (firstTime :: frameTimes evs) b)
    as (Hd & _ & Hx & Hz & _).
  destruct (animateAll_rotation (firstTime :: frameTimes evs) b) as [Hrx Hry].
  rewrite Hd, Hx, Hz, Hrx, Hry, animateAll_y.
  unfold iterations, lastTime. cbn [List.length].
  subst b. cbn [builtShape userData object position rotation x z rx ry].
  repeat split; lra.
Qed.

(** * The claims

    C2, C3, C4, C5, C9 and C10 are proved here, over the exact reading of
    the arithmetic.  C1, C6, C7 and C8 state equalities or bounds that
    rounding decides; they are proved over [Binary64] in the last part of
    the file. *)

(** ** C2 *)

(** C2.  An execution of [tick] that reads [t] leaves the globe's rotation
    about Y at [0.05 * t], the particles' rotation about Y at [-0.02 * t]
    and about X at [0.01 * t], whatever the captured objects were before;
    so it is for the call of line 149 and for a frame that follows any
    sequence of earlier events. *)
Theorem C2_globe_and_particles_follow_the_clock
    (Math_random : nat -> R) (canvas : Canvas) (window : Window)
    (firstTime t : R) (evs : list Event) :
  (forall w : World,
     ry (rotation (globe (tickWorld t w))) = 0.05 * t /\
     ry (rotation (particlesMesh (tickWorld t w))) = -0.02 * t /\
     rx (rotation (particlesMesh (tickWorld t w))) = 0.01 * t) /\
  (exists w,
     session (DOMContentLoaded Math_random (Some canvas) window firstTime)
       = Some w /\
     ry (rotation (globe w)) = 0.05 * firstTime /\
     ry (rotation (particlesMesh w)) = -0.02 * firstTime /\
     rx (rotation (particlesMesh w)) = 0.01 * firstTime) /\
  (exists w,
     session (run (evs ++ [AnimationFrame t])
                (DOMContentLoaded Math_random (Some canvas) window firstTime))
       = Some w /\
     ry (rotation (globe w)) = 0.05 * t /\
     ry (rotation (particlesMesh w)) = -0.02 * t /\
     rx (rotation (particlesMesh w)) = 0.01 * t).
Proof.
  assert (Htick : forall (u : R) (w : World),
             ry (rotation (globe (tickWorld u w))) = 0.05 * u /\
             ry (rotation (particlesMesh (tickWorld u w))) = -0.02 * u /\
             rx (rotation (particlesMesh (tickWorld u w))) = 0.01 * u).
  { intros u w. cbn. repeat split; lra. }
  split; [apply Htick|]. split.
  - eexists. split; [apply DOMContentLoaded_session | apply Htick].
  - eexists. split; [apply loaded_session|].
    unfold loadedWorld, runWorld. rewrite fold_left_app.
    cbn [fold_left applyEvent]. apply Htick.
Qed.

(** ** C3 *)


(** ** The host's log of a loaded page *)

Lemma host_run_loaded (evs : list Event) (h : Host) (w : World) :
  host (run evs (mkPage h (Some w))) =
  mkHost (randomCalls h)
         (effects h ++ List.concat (repeat tickEffects (List.length (frameTimes evs)))).
Proof.
  unfold run. revert h w.
  induction evs as [|[t|win] evs IH]; intros h w; cbn [fold_left frameTimes].
  - cbn. rewrite app_nil_r. destruct h; reflexivity.
  - unfold dispatch at 2. cbn [session host handle].
    unfold tick, bind, emit, ret. cbn [randomCalls effects].
    rewrite IH. cbn [randomCalls effects List.length repeat List.concat].
    unfold tickEffects. rewrite <- !app_assoc. reflexivity.
  - unfold dispatch at 2. cbn [session host handle]. unfold ret.
    apply IH.
Qed.

Lemma countEffects_app (p : Effect -> bool) (es1 es2 : list Effect) :
  countEffects p (es1 ++ es2) = (countEffects p es1 + countEffects p es2)%nat.
Proof. unfold countEffects. rewrite filter_app, length_app. reflexivity. Qed.

Lemma countEffects_ticks (n : nat) :
  countEffects isRender (List.concat (repeat tickEffects n)) = n /\
  countEffects isRequest (List.concat (repeat tickEffects n)) = n /\
  countEffects isListener (List.concat (repeat tickEffects n)) = 0%nat /\
  countEffects isConstruction (List.concat (repeat tickEffects n)) = 0%nat.
Proof.
  induction n as [|n (IH1 & IH2 & IH3 & IH4)]; [repeat split|].
  cbn [repeat List.concat]. rewrite !countEffects_app, IH1, IH2, IH3, IH4.
  repeat split.
Qed.

(** With a canvas the page constructs 25 objects, renders once and requests
    one frame per execution of [tick], and registers one listener; every
    frame finds the request of the execution before it. *)
Lemma loaded_page_effects
    (Math_random : nat -> R) (canvas : Canvas) (window : Window)
    (firstTime : R) (evs : list Event) :
  let es :=
    effects (host (run evs
      (DOMContentLoaded Math_random (Some canvas) window firstTime))) in
  countEffects isConstruction es = 25%nat /\
  countEffects isRender es = iterations evs /\
  countEffects isRequest es = iterations evs /\
  countEffects isListener es = 1%nat.
Proof.
  rewrite DOMContentLoaded_spec, host_run_loaded. cbn [effects].
  destruct (countEffects_ticks (List.length (frameTimes evs)))
    as (H1 & H2 & H3 & H4).
  rewrite !countEffects_app, H1, H2, H3, H4. unfold iterations.
  repeat split; cbn; lia.
Qed.

(** ** C5 *)

(** C5.  Without a canvas [initThreeBackground] returns at line 12 with
    the host exactly as it found it: nothing constructed, nothing
    scheduled, no listener registered, no call of [Math.random()], no
    captured objects.  Later frames and resize notifications then find
    nothing to run. *)
Theorem C5_missing_canvas_is_a_no_op
    (Math_random : nat -> R) (window : Window) (firstTime : R)
    (h : Host) (evs : list Event) :
  initThreeBackground Math_random None window firstTime h = (None, h) /\
  DOMContentLoaded Math_random None window firstTime
    = mkPage (mkHost 0 []) None /\
  run evs (DOMContentLoaded Math_random None window firstTime)
    = mkPage (mkHost 0 []) None.
Proof.
  split; [reflexivity|]. split; [reflexivity|].
  unfold DOMContentLoaded, initThreeBackground, ret, run.
  induction evs as [|ev evs IH]; [reflexivity | exact IH].
Qed.

(** ** The values of [Math.random()] *)

Section Ranges.

Variable u : R.
Hypothesis u_range : 0 <= u < 1.

Lemma initialY_range : -5 <= (u - 0.5) * 10 < 5.
Proof. lra. Qed.

End Ranges.

Lemma constantDraws_range (u : R) :
  0 <= u < 1 -> forall k : nat, 0 <= constantDraws u k < 1.
Proof. intros Hu k. exact Hu. Qed.

Lemma half_in_range : 0 <= 0.5 < 1.
Proof. lra. Qed.

Lemma zero_in_range : 0 <= 0 < 1.
Proof. lra. Qed.

Lemma three_lt_shapeCount : (3 < shapeCount)%nat.
Proof. unfold shapeCount. lia. Qed.

(** ** C9 and C4: the resize listener *)

Lemma Number_divide_Z (a b : Z) :
  b <> 0%Z ->
  Number_divide (Number_of_Z a) (Number_of_Z b) = Finite (IZR a / IZR b).
Proof.
  intros Hb. unfold Number_divide, Number_of_Z.
  destruct (Req_dec_T (IZR b) 0) as [E|_]; [|reflexivity].
  apply eq_IZR_R0 in E. contradiction.
Qed.

Lemma Number_divide_zero_zero :
  Number_divide (Number_of_Z 0) (Number_of_Z 0) = NaN.
Proof.
  unfold Number_divide, Number_of_Z.
  destruct (Req_dec_T 0 0) as [_|N]; [reflexivity | contradiction N; reflexivity].
Qed.

Lemma Number_divide_positive_zero (a : Z) :
  (0 < a)%Z -> Number_divide (Number_of_Z a) (Number_of_Z 0) = PosInfinity.
Proof.
  intros Ha. apply IZR_lt in Ha. unfold Number_divide, Number_of_Z.
  destruct (Req_dec_T 0 0) as [_|N]; [|contradiction N; reflexivity].
  destruct (Req_dec_T (IZR a) 0) as [E|_]; [lra|].
  unfold infinity, negative. destruct (Rlt_dec (IZR a) 0); [lra | reflexivity].
Qed.

Lemma dispatch_Resize (p : Page) (resized : Window) :
  dispatch p (Resize resized) =
  mkPage (host p) (option_map (resizeWorld resized) (session p)).
Proof.
  unfold dispatch. destruct p as [h [w|]]; reflexivity.
Qed.

Lemma resizeWorld_idempotent (resized : Window) (w : World) :
  resizeWorld resized (resizeWorld resized w) = resizeWorld resized w.
Proof. reflexivity. Qed.

(** C9.  The resize listener sets [camera.aspect] to the quotient
    [innerWidth / innerHeight] of the new viewport, which for a height
    other than 0 is the finite number width / height, recomputes the
    projection from it, and sets the renderer's size to the new width and
    height.  It leaves the pixel ratio, the globe, the particles,
    [posArray] and the shapes as they were, and has no effect on the host;
    running it again with the same viewport changes nothing.  The pixel
    ratio of a loaded page is [min (devicePixelRatio, 2)] of the viewport
    at construction, at most 2, after any sequence of events. *)
Theorem C9_resize_updates_the_view_only
    (Math_random : nat -> R) (canvas : Canvas) (window : Window)
    (firstTime : R) (evs : list Event) (resized : Window) :
  (forall w : World,
     aspect (camera (resizeWorld resized w)) =
       Number_divide (Number_of_Z (innerWidth resized))
                     (Number_of_Z (innerHeight resized)) /\
     (innerHeight resized <> 0%Z ->
      aspect (camera (resizeWorld resized w)) =
        Finite (IZR (innerWidth resized) / IZR (innerHeight resized))) /\
     projectionMatrix (camera (resizeWorld resized w)) =
       mkProjection (fov (camera w)) (aspect (camera (resizeWorld resized w)))
                    (near (camera w)) (far (camera w)) /\
     fov (camera (resizeWorld resized w)) = fov (camera w) /\
     near (camera (resizeWorld resized w)) = near (camera w) /\
     far (camera (resizeWorld resized w)) = far (camera w) /\
     camera_position (camera (resizeWorld resized w)) = camera_position (camera w) /\
     width (renderer (resizeWorld resized w)) = innerWidth resized /\
     height (renderer (resizeWorld resized w)) = innerHeight resized /\
     pixelRatio (renderer (resizeWorld resized w)) = pixelRatio (renderer w) /\
     globe (resizeWorld resized w) = globe w /\
     particlesMesh (resizeWorld resized w) = particlesMesh w /\
     posArray (resizeWorld resized w) = posArray w /\
     shapes (resizeWorld resized w) = shapes w /\
     resizeWorld resized (resizeWorld resized w) = resizeWorld resized w) /\
  (forall p : Page,
     host (dispatch p (Resize resized)) = host p /\
     session (dispatch p (Resize resized))
       = option_map (resizeWorld resized) (session p) /\
     dispatch (dispatch p (Resize resized)) (Resize resized)
       = dispatch p (Resize resized)) /\
  (exists w,
     session (run evs
                (DOMContentLoaded Math_random (Some canvas) window firstTime))
       = Some w /\
     pixelRatio (renderer w) = Rmin (devicePixelRatio window) 2 /\
     pixelRatio (renderer w) <= 2).
Proof.
  split; [|split].
  - intros w. split; [reflexivity|]. split; [|repeat split].
    intros Hh. cbn [resizeWorld camera updateProjectionMatrix aspect].
    apply Number_divide_Z. exact Hh.
  - intros p. rewrite !dispatch_Resize. cbn [host session].
    repeat split. destruct (session p); reflexivity.
  - exists (loadedWorld Math_random canvas window firstTime evs).
    rewrite loaded_session. unfold loadedWorld. rewrite pixelRatio_runWorld.
    cbn [tickWorld renderer builtWorld pixelRatio].
    repeat split. apply Rmin_r.
Qed.

Lemma C9_resize_updates_the_view_only_witness :
  (600 <> 0)%Z /\
  aspect (camera (resizeWorld (mkWindow 800 600 1)
                    (builtWorld (constantDraws 0.5) sampleCanvas sampleWindow)))
    = Finite (800 / 600).
Proof.
  split; [lia|].
  destruct (C9_resize_updates_the_view_only (constantDraws 0.5) sampleCanvas
              sampleWindow 0 [] (mkWindow 800 600 1)) as [H _].
  destruct (H (builtWorld (constantDraws 0.5) sampleCanvas sampleWindow))
    as (_ & Hq & _).
  apply Hq. cbn [innerHeight]. lia.
Defined.

(** C4, as amended.  The resize listener assigns
    [innerWidth / innerHeight] to [camera.aspect] with no guard.  For a
    positive width and a positive height the aspect is their quotient, a
    positive finite number.  Degenerate sizes are neither clamped nor
    ignored: width 0 and height 0 give [NaN], which also reaches the
    projection; a positive width with height 0 gives [+Infinity]; width 0
    with a positive height gives 0; a negative width gives a negative
    aspect. *)
Theorem C4_aspect_after_resize
    (w : World) (dpr : R) (newWidth newHeight : Z) :
  (0 < newWidth)%Z -> (0 < newHeight)%Z ->
  (aspect (camera (resizeWorld (mkWindow newWidth newHeight dpr) w))
     = Finite (IZR newWidth / IZR newHeight) /\
   0 < IZR newWidth / IZR newHeight) /\
  aspect (camera (resizeWorld (mkWindow 0 0 dpr) w)) = NaN /\
  proj_aspect (projectionMatrix (camera (resizeWorld (mkWindow 0 0 dpr) w)))
    = NaN /\
  aspect (camera (resizeWorld (mkWindow newWidth 0 dpr) w)) = PosInfinity /\
  aspect (camera (resizeWorld (mkWindow 0 newHeight dpr) w)) = Finite 0 /\
  (exists r, aspect (camera (resizeWorld (mkWindow (- newWidth) newHeight dpr) w))
               = Finite r /\ r < 0).
Proof.
  intros Hw Hh.
  assert (Hh0 : newHeight <> 0%Z) by lia.
  pose proof (IZR_lt _ _ Hw) as Hwr. pose proof (IZR_lt _ _ Hh) as Hhr.
  cbn [resizeWorld camera updateProjectionMatrix aspect projectionMatrix
       proj_aspect innerWidth innerHeight].
  rewrite (Number_divide_Z newWidth newHeight),
    (Number_divide_Z 0 newHeight),
    (Number_divide_Z (- newWidth) newHeight) by exact Hh0.
  rewrite Number_divide_zero_zero, Number_divide_positive_zero by exact Hw.
  split; [split; [reflexivity | apply Rdiv_lt_0_compat; assumption]|].
  split; [reflexivity|]. split; [reflexivity|]. split; [reflexivity|].
  split.
  - f_equal. unfold Rdiv. ring.
  - eexists. split; [reflexivity|].
    rewrite opp_IZR. unfold Rdiv. rewrite <- Ropp_mult_distr_l.
    apply Ropp_lt_gt_0_contravar. apply Rmult_lt_0_compat; [assumption|].
    apply Rinv_0_lt_compat. assumption.
Qed.

Lemma C4_aspect_after_resize_witness :
  (0 < 1920)%Z /\ (0 < 1080)%Z /\
  aspect (camera (resizeWorld (mkWindow 1920 1080 1)
                    (builtWorld (constantDraws 0.5) sampleCanvas sampleWindow)))
    = Finite (1920 / 1080).
Proof.
  split; [lia|]. split; [lia|].
  apply (C4_aspect_after_resize
           (builtWorld (constantDraws 0.5) sampleCanvas sampleWindow)
           1 1920 1080); lia.
Defined.

(** C4 as stated fails: a resize to width 0 and height 0 leaves the aspect
    [NaN], in the camera and in its projection. *)
Lemma C4_zero_viewport_gives_NaN :
  exists w,
    session (run [Resize (mkWindow 0 0 1)]
               (DOMContentLoaded (constantDraws 0.5) (Some sampleCanvas)
                  sampleWindow 0)) = Some w /\
    aspect (camera w) = NaN /\
    proj_aspect (projectionMatrix (camera w)) = NaN.
Proof.
  eexists. split; [apply loaded_session|].
  unfold loadedWorld, runWorld.
  cbn [fold_left applyEvent resizeWorld camera updateProjectionMatrix aspect
       projectionMatrix proj_aspect innerWidth innerHeight].
  rewrite Number_divide_zero_zero. split; reflexivity.
Qed.

(** ** C10 *)

(** C10, as amended.  With every value of [Math.random()] in [0, 1), the
    shape of index [i < 5] is built at height [initialY = (u - 0.5) * 10],
    in [-5, 5), and after any sequence of events its height lies in
    [-6.5, 6.5): the lower end is closed. *)
Theorem C10_vertical_range
    (Math_random : nat -> R) (canvas : Canvas) (window : Window)
    (firstTime : R) (evs : list Event) (i : nat) :
  (forall k, 0 <= Math_random k < 1) ->
  (i < shapeCount)%nat ->
  (exists s0,
     nth_error (shapes (builtWorld Math_random canvas window)) i = Some s0 /\
     y (position (object s0)) = initialY (userData s0) /\
     -5 <= y (position (object s0)) < 5) /\
  (exists w s,
     session (run evs
                (DOMContentLoaded Math_random (Some canvas) window firstTime))
       = Some w /\
     nth_error (shapes w) i = Some s /\
     initialY (userData s) = (Math_random (firstDraw i + 1)%nat - 0.5) * 10 /\
     -5 <= initialY (userData s) < 5 /\
     -6.5 <= y (position (object s)) < 6.5).
Proof.
  intros Hrange Hi.
  pose proof (initialY_range _ (Hrange (firstDraw i + 1)%nat)) as Hy.
  split.
  - exists (builtShape Math_random (firstDraw i) i). split.
    + cbn [builtWorld shapes]. rewrite nth_error_map, nth_error_seq.
      apply Nat.ltb_lt in Hi. rewrite Hi. reflexivity.
    + cbn [builtShape object position y userData shapeData initialY].
      split; [reflexivity | exact Hy].
  - destruct (loaded_shape Math_random canvas window firstTime evs i Hi)
      as (s & Hn & Hd & _ & _ & Hys & _).
    exists (loadedWorld Math_random canvas window firstTime evs), s.
    rewrite loaded_session, Hd, Hys. unfold floatY.
    cbn [shapeData initialY speed offset].
    match goal with
    | |- context [sin ?v] =>
        pose proof (sin_amplitude
                      ((Math_random (firstDraw i + 1)%nat - 0.5) * 10) v) as Hb
    end.
    repeat split; try assumption; try reflexivity; lra.
Qed.

Lemma C10_vertical_range_witness :
  (forall k, 0 <= constantDraws 0.5 k < 1) /\
  (3 < shapeCount)%nat /\
  exists w s,
    session (run twoFrames
               (DOMContentLoaded (constantDraws 0.5) (Some sampleCanvas)
                  sampleWindow 0)) = Some w /\
    nth_error (shapes w) 3 = Some s /\
    -5 <= initialY (userData s) < 5 /\
    -6.5 <= y (position (object s)) < 6.5.
Proof.
  split; [exact (constantDraws_range 0.5 half_in_range)|].
  split; [exact three_lt_shapeCount|].
  destruct (C10_vertical_range (constantDraws 0.5) sampleCanvas sampleWindow
              0 twoFrames 3 (constantDraws_range 0.5 half_in_range)
              three_lt_shapeCount)
    as [_ (w & s & Hw & Hs & _ & Hi & Hy)].
  exists w, s. repeat split; solve [assumption | apply Hi | apply Hy].
Defined.

(** C10 as stated fails at the lower end: when [Math.random()] returns 0
    the first shape is built at height -5 with speed 0.5 and offset 0, and
    the frame that reads the clock at 3π puts it at -6.5 exactly. *)
Lemma C10_lowest_point_is_reached :
  (forall k, 0 <= constantDraws 0 k < 1) /\
  exists w s,
    session (run [AnimationFrame (3 * PI)]
               (DOMContentLoaded (constantDraws 0) (Some sampleCanvas)
                  sampleWindow 0)) = Some w /\
    nth_error (shapes w) 0 = Some s /\
    y (position (object s)) = -6.5 /\
    ~ (-6.5 < y (position (object s)) < 6.5).
Proof.
  split; [exact (constantDraws_range 0 zero_in_range)|].
  assert (Hi : (0 < shapeCount)%nat) by (unfold shapeCount; lia).
  destruct (loaded_shape (constantDraws 0) sampleCanvas sampleWindow 0
              [AnimationFrame (3 * PI)] 0 Hi)
    as (s & Hn & _ & _ & _ & Hy & _).
  exists (loadedWorld (constantDraws 0) sampleCanvas sampleWindow 0
            [AnimationFrame (3 * PI)]), s.
  rewrite loaded_session.
  assert (Hv : y (position (object s)) = -6.5).
  { rewrite Hy. unfold floatY, lastTime, shapeData, constantDraws.
    cbn [frameTimes last initialY speed offset].
    replace (3 * PI * (0.5 + 0 * 0.5) + 0 * PI * 2) with (3 * (PI / 2))
      by lra.
    rewrite sin_3PI2. lra. }
  repeat split; try assumption; try reflexivity.
  rewrite Hv. lra.
Qed.

(** * Further properties of the background *)

(** ** Frames and resizes act on different objects *)

Lemma resize_tick_commute (window : Window) (t : R) (w : World) :
  resizeWorld window (tickWorld t w) = tickWorld t (resizeWorld window w).
Proof. reflexivity. Qed.

Lemma runWorld_cons (ev : Event) (evs : list Event) (w : World) :
  runWorld (ev :: evs) w = runWorld evs (applyEvent w ev).
Proof. reflexivity. Qed.

Lemma onlyResizes_past_tick (evs : list Event) (t : R) (w : World) :
  runWorld (onlyResizes evs) (tickWorld t w)
  = tickWorld t (runWorld (onlyResizes evs) w).
Proof.
  revert w. induction evs as [|[u|win] evs IH]; intros w; cbn [onlyResizes filter].
  - reflexivity.
  - apply IH.
  - rewrite !runWorld_cons. cbn [applyEvent].
    rewrite resize_tick_commute. apply IH.
Qed.

Lemma onlyFrames_past_resize (evs : list Event) (window : Window) (w : World) :
  runWorld (onlyFrames evs) (resizeWorld window w)
  = resizeWorld window (runWorld (onlyFrames evs) w).
Proof.
  revert w. induction evs as [|[u|win] evs IH]; intros w; cbn [onlyFrames filter].
  - reflexivity.
  - rewrite !runWorld_cons. cbn [applyEvent].
    rewrite <- resize_tick_commute. apply IH.
  - apply IH.
Qed.

(** However frames and resize notifications interleave, the captured
    objects end as if all the frames had come first and the resizes after
    them, or the other way round: only the order among the frames and the
    order among the resizes matter. *)
Theorem frames_and_resizes_commute
    (Math_random : nat -> R) (canvas : Canvas) (window : Window)
    (firstTime : R) (evs : list Event) :
  (forall w : World,
     runWorld evs w = runWorld (onlyResizes evs) (runWorld (onlyFrames evs) w) /\
     runWorld evs w = runWorld (onlyFrames evs) (runWorld (onlyResizes evs) w)) /\
  session (run evs (DOMContentLoaded Math_random (Some canvas) window firstTime))
  = session (run (onlyFrames evs ++ onlyResizes evs)
               (DOMContentLoaded Math_random (Some canvas) window firstTime)).
Proof.
  assert (H : forall w : World,
             runWorld evs w
             = runWorld (onlyResizes evs) (runWorld (onlyFrames evs) w) /\
             runWorld evs w
             = runWorld (onlyFrames evs) (runWorld (onlyResizes evs) w)).
  { induction evs as [|[u|win] evs IH]; intros w;
      cbn [onlyResizes onlyFrames filter].
    - split; reflexivity.
    - rewrite !runWorld_cons. cbn [applyEvent].
      destruct (IH (tickWorld u w)) as [IH1 IH2].
      split; [exact IH1|]. rewrite IH2, onlyResizes_past_tick. reflexivity.
    - rewrite !runWorld_cons. cbn [applyEvent].
      destruct (IH (resizeWorld win w)) as [IH1 IH2].
      split; [|exact IH2]. rewrite IH1, onlyFrames_past_resize. reflexivity. }
  split; [exact H|].
  rewrite !loaded_session. unfold loadedWorld, runWorld at 2.
  rewrite fold_left_app. f_equal. apply H.
Qed.

(** ** The camera and the renderer follow the latest viewport *)

Lemma viewOf_runWorld (evs : list Event) (window : Window) (ratio : R) (w : World) :
  viewOf window ratio w ->
  viewOf (lastViewport window evs) ratio (runWorld evs w).
Proof.
  revert window w. induction evs as [|[u|win] evs IH]; intros window w Hv.
  - exact Hv.
  - rewrite runWorld_cons. apply IH. exact Hv.
  - rewrite runWorld_cons. cbn [lastViewport fold_left]. apply IH.
    destruct Hv as [Hc Hr]. unfold viewOf.
    cbn [applyEvent resizeWorld camera renderer].
    rewrite Hc, Hr. split; reflexivity.
Qed.

(** After any sequence of events the camera of a loaded page has the
    aspect [innerWidth / innerHeight] of the latest resize (of
    construction, if there was none), its projection is the one computed
    from that very aspect, and the renderer has the size of that viewport:
    the projection is never stale.  Field of view, clipping planes and
    position keep their values of construction, and so does the pixel
    ratio, even when a later viewport reports another
    [devicePixelRatio]. *)
Theorem view_follows_latest_viewport
    (Math_random : nat -> R) (canvas : Canvas) (window : Window)
    (firstTime : R) (evs : list Event) :
  exists w,
    session (run evs (DOMContentLoaded Math_random (Some canvas) window firstTime))
      = Some w /\
    aspect (camera w) =
      Number_divide (Number_of_Z (innerWidth (lastViewport window evs)))
                    (Number_of_Z (innerHeight (lastViewport window evs))) /\
    projectionMatrix (camera w) =
      mkProjection (fov (camera w)) (aspect (camera w))
                   (near (camera w)) (far (camera w)) /\
    fov (camera w) = 75 /\ near (camera w) = 0.1 /\ far (camera w) = 1000 /\
    camera_position (camera w) = mkVector3 0 0 30 /\
    width (renderer w) = innerWidth (lastViewport window evs) /\
    height (renderer w) = innerHeight (lastViewport window evs) /\
    pixelRatio (renderer w) = Rmin (devicePixelRatio window) 2.
Proof.
  exists (loadedWorld Math_random canvas window firstTime evs).
  split; [apply loaded_session|].
  destruct (viewOf_runWorld evs window (Rmin (devicePixelRatio window) 2)
              (tickWorld firstTime (builtWorld Math_random canvas window)))
    as [Hc Hr].
  { split; reflexivity. }
  unfold loadedWorld. rewrite Hc, Hr. repeat split.
Qed.

(** ** What the page asks of the browser *)

(** The code of [main.js] has called [Math.random()] 2125 times on a
    loaded page (2100 times at line 51, five times per shape at lines
    99-111; the calls three.js makes on its own are not counted), all of
    them during construction, whatever events followed; it has rendered once
    and requested one frame per execution of [tick], so that exactly one
    request is outstanding after each, and resize notifications have
    rendered nothing and requested nothing; the resize listener was
    registered once. *)
Theorem background_requests
    (Math_random : nat -> R) (canvas : Canvas) (window : Window)
    (firstTime : R) (evs : list Event) :
  randomCalls (host (run evs
    (DOMContentLoaded Math_random (Some canvas) window firstTime))) = 2125%nat /\
  effects (host (run evs
    (DOMContentLoaded Math_random (Some canvas) window firstTime)))
  = effects (host (run (onlyFrames evs)
      (DOMContentLoaded Math_random (Some canvas) window firstTime))) /\
  countEffects isRender (effects (host (run evs
    (DOMContentLoaded Math_random (Some canvas) window firstTime))))
  = S (List.length (onlyFrames evs)) /\
  countEffects isRequest (effects (host (run evs
    (DOMContentLoaded Math_random (Some canvas) window firstTime))))
  = S (List.length (onlyFrames evs)) /\
  countEffects isListener (effects (host (run evs
    (DOMContentLoaded Math_random (Some canvas) window firstTime))))
  = 1%nat.
Proof.
  assert (Hf : forall l, List.length (frameTimes l) = List.length (onlyFrames l)).
  { unfold onlyFrames.
    induction l as [|[u|win] l IH]; cbn; [reflexivity | now f_equal | exact IH]. }
  assert (Hff : forall l, frameTimes (onlyFrames l) = frameTimes l).
  { unfold onlyFrames.
    induction l as [|[u|win] l IH]; cbn; [reflexivity | now f_equal | exact IH]. }
  destruct (loaded_page_effects Math_random canvas window firstTime evs)
    as (_ & Hrender & Hrequest & Hlistener).
  unfold iterations in Hrender, Hrequest. rewrite Hf in Hrender, Hrequest.
  rewrite DOMContentLoaded_spec, !host_run_loaded in *.
  cbn [randomCalls effects] in *. rewrite Hff.
  repeat split; assumption.
Qed.

(** * Properties of the DOM animations *)

(** ** Class lists *)

Lemma classList_contains_In (token : string) (classList : list string) :
  classList_contains token classList = true <-> In token classList.
Proof.
  unfold classList_contains. rewrite existsb_exists. split.
  - intros (t & Ht & E). apply String.eqb_eq in E. subst t. exact Ht.
  - intros H. exists token. split; [exact H | apply String.eqb_refl].
Qed.

Lemma In_classList_add (token t : string) (classList : list string) :
  In t (classList_add token classList) <-> t = token \/ In t classList.
Proof.
  unfold classList_add.
  destruct (classList_contains token classList) eqn:E.
  - apply classList_contains_In in E. split; [auto|].
    intros [->|H]; assumption.
  - rewrite in_app_iff. cbn. split.
    + intros [H|[H|[]]]; auto.
    + intros [H|H]; auto.
Qed.

Lemma In_classList_remove (token t : string) (classList : list string) :
  In t (classList_remove token classList) <-> t <> token /\ In t classList.
Proof.
  unfold classList_remove. rewrite filter_In, negb_true_iff, String.eqb_neq.
  split; intros [H1 H2]; split; auto.
Qed.

Lemma In_classList_toggle (token t : string) (classList : list string) :
  In t (classList_toggle token classList) <->
  (t = token /\ ~ In token classList) \/ (t <> token /\ In t classList).
Proof.
  unfold classList_toggle.
  destruct (classList_contains token classList) eqn:E.
  - apply classList_contains_In in E. rewrite In_classList_remove.
    split; [auto|]. intros [[_ H]|H]; [contradiction | exact H].
  - assert (N : ~ In token classList).
    { intros H. apply classList_contains_In in H. congruence. }
    rewrite in_app_iff. cbn. split.
    + intros [H|[H|[]]].
      * right. split; [|exact H]. intros ->. contradiction.
      * left. split; [auto | exact N].
    + intros [[-> _]|[_ H]]; auto.
Qed.

Lemma NoDup_classList_add (token : string) (classList : list string) :
  NoDup classList -> NoDup (classList_add token classList).
Proof.
  intros H. unfold classList_add.
  destruct (classList_contains token classList) eqn:E; [exact H|].
  apply NoDup_app; [exact H | repeat constructor; intros [] |].
  intros t Ht [<-|[]]. apply classList_contains_In in Ht. congruence.
Qed.

Lemma NoDup_classList_remove (token : string) (classList : list string) :
  NoDup classList -> NoDup (classList_remove token classList).
Proof. apply NoDup_filter. Qed.

Lemma NoDup_classList_toggle (token : string) (classList : list string) :
  NoDup classList -> NoDup (classList_toggle token classList).
Proof.
  intros H. unfold classList_toggle.
  destruct (classList_contains token classList) eqn:E.
  - apply NoDup_classList_remove, H.
  - pose proof (NoDup_classList_add token classList H) as H'.
    unfold classList_add in H'. rewrite E in H'. exact H'.
Qed.

Lemma runDom_snoc
    (StringToNumber : string -> Number)
    (evs : list DomEvent) (ev : DomEvent) (p : DomPage) :
  runDom StringToNumber (evs ++ [ev]) p
  = dispatchDom StringToNumber (runDom StringToNumber evs p) ev.
Proof. unfold runDom. rewrite fold_left_app. reflexivity. Qed.

(** ** The navbar *)

Lemma sameBut_refl (token : string) (a : list string) : sameBut token a a.
Proof. intros t _. reflexivity. Qed.

Lemma sameBut_trans (token : string) (a b c : list string) :
  sameBut token a b -> sameBut token b c -> sameBut token a c.
Proof. intros H1 H2 t Ht. rewrite (H1 t Ht). apply H2, Ht. Qed.

Lemma scrollHandler_spec (scrollY : R) (classList : list string) :
  (In "scrolled" (scrollHandler scrollY classList) <-> 50 < scrollY) /\
  sameBut "scrolled" (scrollHandler scrollY classList) classList /\
  (NoDup classList -> NoDup (scrollHandler scrollY classList)).
Proof.
  unfold scrollHandler. destruct (Rlt_dec 50 scrollY) as [H|H].
  - split; [|split].
    + rewrite In_classList_add. split; auto.
    + intros t Ht. rewrite In_classList_add. split; [intros [E|I]|]; auto.
      contradiction.
    + apply NoDup_classList_add.
  - split; [|split].
    + rewrite In_classList_remove. split; [intros [N _]|intros L]; [|contradiction].
      contradiction N. reflexivity.
    + intros t Ht. rewrite In_classList_remove. split; [intros [_ I]|]; auto.
    + apply NoDup_classList_remove.
Qed.

Lemma navbar_runDom
    (StringToNumber : string -> Number)
    (evs : list DomEvent) (p : DomPage) (classList : list string) :
  navbar p = Some classList ->
  exists classList',
    navbar (runDom StringToNumber evs p) = Some classList' /\
    sameBut "scrolled" classList' classList /\
    (NoDup classList -> NoDup classList') /\
    uncaughtErrors (runDom StringToNumber evs p) = uncaughtErrors p.
Proof.
  revert p. induction evs as [|ev evs IH] using rev_ind; intros p Hp.
  - exists classList. split; [exact Hp|]. split; [apply sameBut_refl|].
    split; auto.
  - destruct (IH p Hp) as (cl & Hcl & Hsame & Hnd & Herr).
    rewrite runDom_snoc.
    destruct ev as [scrollY| |i|entries|i j]; cbn [dispatchDom].
    + rewrite Hcl. cbn [navbar uncaughtErrors].
      destruct (scrollHandler_spec scrollY cl) as (_ & Hs & Hn).
      eexists. split; [reflexivity|]. split; [|split]; auto.
      eapply sameBut_trans; eassumption.
    + destruct (toggleListener _); cbn [navbar uncaughtErrors]; eauto 6.
    + destruct (_ <? _)%nat; cbn [navbar uncaughtErrors]; eauto 6.
    + cbn [navbar uncaughtErrors]. eauto 6.
    + cbn [navbar uncaughtErrors]. eauto 6.
Qed.

(** When [.navbar] exists, after a scroll event, whatever happened before
    it, the navbar has the class [scrolled] if and only if [scrollY]
    exceeds 50; its other classes are those it was loaded with, no class
    is ever duplicated, and no listener has thrown. *)
Theorem navbar_follows_scroll
    (StringToNumber : string -> Number) (doc : Document)
    (classList : list string) (evs : list DomEvent) (scrollY : R) :
  doc_navbar doc = Some classList ->
  exists classList',
    navbar (runDom StringToNumber (evs ++ [Scroll scrollY])
              (initDOMAnimations doc)) = Some classList' /\
    (In "scrolled" classList' <-> 50 < scrollY) /\
    sameBut "scrolled" classList' classList /\
    (NoDup classList -> NoDup classList') /\
    uncaughtErrors (runDom StringToNumber (evs ++ [Scroll scrollY])
                      (initDOMAnimations doc)) = 0%nat.
Proof.
  intros Hdoc.
  assert (Hp : navbar (initDOMAnimations doc) = Some classList).
  { unfold initDOMAnimations. destruct (populateServices _ _). exact Hdoc. }
  destruct (navbar_runDom StringToNumber evs _ _ Hp)
    as (cl & Hcl & Hsame & Hnd & Herr).
  rewrite runDom_snoc. cbn [dispatchDom]. rewrite Hcl.
  cbn [navbar uncaughtErrors].
  destruct (scrollHandler_spec scrollY cl) as (Hin & Hs & Hn).
  eexists. split; [reflexivity|]. split; [exact Hin|].
  split; [eapply sameBut_trans; eassumption|]. split; [auto|].
  rewrite Herr. unfold initDOMAnimations. destruct (populateServices _ _).
  reflexivity.
Qed.

(** When [.navbar] is missing the scroll listener is registered all the
    same, and every scroll event makes it throw: after any events the
    number of uncaught errors is the number of scroll events. *)
Theorem scroll_without_navbar_throws
    (StringToNumber : string -> Number) (doc : Document)
    (evs : list DomEvent) :
  doc_navbar doc = None ->
  navbar (runDom StringToNumber evs (initDOMAnimations doc)) = None /\
  uncaughtErrors (runDom StringToNumber evs (initDOMAnimations doc))
  = scrollCount evs.
Proof.
  intros Hdoc.
  assert (Hp : navbar (initDOMAnimations doc) = None /\
               uncaughtErrors (initDOMAnimations doc) = 0%nat).
  { unfold initDOMAnimations. destruct (populateServices _ _). auto. }
  destruct Hp as [Hn He].
  induction evs as [|ev evs [IHn IHe]] using rev_ind.
  - split; [exact Hn | exact He].
  - rewrite runDom_snoc. unfold scrollCount in *.
    rewrite filter_app, length_app.
    destruct ev as [scrollY| |i|entries|i j]; cbn [dispatchDom filter List.length].
    + rewrite IHn. cbn [navbar uncaughtErrors]. split; [reflexivity|]. lia.
    + destruct (toggleListener _); cbn [navbar uncaughtErrors];
        (split; [assumption | lia]).
    + destruct (_ <? _)%nat; cbn [navbar uncaughtErrors];
        (split; [assumption | lia]).
    + cbn [navbar uncaughtErrors]. split; [assumption | lia].
    + cbn [navbar uncaughtErrors]. split; [assumption | lia].
Qed.

(** ** The mobile menu *)

Lemma initDOMAnimations_menu (doc : Document) :
  navLinks (initDOMAnimations doc) = doc_navLinks doc /\
  toggleListener (initDOMAnimations doc)
  = match doc_navLinks doc with
    | Some _ => doc_menuToggle doc
    | None => false
    end /\
  anchorListeners (initDOMAnimations doc)
  = if match doc_navLinks doc with
       | Some _ => doc_menuToggle doc
       | None => false
       end
    then doc_anchors doc else 0%nat.
Proof.
  unfold initDOMAnimations. destruct (populateServices _ _). repeat split.
Qed.

Lemma menu_runDom
    (StringToNumber : string -> Number)
    (evs : list DomEvent) (p : DomPage) (classList : list string) :
  navLinks p = Some classList ->
  exists classList',
    navLinks (runDom StringToNumber evs p) = Some classList' /\
    sameBut "active" classList' classList /\
    (NoDup classList -> NoDup classList') /\
    toggleListener (runDom StringToNumber evs p) = toggleListener p /\
    anchorListeners (runDom StringToNumber evs p) = anchorListeners p.
Proof.
  revert p. induction evs as [|ev evs IH] using rev_ind; intros p Hp.
  - exists classList. split; [exact Hp|]. split; [apply sameBut_refl|].
    repeat split; auto.
  - destruct (IH p Hp) as (cl & Hcl & Hsame & Hnd & Ht & Ha).
    rewrite runDom_snoc.
    destruct ev as [scrollY| |i|entries|i j]; cbn [dispatchDom].
    + destruct (navbar _); cbn [navLinks toggleListener anchorListeners];
        eauto 7.
    + destruct (toggleListener (runDom StringToNumber evs p)) eqn:E;
        cbn [navLinks toggleListener anchorListeners]; [|rewrite E; eauto 7].
      rewrite Hcl. cbn [option_map]. eexists. split; [reflexivity|].
      split; [|split; [|split; [congruence | exact Ha]]].
      * intros t Hne. rewrite In_classList_toggle. rewrite <- (Hsame t Hne).
        split; [intros [[E' _]|[_ I]]|]; auto. contradiction.
      * intros N. apply NoDup_classList_toggle, Hnd, N.
    + destruct (_ <? _)%nat;
        cbn [navLinks toggleListener anchorListeners]; [|eauto 7].
      rewrite Hcl. cbn [option_map]. eexists. split; [reflexivity|].
      split; [|split; [|split; assumption]].
      * intros t Hne. rewrite In_classList_remove. rewrite <- (Hsame t Hne).
        split; [intros [_ I]|]; auto.
      * intros N. apply NoDup_classList_remove, Hnd, N.
    + cbn [navLinks toggleListener anchorListeners]. eauto 7.
    + cbn [navLinks toggleListener anchorListeners]. eauto 7.
Qed.

(** When both [.mobile-menu-toggle] and [.nav-links] exist: whatever
    happened before, a click on the toggle flips the class [active] of the
    links, a second click flips it back, and a click on any of the links
    leaves the menu without [active]; the other classes of the links are
    never touched. *)
Theorem menu_clicks
    (StringToNumber : string -> Number) (doc : Document)
    (classList : list string) (evs : list DomEvent) :
  doc_menuToggle doc = true ->
  doc_navLinks doc = Some classList ->
  exists before once twice,
    navLinks (runDom StringToNumber evs (initDOMAnimations doc))
      = Some before /\
    navLinks (runDom StringToNumber (evs ++ [ClickMenuToggle])
                (initDOMAnimations doc)) = Some once /\
    navLinks (runDom StringToNumber (evs ++ [ClickMenuToggle; ClickMenuToggle])
                (initDOMAnimations doc)) = Some twice /\
    sameBut "active" before classList /\
    sameBut "active" once classList /\
    (In "active" once <-> ~ In "active" before) /\
    (forall t, In t twice <-> In t before) /\
    (forall i, (i < doc_anchors doc)%nat ->
       exists closed,
         navLinks (runDom StringToNumber (evs ++ [ClickNavLink i])
                     (initDOMAnimations doc)) = Some closed /\
         ~ In "active" closed /\
         sameBut "active" closed classList).
Proof.
  intros Htoggle Hlinks.
  destruct (initDOMAnimations_menu doc) as (Hn & Ht & Ha).
  rewrite Hlinks, Htoggle in Ht, Ha. rewrite Hlinks in Hn.
  destruct (menu_runDom StringToNumber evs _ _ Hn)
    as (before & Hb & Hsame & _ & Ht' & Ha').
  rewrite Ht in Ht'. rewrite Ha in Ha'.
  exists before, (classList_toggle "active" before),
         (classList_toggle "active" (classList_toggle "active" before)).
  assert (H1 : runDom StringToNumber (evs ++ [ClickMenuToggle])
                 (initDOMAnimations doc)
               = dispatchDom StringToNumber
                   (runDom StringToNumber evs (initDOMAnimations doc))
                   ClickMenuToggle) by apply runDom_snoc.
  assert (H2 : runDom StringToNumber (evs ++ [ClickMenuToggle; ClickMenuToggle])
                 (initDOMAnimations doc)
               = dispatchDom StringToNumber
                   (runDom StringToNumber (evs ++ [ClickMenuToggle])
                      (initDOMAnimations doc))
                   ClickMenuToggle).
  { change [ClickMenuToggle; ClickMenuToggle]
      with ([ClickMenuToggle] ++ [ClickMenuToggle]).
    rewrite app_assoc. apply runDom_snoc. }
  assert (Honce : navLinks (runDom StringToNumber (evs ++ [ClickMenuToggle])
                              (initDOMAnimations doc))
                  = Some (classList_toggle "active" before) /\
                  toggleListener (runDom StringToNumber (evs ++ [ClickMenuToggle])
                                    (initDOMAnimations doc)) = true).
  { rewrite H1. cbn [dispatchDom]. rewrite Ht'.
    cbn [navLinks toggleListener]. rewrite Hb. auto. }
  destruct Honce as [Honce Honce'].
  split; [exact Hb|]. split; [exact Honce|]. split.
  { rewrite H2. cbn [dispatchDom]. rewrite Honce'. cbn [navLinks].
    rewrite Honce. reflexivity. }
  split; [exact Hsame|]. split.
  { intros t Hne. rewrite In_classList_toggle. rewrite <- (Hsame t Hne).
    split; [intros [[E' _]|[_ I]]|]; auto. contradiction. }
  split.
  { rewrite In_classList_toggle. split.
    - intros [[_ N]|[N _]]; [exact N | contradiction N; reflexivity].
    - intros N. left. split; [reflexivity | exact N]. }
  split.
  { intros t. rewrite !In_classList_toggle.
    destruct (string_dec t "active") as [->|Hne].
    - split.
      + intros [[_ N]|[N _]]; [|contradiction N; reflexivity].
        destruct (in_dec string_dec "active" before) as [I|I]; [exact I|].
        contradiction N. left. split; [reflexivity | exact I].
      + intros I. left. split; [reflexivity|].
        intros [[_ N]|[N _]]; [contradiction | contradiction N; reflexivity].
    - split.
      + intros [[E _]|[_ [[E _]|[_ I]]]]; try contradiction. exact I.
      + intros I. right. split; [exact Hne|]. right. split; assumption. }
  intros i Hi. exists (classList_remove "active" before).
  rewrite runDom_snoc. cbn [dispatchDom]. rewrite Ha'.
  apply Nat.ltb_lt in Hi. rewrite Hi. cbn [navLinks]. rewrite Hb.
  split; [reflexivity|]. split.
  - rewrite In_classList_remove. intros [N _]. contradiction N. reflexivity.
  - intros t Hne. rewrite In_classList_remove. rewrite <- (Hsame t Hne).
    split; [intros [_ I]|]; auto.
Qed.

(** When [.mobile-menu-toggle] or [.nav-links] is missing no click
    listener is registered, neither on the toggle nor on the links: no
    event changes the classes of the links, if there are any. *)
Theorem menu_needs_both_elements
    (StringToNumber : string -> Number) (doc : Document)
    (evs : list DomEvent) :
  doc_menuToggle doc = false \/ doc_navLinks doc = None ->
  navLinks (runDom StringToNumber evs (initDOMAnimations doc))
    = doc_navLinks doc /\
  toggleListener (runDom StringToNumber evs (initDOMAnimations doc)) = false /\
  anchorListeners (runDom StringToNumber evs (initDOMAnimations doc)) = 0%nat.
Proof.
  intros Hmissing.
  destruct (initDOMAnimations_menu doc) as (Hn & Ht & Ha).
  assert (Hoff : toggleListener (initDOMAnimations doc) = false).
  { rewrite Ht. destruct Hmissing as [-> | ->]; [|reflexivity].
    destruct (doc_navLinks doc); reflexivity. }
  assert (Hnone : anchorListeners (initDOMAnimations doc) = 0%nat).
  { rewrite Ha, <- Ht, Hoff. reflexivity. }
  rewrite <- Hn. clear Hn Ht Ha Hmissing.
  induction evs as [|ev evs (IHn & IHt & IHa)] using rev_ind.
  - auto.
  - rewrite runDom_snoc.
    destruct ev as [scrollY| |i|entries|i j]; cbn [dispatchDom].
    + destruct (navbar _); cbn [navLinks toggleListener anchorListeners]; auto.
    + rewrite IHt. auto.
    + rewrite IHa. cbn [Nat.ltb Nat.leb]. auto.
    + cbn [navLinks toggleListener anchorListeners]. auto.
    + cbn [navLinks toggleListener anchorListeners]. auto.
Qed.

(** ** The counters *)

Lemma Number_divide_50 (r : R) :
  Number_divide (Finite r) (Finite 50) = Finite (r / 50).
Proof.
  unfold Number_divide. destruct (Req_dec_T 50 0) as [E|_]; [lra | reflexivity].
Qed.

Lemma intervalCallback_counting (el : Stat) (target current increment : R) :
  stat_timers el
  = [mkTimer (Finite target) (Finite current) (Finite increment) true] ->
  intervalCallback 0 el
  = if Rle_dec target (current + increment)
    then mkStat (data_target el) (stat_observed el) (Written (Finite target))
           [mkTimer (Finite target) (Finite (current + increment))
                    (Finite increment) false]
    else mkStat (data_target el) (stat_observed el)
           (Written (Finite (IZR (Zceil (current + increment)))))
           [mkTimer (Finite target) (Finite (current + increment))
                    (Finite increment) true].
Proof.
  intros H. unfold intervalCallback. rewrite H.
  cbn [nth_error timer_set timer_current timer_increment timer_target
       Number_add Number_ge Math_ceil updateAt].
  destruct (Rle_dec target (current + increment)); reflexivity.
Qed.

(** Once its interval is cleared a timer is never heard of again. *)
Lemma intervalCallback_cleared (el : Stat) (t : Timer) (k : nat) :
  stat_timers el = [t] -> timer_set t = false ->
  Nat.iter k (intervalCallback 0) el = el.
Proof.
  intros Ht Hc. induction k as [|k IH]; [reflexivity|].
  rewrite Nat.iter_succ, IH. unfold intervalCallback.
  rewrite Ht. cbn [nth_error]. rewrite Hc. reflexivity.
Qed.

Lemma counting_up (el : Stat) (r : R) (k : nat) :
  stat_timers el = [] -> 0 < r -> (k < 50)%nat ->
  Nat.iter (S k) (intervalCallback 0) (animateCounter (Finite r) el)
  = if (S k <? 50)%nat
    then mkStat (data_target el) (stat_observed el)
           (Written (Finite (IZR (Zceil (INR (S k) * (r / 50))))))
           [mkTimer (Finite r) (Finite (INR (S k) * (r / 50)))
                    (Finite (r / 50)) true]
    else mkStat (data_target el) (stat_observed el)
           (Written (Finite r))
           [mkTimer (Finite r) (Finite (INR (S k) * (r / 50)))
                    (Finite (r / 50)) false].
Proof.
  intros Hel Hr. induction k as [|k IH]; intros Hk.
  - cbn [Nat.iter nat_rect]. 
    rewrite (intervalCallback_counting _ r 0 (r / 50)).
    + cbn [animateCounter data_target stat_observed Nat.ltb Nat.leb].
      destruct (Rle_dec r (0 + r / 50)); [lra|].
      replace (0 + r / 50) with (INR 1 * (r / 50)) by (cbn; lra).
      reflexivity.
    + unfold animateCounter. cbn [stat_timers]. rewrite Hel, Number_divide_50.
      reflexivity.
  - rewrite Nat.iter_succ, IH by lia.
    assert (Hlt : (S k <? 50)%nat = true) by (apply Nat.ltb_lt; lia).
    rewrite Hlt.
    rewrite (intervalCallback_counting _ r (INR (S k) * (r / 50)) (r / 50))
      by reflexivity.
    cbn [data_target stat_observed].
    assert (E : INR (S k) * (r / 50) + r / 50 = INR (S (S k)) * (r / 50)).
    { rewrite (S_INR (S k)). ring. }
    rewrite E.
    assert (Hb : 0 <= INR (S (S k)) <= 50).
    { split; [apply pos_INR|]. replace 50 with (INR 50).
      - apply le_INR. lia.
      - rewrite INR_IZR_INZ. reflexivity. }
    destruct (Rle_dec r (INR (S (S k)) * (r / 50))) as [Hle|Hnle];
      destruct (S (S k) <? 50)%nat eqn:Hlt'; try reflexivity.
    + apply Nat.ltb_lt in Hlt'. exfalso.
      assert (INR (S (S k)) <= 49).
      { replace 49 with (INR 49) by (rewrite INR_IZR_INZ; reflexivity).
        apply le_INR. lia. }
      nra.
    + apply Nat.ltb_ge in Hlt'. exfalso. apply Hnle.
      assert (S (S k) = 50%nat) by lia.
      assert (INR (S (S k)) = 50).
      { rewrite H. rewrite INR_IZR_INZ. reflexivity. }
      rewrite H0. lra.
Qed.

Lemma counter_text_after (el : Stat) (target : R) (k : nat) :
  stat_timers el = [] -> 0 < target -> (0 < k)%nat ->
  stat_text (Nat.iter k (intervalCallback 0)
               (animateCounter (Finite target) el))
  = if (k <? 50)%nat
    then Written (Finite (IZR (Zceil (INR k * (target / 50)))))
    else Written (Finite target).
Proof.
  intros Hel Hr Hk.
  destruct (Nat.lt_ge_cases k 50) as [Hsmall|Hbig].
  - destruct k as [|k]; [lia|].
    rewrite (counting_up el target k Hel Hr) by lia.
    destruct (S k <? 50)%nat; reflexivity.
  - assert (Hge : (k <? 50)%nat = false) by (apply Nat.ltb_ge; lia).
    rewrite Hge.
    pose proof (Nat.iter_add (k - 50) 50 _ (intervalCallback 0)
                  (animateCounter (Finite target) el)) as Hadd.
    replace (k - 50 + 50)%nat with k in Hadd by lia.
    rewrite Hadd, (counting_up el target 49 Hel Hr) by lia.
    change (50 <? 50)%nat with false. cbv iota.
    erewrite intervalCallback_cleared; reflexivity.
Qed.

Lemma Zceil_IZR (n : Z) : Zceil (IZR n) = n.
Proof. apply Zceil_eq. lra. Qed.

Lemma Zceil_positive (v : R) : 0 < v -> (1 <= Zceil v)%Z.
Proof.
  intros Hv. pose proof (Zceil_bound v) as [_ Hb].
  assert (0 < IZR (Zceil v)) by lra.
  apply lt_IZR in H. lia.
Qed.

(** The integer a counter with an integer [target > 0] shows after its
    [k]-th firing. *)
Lemma counter_shows_integer (el : Stat) (target : Z) (k : nat) :
  stat_timers el = [] -> (0 < target)%Z -> (0 < k)%nat ->
  exists m : Z,
    stat_text (Nat.iter k (intervalCallback 0)
                 (animateCounter (Finite (IZR target)) el))
    = Written (Finite (IZR m)) /\
    m = (if (k <? 50)%nat then Zceil (INR k * (IZR target / 50)) else target).
Proof.
  intros Hel Ht Hk. apply IZR_lt in Ht.
  rewrite (counter_text_after el (IZR target) k Hel Ht Hk).
  destruct (k <? 50)%nat; eexists; split; reflexivity.
Qed.

(** For an integer [target > 0] the number shown never decreases from one
    firing to the next, is at least 1 and never exceeds [target]. *)
Theorem counter_climbs_to_integer_target
    (el : Stat) (target : Z) (k : nat) :
  stat_timers el = [] ->
  (0 < target)%Z ->
  (0 < k)%nat ->
  exists m m' : Z,
    stat_text (Nat.iter k (intervalCallback 0)
                 (animateCounter (Finite (IZR target)) el))
    = Written (Finite (IZR m)) /\
    stat_text (Nat.iter (S k) (intervalCallback 0)
                 (animateCounter (Finite (IZR target)) el))
    = Written (Finite (IZR m')) /\
    (1 <= m <= m')%Z /\ (m' <= target)%Z.
Proof.
  intros Hel Ht Hk.
  destruct (counter_shows_integer el target k Hel Ht Hk) as (m & Hm & Em).
  destruct (counter_shows_integer el target (S k) Hel Ht) as (m' & Hm' & Em');
    [lia|].
  exists m, m'. split; [exact Hm|]. split; [exact Hm'|].
  pose proof (IZR_lt _ _ Ht) as Htr.
  assert (Hpos : forall j : nat, (0 < j)%nat -> 0 < INR j * (IZR target / 50)).
  { intros j Hj. apply lt_0_INR in Hj. nra. }
  assert (Hle : forall j : nat, (j <= 50)%nat ->
                  INR j * (IZR target / 50) <= IZR target).
  { intros j Hj. apply le_INR in Hj.
    replace (INR 50) with 50 in Hj by (rewrite INR_IZR_INZ; reflexivity).
    nra. }
  assert (Hcap : forall j : nat, (j <= 50)%nat ->
                   (Zceil (INR j * (IZR target / 50)) <= target)%Z).
  { intros j Hj. rewrite <- (Zceil_IZR target) at 2.
    apply Zceil_le, Hle, Hj. }
  assert (Hstep : INR k * (IZR target / 50) <= INR (S k) * (IZR target / 50)).
  { rewrite S_INR. nra. }
  subst m m'.
  destruct (Nat.ltb_spec k 50) as [E1|E1];
    destruct (Nat.ltb_spec (S k) 50) as [E2|E2]; try lia.
  - split; [split|].
    + apply Zceil_positive, Hpos, Hk.
    + apply Zceil_le, Hstep.
    + apply Hcap. lia.
  - split; [split|]; [apply Zceil_positive, Hpos, Hk | apply Hcap; lia | lia].
Qed.

(** A counter whose finite [target] is at most 0, or whose [target] is
    infinite, writes [target] at its first firing and clears its interval
    there and then; such is the counter of an element without
    [data-target], whose [target] is [+null], 0. *)
Theorem counter_done_at_first_firing
    (StringToNumber : string -> Number)
    (el : Stat) (target : Number) (k : nat) :
  stat_timers el = [] ->
  (forall r, target = Finite r -> r <= 0) ->
  target <> NaN ->
  (0 < k)%nat ->
  (exists t,
     stat_timers (Nat.iter k (intervalCallback 0) (animateCounter target el))
       = [t] /\
     timer_set t = false /\
     stat_text (Nat.iter k (intervalCallback 0) (animateCounter target el))
       = Written target) /\
  (data_target el = None ->
   stat_text (Nat.iter k (intervalCallback 0)
                (animateCounter (targetOf StringToNumber el) el))
   = Written (Finite 0)).
Proof.
  intros Hel Hfin Hnan Hk.
  assert (Hfirst : forall tg : Number,
             (forall r, tg = Finite r -> r <= 0) -> tg <> NaN ->
             exists t,
               intervalCallback 0 (animateCounter tg el)
               = mkStat (data_target el) (stat_observed el) (Written tg) [t] /\
               timer_set t = false).
  { intros tg Hf Hn. unfold intervalCallback, animateCounter.
    cbn [stat_timers]. rewrite Hel.
    cbn [app nth_error timer_set timer_current timer_increment timer_target
         data_target stat_observed updateAt].
    destruct tg as [r| | |]; [| | |contradiction Hn; reflexivity].
    - rewrite Number_divide_50. cbn [Number_add Number_ge].
      pose proof (Hf r eq_refl).
      destruct (Rle_dec r (0 + r / 50)) as [_|N]; [|exfalso; apply N; lra].
      eexists. split; reflexivity.
    - cbn. unfold negative. destruct (Rlt_dec 50 0); [lra|].
      cbn. eexists. split; reflexivity.
    - cbn. unfold negative. destruct (Rlt_dec 50 0); [lra|].
      cbn. eexists. split; reflexivity. }
  assert (Hall : forall tg : Number,
             (forall r, tg = Finite r -> r <= 0) -> tg <> NaN ->
             exists t,
               Nat.iter k (intervalCallback 0) (animateCounter tg el)
               = mkStat (data_target el) (stat_observed el) (Written tg) [t] /\
               timer_set t = false).
  { intros tg Hf Hn. destruct (Hfirst tg Hf Hn) as (t & Ht & Hc).
    exists t. split; [|exact Hc].
    destruct k as [|k]; [lia|].
    pose proof (Nat.iter_add k 1 _ (intervalCallback 0)
                  (animateCounter tg el)) as Hadd.
    replace (k + 1)%nat with (S k) in Hadd by lia.
    rewrite Hadd. cbn [Nat.iter nat_rect]. rewrite Ht.
    apply (intervalCallback_cleared _ t); [reflexivity | exact Hc]. }
  split.
  - destruct (Hall target Hfin Hnan) as (t & Ht & Hc).
    exists t. rewrite Ht. repeat split. exact Hc.
  - intros Hmissing. unfold targetOf. rewrite Hmissing.
    destruct (Hall (Finite 0)) as (t & Ht & Hc).
    + intros r E. injection E as <-. lra.
    + discriminate.
    + rewrite Ht. reflexivity.
Qed.

(** A counter whose [target] is [NaN], as for a [data-target] that is
    not a number, shows [NaN] from its first firing on and never clears
    its interval. *)
Theorem counter_of_NaN_never_stops (el : Stat) (k : nat) :
  stat_timers el = [] ->
  (0 < k)%nat ->
  exists t,
    stat_timers (Nat.iter k (intervalCallback 0) (animateCounter NaN el))
      = [t] /\
    timer_set t = true /\
    stat_text (Nat.iter k (intervalCallback 0) (animateCounter NaN el))
      = Written NaN.
Proof.
  intros Hel Hk. exists (mkTimer NaN NaN NaN true).
  assert (H : Nat.iter k (intervalCallback 0) (animateCounter NaN el)
              = mkStat (data_target el) (stat_observed el) (Written NaN)
                  [mkTimer NaN NaN NaN true]).
  { destruct k as [|k]; [lia|]. clear Hk.
    induction k as [|k IH].
    - cbn [Nat.iter nat_rect]. unfold intervalCallback, animateCounter.
      cbn [stat_timers]. rewrite Hel. reflexivity.
    - rewrite Nat.iter_succ, IH. reflexivity. }
  rewrite H. repeat split.
Qed.

(** ** The observer *)

Lemma length_updateAt {A : Type} (i : nat) (f : A -> A) (l : list A) :
  List.length (updateAt i f l) = List.length l.
Proof.
  revert i. induction l as [|a l IH]; intros [|i]; cbn; auto.
Qed.

Lemma nth_error_updateAt_other {A : Type} (i j : nat) (f : A -> A) (l : list A) :
  i <> j -> nth_error (updateAt i f l) j = nth_error l j.
Proof.
  revert i j. induction l as [|a l IH]; intros [|i] [|j] H; cbn; auto.
  contradiction H. reflexivity.
Qed.

Lemma Forall_updateAt {A : Type} (P : A -> Prop) (i : nat) (f : A -> A) (l : list A) :
  Forall P l ->
  (forall a, nth_error l i = Some a -> P a -> P (f a)) ->
  Forall P (updateAt i f l).
Proof.
  revert i. induction l as [|a l IH]; intros [|i] Hl Hf; cbn.
  - constructor.
  - constructor.
  - inversion Hl; subst. constructor; [apply Hf; [reflexivity|assumption] | assumption].
  - inversion Hl; subst. constructor; [assumption|]. apply IH; [assumption|].
    intros b Hb. apply Hf. exact Hb.
Qed.

Lemma map_updateAt_fixed {A B : Type} (g : A -> B) (i : nat) (f : A -> A) (l : list A) :
  (forall a, g (f a) = g a) -> map g (updateAt i f l) = map g l.
Proof.
  intros Hg. revert i. induction l as [|a l IH]; intros [|i]; cbn;
    rewrite ?Hg, ?IH; reflexivity.
Qed.

Lemma intervalCallback_data_target (j : nat) (el : Stat) :
  data_target (intervalCallback j el) = data_target el.
Proof.
  unfold intervalCallback. destruct (nth_error _ _) as [t|]; [|reflexivity].
  destruct (timer_set t); [|reflexivity].
  destruct (Number_ge _ _); reflexivity.
Qed.

Lemma intervalCallback_animatedOnce
    (StringToNumber : string -> Number) (j : nat) (el : Stat) :
  animatedOnce StringToNumber el ->
  animatedOnce StringToNumber (intervalCallback j el).
Proof.
  intros [[Ho Ht]|(Ho & t & Ht & Htg)].
  - unfold intervalCallback. rewrite Ht. destruct j; cbn; left; auto.
  - unfold intervalCallback. rewrite Ht.
    destruct j as [|j]; cbn [nth_error].
    + destruct (timer_set t); [|right; eauto].
      destruct (Number_ge _ _); right; cbn [stat_observed stat_timers updateAt];
        (split; [exact Ho|]); eexists; (split; [reflexivity|]);
        cbn [timer_target]; exact Htg.
    + destruct j; cbn; right; eauto.
Qed.

Lemma observerCallback_data_target
    (StringToNumber : string -> Number) (entries : list Entry) (l : list Stat) :
  map data_target (observerCallback StringToNumber entries l)
  = map data_target l.
Proof.
  unfold observerCallback. revert l.
  induction entries as [|e entries IH]; intros l; [reflexivity|].
  cbn [fold_left]. rewrite IH.
  destruct (isIntersecting e); [|reflexivity].
  apply map_updateAt_fixed. reflexivity.
Qed.

Lemma observerCallback_animatedOnce
    (StringToNumber : string -> Number) (entries : list Entry) (l : list Stat) :
  Forall (animatedOnce StringToNumber) l ->
  batchOK l entries ->
  Forall (animatedOnce StringToNumber)
         (observerCallback StringToNumber entries l).
Proof.
  unfold observerCallback. revert l.
  induction entries as [|e entries IH]; intros l Hl [Hnd Hobs]; [exact Hl|].
  cbn [fold_left]. cbn [map] in Hnd.
  inversion Hnd as [|i rest Hnotin Hnd']; subst.
  inversion Hobs as [|e' rest' (el & Hel & Helo) Hobs']; subst.
  destruct (isIntersecting e).
  - apply IH.
    + apply Forall_updateAt; [exact Hl|].
      intros a Ha Hok. rewrite Hel in Ha. injection Ha as <-.
      destruct Hok as [[_ Ht]|[Ho _]]; [|congruence].
      right. cbn [unobserve animateCounter stat_observed stat_timers].
      split; [reflexivity|]. rewrite Ht. eexists. split; reflexivity.
    + split; [exact Hnd'|].
      rewrite Forall_forall in Hobs' |- *.
      intros e2 He2. destruct (Hobs' e2 He2) as (el2 & Hel2 & Ho2).
      exists el2. split; [|exact Ho2].
      rewrite nth_error_updateAt_other; [exact Hel2|].
      intros E. apply Hnotin. rewrite E. apply in_map. exact He2.
  - apply IH; [exact Hl|]. split; assumption.
Qed.

Lemma stats_runDom
    (StringToNumber : string -> Number) (evs : list DomEvent) (p : DomPage) :
  Forall (animatedOnce StringToNumber) (stats p) ->
  platformOK StringToNumber p evs ->
  Forall (animatedOnce StringToNumber) (stats (runDom StringToNumber evs p)) /\
  map data_target (stats (runDom StringToNumber evs p))
  = map data_target (stats p).
Proof.
  revert p. induction evs as [|ev evs IH]; intros p Hp Hok; [auto|].
  cbn [platformOK] in Hok. destruct Hok as [Hev Hok].
  change (runDom StringToNumber (ev :: evs) p)
    with (runDom StringToNumber evs (dispatchDom StringToNumber p ev)).
  assert (Hstep : Forall (animatedOnce StringToNumber)
                    (stats (dispatchDom StringToNumber p ev)) /\
                  map data_target (stats (dispatchDom StringToNumber p ev))
                  = map data_target (stats p)).
  { destruct ev as [scrollY| |i|entries|i j]; cbn [dispatchDom].
    - destruct (navbar p); auto.
    - destruct (toggleListener p); auto.
    - destruct (_ <? _)%nat; auto.
    - cbn [stats]. split.
      + apply observerCallback_animatedOnce; assumption.
      + apply observerCallback_data_target.
    - cbn [stats]. split.
      + apply Forall_updateAt; [exact Hp|].
        intros a _. apply intervalCallback_animatedOnce.
      + apply map_updateAt_fixed, intervalCallback_data_target. }
  destruct Hstep as [H1 H2].
  destruct (IH _ H1 Hok) as [H3 H4]. split; [exact H3|].
  rewrite H4. exact H2.
Qed.

(** As long as the browser reports, in one batch, only elements that are
    observed and none of them twice, no [.stat-number] ever gets a second
    counter: after any events an element has at most one timer, an
    element with a timer is no longer observed, its timer counts to the
    number its [data-target] converts to, and an element that is still
    observed has none.  The elements and their attributes stay those of
    the document. *)
Theorem counter_started_at_most_once
    (StringToNumber : string -> Number) (doc : Document)
    (evs : list DomEvent) :
  platformOK StringToNumber (initDOMAnimations doc) evs ->
  map data_target (stats (runDom StringToNumber evs (initDOMAnimations doc)))
  = doc_stats doc /\
  Forall (fun el =>
            (List.length (stat_timers el) <= 1)%nat /\
            (stat_observed el = true -> stat_timers el = []) /\
            (forall t, In t (stat_timers el) ->
               stat_observed el = false /\
               timer_target t = targetOf StringToNumber el))
         (stats (runDom StringToNumber evs (initDOMAnimations doc))).
Proof.
  intros Hok.
  assert (Hinit : stats (initDOMAnimations doc)
                  = map (fun attribute =>
                           observe (mkStat attribute false Markup []))
                        (doc_stats doc)).
  { unfold initDOMAnimations. destruct (populateServices _ _). reflexivity. }
  destruct (stats_runDom StringToNumber evs (initDOMAnimations doc))
    as [Hall Hdata]; [|exact Hok|].
  { rewrite Hinit. apply Forall_forall. intros el Hel.
    apply in_map_iff in Hel. destruct Hel as (a & <- & _). left. auto. }
  split.
  - rewrite Hdata, Hinit, map_map. cbn. apply map_id.
  - eapply Forall_impl; [|exact Hall].
    intros el [[Ho Ht]|(Ho & t & Ht & Htg)]; rewrite Ht; cbn.
    + split; [lia|]. split; [reflexivity|]. intros t' [].
    + split; [lia|]. split; [congruence|].
      intros t' [<-|[]]. split; [exact Ho | exact Htg].
Qed.

(** ** The service cards *)

Lemma appendCards_spec
    (todo : list Service) (index : nat)
    (children : list Card) (done : list Tween) :
  appendCards todo index children done
  = (children ++ map createCard todo,
     done ++ map (fun k =>
                    mkTween (List.length children + k) 1 0 0.8
                            (0.2 + INR (index + k) * 0.2)
                            "back.out(1.7)" "top 80%")
                 (seq 0 (List.length todo))).
Proof.
  revert index children done.
  induction todo as [|service todo IH]; intros index children done.
  - cbn. rewrite !app_nil_r. reflexivity.
  - cbn [appendCards]. rewrite IH.
    cbn [map List.length seq]. rewrite <- !app_assoc. cbn [app].
    rewrite !Nat.add_0_r. do 3 f_equal.
    rewrite <- seq_shift, map_map. apply map_ext. intros k.
    rewrite length_app. cbn [List.length].
    replace (List.length children + 1 + k)%nat
      with (List.length children + S k)%nat by lia.
    replace (S index + k)%nat with (index + S k)%nat by lia.
    reflexivity.
Qed.

(** Filling the container: whatever it held before is discarded, it ends
    with one card per service, in the order of the list, each built hidden
    ([opacity] 0, shifted down by 50px), and the card at position [i] gets
    exactly one tween, which reveals it after a delay of [0.2 + 0.2 * i]
    seconds; without a container nothing is built and no tween is made.
    So it is for the five services of the page, and no later event touches
    the cards or the tweens. *)
Theorem service_cards
    (StringToNumber : string -> Number) (doc : Document)
    (todo : list Service) (old : list Card) (evs : list DomEvent) :
  populateServices todo (Some old)
  = (Some (map createCard todo),
     map revealTween (seq 0 (List.length todo))) /\
  populateServices todo None = (None, []) /\
  servicesContainer (runDom StringToNumber evs (initDOMAnimations doc))
  = option_map (fun _ => map createCard services) (doc_servicesContainer doc) /\
  tweens (runDom StringToNumber evs (initDOMAnimations doc))
  = match doc_servicesContainer doc with
    | Some _ => map revealTween (seq 0 5)
    | None => []
    end.
Proof.
  assert (Hpop : forall l o,
             populateServices l (Some o)
             = (Some (map createCard l),
                map revealTween (seq 0 (List.length l)))).
  { intros l o. unfold populateServices. rewrite appendCards_spec.
    cbn [app List.length Nat.add]. reflexivity. }
  split; [apply Hpop|]. split; [reflexivity|].
  assert (Hkeep : forall p,
             servicesContainer (runDom StringToNumber evs p)
             = servicesContainer p /\
             tweens (runDom StringToNumber evs p) = tweens p).
  { induction evs as [|ev evs IH] using rev_ind; intros p; [auto|].
    rewrite runDom_snoc. destruct (IH p) as [IH1 IH2].
    destruct ev as [scrollY| |i|entries|i j]; cbn [dispatchDom].
    - destruct (navbar _); cbn [servicesContainer tweens]; auto.
    - destruct (toggleListener _); cbn [servicesContainer tweens]; auto.
    - destruct (_ <? _)%nat; cbn [servicesContainer tweens]; auto.
    - cbn [servicesContainer tweens]. auto.
    - cbn [servicesContainer tweens]. auto. }
  destruct (Hkeep (initDOMAnimations doc)) as [H1 H2].
  rewrite H1, H2. unfold initDOMAnimations.
  destruct (doc_servicesContainer doc) as [o|].
  - rewrite Hpop. split; reflexivity.
  - split; reflexivity.
Qed.

Lemma nth_error_updateAt_same {A : Type} (i : nat) (f : A -> A) (l : list A) :
  nth_error (updateAt i f l) i = option_map f (nth_error l i).
Proof.
  revert i. induction l as [|a l IH]; intros [|i]; cbn; auto.
Qed.

(** One batch in which no element is reported twice starts a counter on
    exactly the elements it reports as intersecting, with the number their
    [data-target] converts to as target, and stops observing them; an
    element reported as not intersecting, or not reported, is left as it
    was, still observed if it was. *)
Theorem batch_starts_the_reported_counters
    (StringToNumber : string -> Number)
    (entries : list Entry) (l : list Stat) (i : nat) :
  NoDup (map entry_target entries) ->
  (forall intersecting,
     In (mkEntry i intersecting) entries ->
     nth_error (observerCallback StringToNumber entries l) i
     = if intersecting
       then option_map
              (fun el => unobserve (animateCounter (targetOf StringToNumber el) el))
              (nth_error l i)
       else nth_error l i) /\
  (~ In i (map entry_target entries) ->
   nth_error (observerCallback StringToNumber entries l) i = nth_error l i).
Proof.
  unfold observerCallback. revert l.
  induction entries as [|e entries IH]; intros l Hnd.
  - split; [intros b []|reflexivity].
  - cbn [map] in Hnd. inversion Hnd as [|j rest Hnotin Hnd']; subst.
    cbn [fold_left]. split.
    + intros b [E|Hin].
      * subst e. cbn [entry_target isIntersecting] in *.
        destruct (IH (if b
                      then updateAt i
                             (fun el => unobserve
                                (animateCounter (targetOf StringToNumber el) el)) l
                      else l) Hnd') as [_ Hrest].
        rewrite (Hrest Hnotin).
        destruct b; [apply nth_error_updateAt_same | reflexivity].
      * assert (Hne : entry_target e <> i).
        { intros E. apply Hnotin. rewrite E.
          change i with (entry_target (mkEntry i b)). apply in_map, Hin. }
        destruct (IH (if isIntersecting e
                      then updateAt (entry_target e)
                             (fun el => unobserve
                                (animateCounter (targetOf StringToNumber el) el)) l
                      else l) Hnd') as [Hhere _].
        rewrite (Hhere b Hin).
        destruct (isIntersecting e); [|reflexivity].
        rewrite nth_error_updateAt_other by exact Hne. reflexivity.
    + intros Hout. cbn [map] in Hout.
      assert (Hne : entry_target e <> i) by (intros E; apply Hout; left; exact E).
      assert (Hout' : ~ In i (map entry_target entries))
        by (intros I; apply Hout; right; exact I).
      destruct (IH (if isIntersecting e
                    then updateAt (entry_target e)
                           (fun el => unobserve
                              (animateCounter (targetOf StringToNumber el) el)) l
                    else l) Hnd') as [_ Hrest].
      rewrite (Hrest Hout').
      destruct (isIntersecting e); [|reflexivity].
      apply nth_error_updateAt_other, Hne.
Qed.

(** ** Instances *)

Lemma navbar_follows_scroll_witness :
  doc_navbar sampleDocument = Some ["navbar"] /\
  exists classList',
    navbar (runDom sampleToNumber ([ClickMenuToggle] ++ [Scroll 80])
              (initDOMAnimations sampleDocument)) = Some classList' /\
    (In "scrolled" classList' <-> 50 < 80) /\
    sameBut "scrolled" classList' ["navbar"].
Proof.
  split; [reflexivity|].
  destruct (navbar_follows_scroll sampleToNumber sampleDocument ["navbar"]
              [ClickMenuToggle] 80 eq_refl)
    as (classList' & H1 & H2 & H3 & _).
  exists classList'. split; [exact H1|]. split; [exact H2 | exact H3].
Defined.

Lemma scroll_without_navbar_throws_witness :
  doc_navbar bareDocument = None /\
  uncaughtErrors (runDom sampleToNumber [Scroll 10; Scroll 80]
                    (initDOMAnimations bareDocument)) = 2%nat.
Proof.
  split; [reflexivity|].
  destruct (scroll_without_navbar_throws sampleToNumber bareDocument
              [Scroll 10; Scroll 80] eq_refl) as [_ H].
  rewrite H. reflexivity.
Defined.

Lemma menu_clicks_witness :
  doc_menuToggle sampleDocument = true /\
  doc_navLinks sampleDocument = Some ["nav-links"] /\
  exists before once,
    navLinks (runDom sampleToNumber [Scroll 80]
                (initDOMAnimations sampleDocument)) = Some before /\
    navLinks (runDom sampleToNumber ([Scroll 80] ++ [ClickMenuToggle])
                (initDOMAnimations sampleDocument)) = Some once /\
    (In "active" once <-> ~ In "active" before).
Proof.
  split; [reflexivity|]. split; [reflexivity|].
  destruct (menu_clicks sampleToNumber sampleDocument ["nav-links"]
              [Scroll 80] eq_refl eq_refl)
    as (before & once & twice & H1 & H2 & _ & _ & _ & H3 & _).
  exists before, once. split; [exact H1|]. split; [exact H2 | exact H3].
Defined.

Lemma menu_needs_both_elements_witness :
  (doc_menuToggle bareDocument = false \/ doc_navLinks bareDocument = None) /\
  navLinks (runDom sampleToNumber [ClickMenuToggle; ClickNavLink 0]
              (initDOMAnimations bareDocument)) = None.
Proof.
  split; [left; reflexivity|].
  apply (menu_needs_both_elements sampleToNumber bareDocument
           [ClickMenuToggle; ClickNavLink 0]).
  left. reflexivity.
Defined.

Lemma counter_climbs_to_integer_target_witness :
  stat_timers sampleStat = [] /\ (0 < 500)%Z /\ (0 < 10)%nat /\
  exists m m' : Z,
    stat_text (Nat.iter 10 (intervalCallback 0)
                 (animateCounter (Finite (IZR 500)) sampleStat))
    = Written (Finite (IZR m)) /\
    stat_text (Nat.iter 11 (intervalCallback 0)
                 (animateCounter (Finite (IZR 500)) sampleStat))
    = Written (Finite (IZR m')) /\
    (1 <= m <= m')%Z /\ (m' <= 500)%Z.
Proof.
  split; [reflexivity|]. split; [lia|]. split; [lia|].
  apply (counter_climbs_to_integer_target sampleStat 500 10 eq_refl); lia.
Defined.

Lemma zero_is_not_positive (r : R) : Finite 0 = Finite r -> r <= 0.
Proof. intros E. injection E as <-. lra. Qed.

Lemma zero_is_not_NaN : Finite 0 <> NaN.
Proof. discriminate. Qed.

Lemma counter_done_at_first_firing_witness :
  stat_timers bareStat = [] /\
  (forall r, Finite 0 = Finite r -> r <= 0) /\
  Finite 0 <> NaN /\
  (0 < 1)%nat /\
  stat_text (Nat.iter 1 (intervalCallback 0)
               (animateCounter (targetOf sampleToNumber bareStat) bareStat))
  = Written (Finite 0).
Proof.
  split; [reflexivity|]. split; [exact zero_is_not_positive|].
  split; [exact zero_is_not_NaN|]. split; [lia|].
  destruct (counter_done_at_first_firing sampleToNumber bareStat (Finite 0) 1
              eq_refl zero_is_not_positive zero_is_not_NaN) as [_ H]; [lia|].
  apply H. reflexivity.
Defined.

Lemma counter_of_NaN_never_stops_witness :
  stat_timers sampleStat = [] /\ (0 < 3)%nat /\
  exists t,
    stat_timers (Nat.iter 3 (intervalCallback 0) (animateCounter NaN sampleStat))
      = [t] /\
    timer_set t = true /\
    stat_text (Nat.iter 3 (intervalCallback 0) (animateCounter NaN sampleStat))
      = Written NaN.
Proof.
  split; [reflexivity|]. split; [lia|].
  apply (counter_of_NaN_never_stops sampleStat 3 eq_refl). lia.
Defined.

Lemma sampleDomEvents_platformOK :
  platformOK sampleToNumber (initDOMAnimations sampleDocument) sampleDomEvents.
Proof.
  unfold sampleDomEvents, initDOMAnimations, sampleDocument.
  destruct (populateServices _ _) as [children made].
  cbn [platformOK doc_stats doc_navbar doc_navLinks doc_menuToggle doc_anchors
       map dispatchDom stats].
  split; [|split; [exact I|split; [|exact I]]].
  - split.
    + repeat constructor. intros [].
    + repeat constructor. eexists. split; reflexivity.
  - split.
    + repeat constructor. intros [].
    + repeat constructor. eexists. split; reflexivity.
Qed.

Lemma batch_starts_the_reported_counters_witness :
  NoDup (map entry_target [mkEntry 0 true; mkEntry 1 false]) /\
  nth_error (observerCallback sampleToNumber
               [mkEntry 0 true; mkEntry 1 false] [sampleStat; bareStat]) 0
  = Some (unobserve (animateCounter (Finite 500) sampleStat)).
Proof.
  assert (Hnd : NoDup (map entry_target [mkEntry 0 true; mkEntry 1 false])).
  { cbn. repeat constructor; cbn; intuition discriminate. }
  split; [exact Hnd|].
  destruct (batch_starts_the_reported_counters sampleToNumber
              [mkEntry 0 true; mkEntry 1 false] [sampleStat; bareStat] 0 Hnd)
    as [H _].
  apply (H true). left. reflexivity.
Defined.

Lemma counter_started_at_most_once_witness :
  platformOK sampleToNumber (initDOMAnimations sampleDocument) sampleDomEvents /\
  map data_target
      (stats (runDom sampleToNumber sampleDomEvents
                (initDOMAnimations sampleDocument)))
  = [Some "500"; None].
Proof.
  split; [exact sampleDomEvents_platformOK|].
  apply (counter_started_at_most_once sampleToNumber sampleDocument
           sampleDomEvents sampleDomEvents_platformOK).
Defined.

(** * Rounding

    C1, C6, C7 and C8 depend on how IEEE-754 arithmetic rounds.  This
    part proves what they need of [SpecFloat]: rounding to nearest is
    monotone, so that a sum, a difference or a product with a constant
    lies between the results computed at the two ends of an interval. *)

Section Rounding.

Import IEEE754.
Local Open Scope Z_scope.

(** ** Powers of two *)

Lemma pow2_pos e : (0 < pow2 e)%R.
Proof. apply powerRZ_lt; lra. Qed.

Lemma pow2_add a b : pow2 (a + b) = (pow2 a * pow2 b)%R.
Proof. apply powerRZ_add; lra. Qed.

Lemma pow2_0 : pow2 0 = 1%R.
Proof. reflexivity. Qed.

Lemma pow2_IZR z : 0 <= z -> pow2 z = IZR (2 ^ z).
Proof.
  intros Hz. unfold pow2.
  destruct z as [|p|p]; [reflexivity| |lia].
  rewrite <- Zpower_pos_powerRZ. reflexivity.
Qed.

Lemma pow2_ge_1 z : 0 <= z -> (1 <= pow2 z)%R.
Proof.
  intros Hz. rewrite pow2_IZR by assumption. apply IZR_le.
  assert (0 < 2 ^ z) by (apply Z.pow_pos_nonneg; lia). lia.
Qed.

Lemma pow2_le a b : a <= b -> (pow2 a <= pow2 b)%R.
Proof.
  intros Hab. replace b with (a + (b - a)) by lia. rewrite pow2_add.
  pose proof (pow2_pos a). pose proof (pow2_ge_1 (b - a) ltac:(lia)). nra.
Qed.

Lemma pow2_lt a b : a < b -> (pow2 a < pow2 b)%R.
Proof.
  intros Hab. replace b with (a + 1 + (b - a - 1)) by lia. rewrite !pow2_add.
  pose proof (pow2_pos a). pose proof (pow2_ge_1 (b - a - 1) ltac:(lia)).
  replace (pow2 1) with 2%R by (unfold pow2; simpl; lra). nra.
Qed.

Lemma pow2_lt_inv a b : (pow2 a < pow2 b)%R -> a < b.
Proof.
  intros H. destruct (Z_lt_le_dec a b) as [|Hle]; [assumption|].
  apply pow2_le in Hle. lra.
Qed.

Lemma pow2_le_inv a b : (pow2 a <= pow2 b)%R -> a <= b.
Proof.
  intros H. destruct (Z_le_gt_dec a b) as [|Hgt]; [assumption|].
  assert (b < a) as Hlt by lia. apply pow2_lt in Hlt. lra.
Qed.

(** ** Binary digits *)

Lemma digits2_pos_size m : digits2_pos m = Pos.size m.
Proof. induction m; simpl; congruence. Qed.

Lemma digits_bounds m :
  2 ^ (Z.pos (digits2_pos m) - 1) <= Z.pos m < 2 ^ Z.pos (digits2_pos m).
Proof.
  rewrite digits2_pos_size. split.
  - pose proof (Pos.size_le m) as H.
    assert (2 ^ Z.pos (Pos.size m) <= 2 * Z.pos m) as H'.
    { change 2 with (Z.pos 2) at 1. rewrite <- Pos2Z.inj_pow. 
      change (2 * Z.pos m) with (Z.pos m~0). apply Pos2Z.pos_le_pos. exact H. }
    replace (Z.pos (Pos.size m)) with (Z.pos (Pos.size m) - 1 + 1) in H' by lia.
    rewrite Z.pow_add_r in H' by lia. lia.
  - pose proof (Pos.size_gt m) as H.
    change 2 with (Z.pos 2). rewrite <- Pos2Z.inj_pow. apply Pos2Z.pos_lt_pos. exact H.
Qed.

Lemma digits_unique m c :
  2 ^ (c - 1) <= Z.pos m < 2 ^ c -> Z.pos (digits2_pos m) = c.
Proof.
  intros [Hlo Hhi]. pose proof (digits_bounds m) as [Dlo Dhi].
  set (d := Z.pos (digits2_pos m)) in *.
  assert (0 < c).
  { destruct (Z_lt_le_dec 0 c); [assumption|].
    assert (2 ^ c <= 1).
    { destruct (Z.eq_dec c 0) as [->|]; [simpl; lia|]. rewrite Z.pow_neg_r by lia. lia. }
    lia. }
  assert (d - 1 < c).
  { apply (Z.pow_lt_mono_r_iff 2); lia. }
  assert (c - 1 < d).
  { apply (Z.pow_lt_mono_r_iff 2); lia. }
  lia.
Qed.

Lemma Zpow2_half k : 0 < k -> 2 ^ k = 2 * 2 ^ (k - 1).
Proof.
  intros Hk. replace k with (Z.succ (k - 1)) at 1 by lia.
  apply Z.pow_succ_r. lia.
Qed.

(** ** Round to nearest, ties to even, on integers: [RNE k m] is the
    multiple of [2^k] nearest to [m], divided by [2^k]. *)

Lemma RNE_bounds k m :
  0 <= k -> m / 2 ^ k <= RNE k m <= m / 2 ^ k + 1.
Proof.
  intros Hk. unfold RNE. destruct (Z.eqb_spec k 0) as [->|Hk0].
  - simpl. rewrite Z.div_1_r. lia.
  - destruct (_ || _); lia.
Qed.

Lemma RNE_exact k a : 0 <= k -> RNE k (a * 2 ^ k) = a.
Proof.
  intros Hk. unfold RNE. destruct (Z.eqb_spec k 0) as [->|Hk0].
  - simpl. lia.
  - assert (0 < 2 ^ k) by (apply Z.pow_pos_nonneg; lia).
    assert (0 < 2 ^ (k - 1)) by (apply Z.pow_pos_nonneg; lia).
    rewrite Z.div_mul by lia. rewrite Z.mod_mul by lia.
    destruct (Z.ltb_spec (2 ^ (k - 1)) 0); [lia|].
    destruct (Z.eqb_spec 0 (2 ^ (k - 1))); [lia|]. reflexivity.
Qed.

Lemma RNE_mono k m m' : 0 <= k -> m <= m' -> RNE k m <= RNE k m'.
Proof.
  intros Hk Hm. unfold RNE. destruct (Z.eqb_spec k 0) as [->|Hk0]; [assumption|].
  assert (0 < 2 ^ k) as Hp by (apply Z.pow_pos_nonneg; lia).
  assert (2 ^ k = 2 * 2 ^ (k - 1)) as Hh by (apply Zpow2_half; lia).
  pose proof (Z.div_mod m (2 ^ k) ltac:(lia)) as E.
  pose proof (Z.div_mod m' (2 ^ k) ltac:(lia)) as E'.
  pose proof (Z.mod_pos_bound m (2 ^ k) Hp) as B.
  pose proof (Z.mod_pos_bound m' (2 ^ k) Hp) as B'.
  set (q := m / 2 ^ k) in *. set (q' := m' / 2 ^ k) in *.
  set (r := m mod 2 ^ k) in *. set (r' := m' mod 2 ^ k) in *.
  set (h := 2 ^ (k - 1)) in *.
  assert (q <= q') as Hq by (apply Z.div_le_mono; lia).
  destruct (Z.eq_dec q q') as [Eq|Nq].
  - rewrite <- Eq in *. assert (r <= r') by nia.
    destruct (Z.ltb_spec h r), (Z.ltb_spec h r'), (Z.eqb_spec r h), (Z.eqb_spec r' h),
      (Z.odd q); simpl; lia.
  - destruct (_ || _), (_ || _); lia.
Qed.

Lemma RNE_scale k j m :
  0 <= k -> 0 <= j -> RNE (k + j) (m * 2 ^ j) = RNE k m.
Proof.
  intros Hk Hj. destruct (Z.eq_dec k 0) as [->|Hk0].
  - simpl. rewrite RNE_exact by assumption. reflexivity.
  - unfold RNE. destruct (Z.eqb_spec (k + j) 0); [lia|].
    destruct (Z.eqb_spec k 0); [lia|].
    assert (0 < 2 ^ j) by (apply Z.pow_pos_nonneg; lia).
    assert (0 < 2 ^ k) by (apply Z.pow_pos_nonneg; lia).
    assert (0 < 2 ^ (k - 1)) by (apply Z.pow_pos_nonneg; lia).
    assert (m * 2 ^ j / 2 ^ (k + j) = m / 2 ^ k) as ->.
    { rewrite Z.pow_add_r by lia. rewrite (Z.mul_comm m), (Z.mul_comm (2 ^ k)).
      apply Z.div_mul_cancel_l; lia. }
    assert ((m * 2 ^ j) mod 2 ^ (k + j) = 2 ^ j * (m mod 2 ^ k)) as ->.
    { rewrite Z.pow_add_r by lia. rewrite (Z.mul_comm m), (Z.mul_comm (2 ^ k)).
      apply Z.mul_mod_distr_l; lia. }
    assert (2 ^ (k + j - 1) = 2 ^ j * 2 ^ (k - 1)) as ->.
    { replace (k + j - 1) with (j + (k - 1)) by lia. apply Z.pow_add_r; lia. }
    set (r := m mod 2 ^ k). set (h := 2 ^ (k - 1)) in *.
    replace (2 ^ j * h <? 2 ^ j * r) with (h <? r).
    2:{ destruct (Z.ltb_spec h r), (Z.ltb_spec (2 ^ j * h) (2 ^ j * r));
          try reflexivity; nia. }
    replace (2 ^ j * r =? 2 ^ j * h) with (r =? h).
    2:{ destruct (Z.eqb_spec r h), (Z.eqb_spec (2 ^ j * r) (2 ^ j * h));
          try reflexivity; nia. }
    reflexivity.
Qed.

(** ** The shift of [SpecFloat.shr] *)

Lemma iter_pos_nat {A} (f : A -> A) p x :
  iter_pos f p x = Nat.iter (Pos.to_nat p) f x.
Proof.
  revert x. induction p as [p IH|p IH|]; intros x; simpl iter_pos.
  - rewrite !IH. rewrite Pos2Nat.inj_xI.
    replace (S (2 * Pos.to_nat p))%nat with (Pos.to_nat p + (Pos.to_nat p + 1))%nat by lia.
    rewrite !Nat.iter_add. simpl. reflexivity.
  - rewrite !IH. rewrite Pos2Nat.inj_xO.
    replace (2 * Pos.to_nat p)%nat with (Pos.to_nat p + Pos.to_nat p)%nat by lia.
    rewrite Nat.iter_add. reflexivity.
  - reflexivity.
Qed.

Lemma shr_1_m r : 0 <= shr_m r -> shr_m (shr_1 r) = shr_m r / 2.
Proof.
  destruct r as [m r s]. simpl. intros Hm.
  destruct m as [|[p|p|]|p]; try lia; simpl.
  - reflexivity.
  - rewrite Pos2Z.inj_xI. apply (Z.div_unique _ _ _ 1); lia.
  - rewrite Pos2Z.inj_xO. apply (Z.div_unique _ _ _ 0); lia.
  - reflexivity.
Qed.

Lemma shr_1_r r : 0 <= shr_m r -> shr_r (shr_1 r) = Z.odd (shr_m r).
Proof.
  destruct r as [m r s]. simpl. intros Hm.
  destruct m as [|[p|p|]|p]; try lia; reflexivity.
Qed.

Lemma shr_1_s r : shr_s (shr_1 r) = shr_r r || shr_s r.
Proof.
  destruct r as [m r s]. simpl.
  destruct m as [|[p|p|]|[p|p|]]; reflexivity.
Qed.

Lemma shr_spec_step k m r :
  0 <= m -> 0 <= k -> shr_spec k m r -> shr_spec (k + 1) m (shr_1 r).
Proof.
  intros Hm Hk (Em & E0 & Ek).
  assert (0 < 2 ^ k) by (apply Z.pow_pos_nonneg; lia).
  assert (0 <= shr_m r) by (rewrite Em; apply Z.div_pos; lia).
  split; [|split].
  - rewrite shr_1_m by assumption. rewrite Em.
    rewrite Z.div_div by lia. rewrite Z.pow_add_r by lia. reflexivity.
  - lia.
  - intros _. replace (k + 1 - 1) with k by lia. split.
    + rewrite shr_1_r by assumption. rewrite Em. reflexivity.
    + rewrite shr_1_s. destruct (Z.eq_dec k 0) as [->|Hk0].
      * destruct (E0 eq_refl) as [-> ->]. simpl. rewrite Z.mod_1_r. reflexivity.
      * destruct (Ek ltac:(lia)) as [-> ->].
        assert (0 < 2 ^ (k - 1)) by (apply Z.pow_pos_nonneg; lia).
        assert (2 ^ k = 2 ^ (k - 1) * 2) as Hh by (rewrite (Zpow2_half k); lia).
        rewrite Hh. rewrite Z.rem_mul_r by lia.
        rewrite Zmod_odd.
        pose proof (Z.mod_pos_bound m (2 ^ (k - 1)) ltac:(lia)).
        destruct (Z.odd (m / 2 ^ (k - 1))); simpl.
        -- destruct (Z.eqb_spec (m mod 2 ^ (k - 1) + 2 ^ (k - 1) * 1) 0); [lia|reflexivity].
        -- rewrite Z.mul_0_r, Z.add_0_r. reflexivity.
Qed.

Lemma shr_spec_iter m n :
  0 <= m ->
  shr_spec (Z.of_nat n) m
    (Nat.iter n shr_1 {| shr_m := m; shr_r := false; shr_s := false |}).
Proof.
  intros Hm. induction n as [|n IH].
  - simpl. split; [|split]; simpl.
    + rewrite Z.div_1_r. reflexivity.
    + auto.
    + lia.
  - rewrite Nat2Z.inj_succ. unfold Z.succ. simpl Nat.iter.
    apply shr_spec_step; [assumption|lia|assumption].
Qed.

Lemma round_shr k m r :
  0 <= m -> 0 <= k -> shr_spec k m r ->
  round_nearest_even (shr_m r) (loc_of_shr_record r) = RNE k m.
Proof.
  intros Hm Hk (Em & E0 & Ek). unfold RNE.
  destruct (Z.eqb_spec k 0) as [->|Hk0].
  - destruct (E0 eq_refl) as [Hr Hs]. destruct r as [mr rr sr]. simpl in *.
    subst. simpl. apply Z.div_1_r.
  - destruct (Ek ltac:(lia)) as [Hr Hs].
    assert (0 < 2 ^ (k - 1)) by (apply Z.pow_pos_nonneg; lia).
    assert (2 ^ k = 2 ^ (k - 1) * 2) as Hh by (rewrite (Zpow2_half k); lia).
    assert (m mod 2 ^ k = m mod 2 ^ (k - 1) + 2 ^ (k - 1) * ((m / 2 ^ (k - 1)) mod 2)) as Hrho.
    { rewrite Hh. apply Z.rem_mul_r; lia. }
    rewrite Zmod_odd in Hrho.
    pose proof (Z.mod_pos_bound m (2 ^ (k - 1)) ltac:(lia)) as Hb.
    destruct r as [mr rr sr]. simpl in *. subst mr rr sr. rewrite Hrho.
    set (h := 2 ^ (k - 1)) in *. set (l := m mod h) in *.
    destruct (Z.odd (m / h)); simpl.
    + destruct (Z.eqb_spec l 0) as [El|Nl]; simpl.
      * rewrite El. replace (0 + h * 1) with h by lia.
        rewrite Z.ltb_irrefl, Z.eqb_refl. simpl.
        rewrite <- Z.negb_odd. destruct (Z.odd (m / 2 ^ k)); reflexivity.
      * destruct (Z.ltb_spec h (l + h * 1)); [reflexivity|lia].
    + rewrite Z.mul_0_r, Z.add_0_r.
      destruct (Z.ltb_spec h l); [lia|]. destruct (Z.eqb_spec l h); [lia|].
      simpl. destruct (Z.eqb_spec l 0); reflexivity.
Qed.

Lemma shr_round m e k :
  0 <= m -> 0 <= k ->
  let '(mrs, e') := shr {| shr_m := m; shr_r := false; shr_s := false |} e k in
  round_nearest_even (shr_m mrs) (loc_of_shr_record mrs) = RNE k m /\ e' = e + k.
Proof.
  intros Hm Hk. destruct k as [|p|p]; try lia; simpl.
  - split; [reflexivity|lia].
  - split; [|reflexivity]. rewrite iter_pos_nat.
    apply round_shr; [assumption|lia|].
    rewrite <- positive_nat_Z. apply shr_spec_iter. assumption.
Qed.

(** ** Values of floating-point data *)

Lemma val_pos m e : (0 < val m e)%R.
Proof.
  unfold val. apply Rmult_lt_0_compat; [apply IZR_lt; lia|apply pow2_pos].
Qed.

Lemma val_bounds m e :
  (pow2 (Z.pos (digits2_pos m) + e - 1) <= val m e < pow2 (Z.pos (digits2_pos m) + e))%R.
Proof.
  pose proof (digits_bounds m) as [Hlo Hhi]. pose proof (pow2_pos e).
  unfold val. split.
  - replace (Z.pos (digits2_pos m) + e - 1) with (Z.pos (digits2_pos m) - 1 + e) by lia.
    rewrite pow2_add, (pow2_IZR (Z.pos (digits2_pos m) - 1)) by lia.
    apply IZR_le in Hlo. nra.
  - rewrite pow2_add, (pow2_IZR (Z.pos (digits2_pos m))) by lia.
    apply IZR_lt in Hhi. nra.
Qed.

Lemma mag_mono m e m' e' :
  (val m e <= val m' e')%R ->
  Z.pos (digits2_pos m) + e <= Z.pos (digits2_pos m') + e'.
Proof.
  intros H. pose proof (val_bounds m e) as [Hlo _].
  pose proof (val_bounds m' e') as [_ Hhi].
  assert (pow2 (Z.pos (digits2_pos m) + e - 1) < pow2 (Z.pos (digits2_pos m') + e'))%R
    as Hlt by lra.
  apply pow2_lt_inv in Hlt. lia.
Qed.

Lemma val_scale m e j :
  0 <= j -> (IZR (Z.pos m * 2 ^ j) * pow2 (e - j) = val m e)%R.
Proof.
  intros Hj. unfold val. rewrite mult_IZR, <- pow2_IZR by assumption.
  rewrite Rmult_assoc, <- pow2_add. f_equal. f_equal. lia.
Qed.

Section Format.

Variables prec emax : Z.
Hypothesis prec_pos : 0 < prec.
Hypothesis prec_lt_emax : prec < emax.

Local Abbreviation emin := (SpecFloat.emin prec emax).
Local Abbreviation fexp := (SpecFloat.fexp prec emax).
Local Abbreviation digits m := (Z.pos (digits2_pos m)).
Local Abbreviation canonical := (IEEE754.canonical prec emax).
Local Abbreviation aligned := (IEEE754.aligned prec emax).
Local Abbreviation rv := (IEEE754.rv prec emax).
Local Abbreviation good := (IEEE754.good prec emax).
Local Abbreviation Rnd := (IEEE754.Rnd prec emax).
Local Abbreviation SFround := (IEEE754.SFround prec emax).

Lemma fexp_mono a b : a <= b -> fexp a <= fexp b.
Proof. unfold SpecFloat.fexp. lia. Qed.

Lemma fexp_ge_emin a : emin <= fexp a.
Proof. unfold SpecFloat.fexp. lia. Qed.

Lemma canonical_iff m e : canonical_mantissa prec emax m e = true <-> canonical m e.
Proof. unfold canonical_mantissa, IEEE754.canonical. apply Z.eqb_eq. Qed.

Lemma canonical_aligned m e : canonical m e -> aligned m e.
Proof. unfold IEEE754.canonical, IEEE754.aligned. lia. Qed.

Lemma canonical_digits m e : canonical m e -> digits m <= prec.
Proof. unfold IEEE754.canonical, SpecFloat.fexp. lia. Qed.

Lemma shr_fexp_noop m e :
  canonical m e ->
  shr_fexp prec emax (Z.pos m) e loc_Exact =
  ({| shr_m := Z.pos m; shr_r := false; shr_s := false |}, e).
Proof.
  unfold IEEE754.canonical, shr_fexp. simpl Zdigits2. intros ->.
  rewrite Z.sub_diag. reflexivity.
Qed.

Lemma bra_spec s m e :
  aligned m e ->
  (rv m e = 0%R /\
   binary_round_aux prec emax s (Z.pos m) e loc_Exact = S754_zero s) \/
  (exists m3 e3, canonical m3 e3 /\ val m3 e3 = rv m e /\
     binary_round_aux prec emax s (Z.pos m) e loc_Exact =
       if e3 <=? emax - prec then S754_finite s m3 e3 else S754_infinity s).
Proof.
  intros Hal. unfold IEEE754.aligned in Hal. unfold IEEE754.rv.
  set (d := digits m) in *. set (e1 := fexp (d + e)) in *.
  set (k := e1 - e). assert (0 <= k) as Hk by (unfold k; lia).
  assert (emin <= e1) as Hemin by apply fexp_ge_emin.
  pose proof (digits_bounds m) as [Dlo Dhi]. fold d in Dlo, Dhi.
  pose proof (RNE_bounds k (Z.pos m) Hk) as [Rlo Rhi].
  assert (0 < 2 ^ k) as Hpk by (apply Z.pow_pos_nonneg; lia).
  assert (0 <= Z.pos m / 2 ^ k) as Hq by (apply Z.div_pos; lia).
  assert (binary_round_aux prec emax s (Z.pos m) e loc_Exact =
          let '(mrs, e2) := shr_fexp prec emax (RNE k (Z.pos m)) e1 loc_Exact in
          match shr_m mrs with
          | 0 => S754_zero s
          | Z.pos m0 =>
              if e2 <=? emax - prec then S754_finite s m0 e2 else S754_infinity s
          | Z.neg _ => S754_nan
          end) as ->.
  { unfold binary_round_aux. unfold shr_fexp at 1. simpl Zdigits2. fold d e1 k.
    pose proof (shr_round (Z.pos m) e k ltac:(lia) Hk) as Hshr.
    destruct (shr _ e k) as [mrs e'] eqn:Eshr. destruct Hshr as [Hround He'].
    rewrite Hround. replace e' with e1 by (unfold k in He'; lia). reflexivity. }
  remember (RNE k (Z.pos m)) as m2 eqn:Em2.
  destruct (Z.eq_dec m2 0) as [E0|N0].
  - left. rewrite E0. split; [simpl; lra|].
    unfold shr_fexp. simpl Zdigits2.
    assert (fexp (0 + e1) - e1 <= 0) as Hn by (unfold SpecFloat.fexp; lia).
    destruct (fexp (0 + e1) - e1) as [|p|p]; try lia; reflexivity.
  - right. assert (0 < m2) as Hm2 by lia.
    destruct m2 as [|p2|p2]; try lia.
    destruct (Z_lt_le_dec (d + e - prec) emin) as [Hsub|Hnorm].
    + (* subnormal result *)
      assert (e1 = emin) as Ee1 by (unfold e1, SpecFloat.fexp; lia).
      assert (Z.pos p2 < 2 ^ prec) as Hlt.
      { assert (Z.pos m / 2 ^ k < 2 ^ (prec - 1)).
        { apply Z.div_lt_upper_bound; [lia|].
          rewrite <- Z.pow_add_r by lia.
          apply Z.lt_le_trans with (1 := Dhi).
          apply Z.pow_le_mono_r; unfold k; lia. }
        assert (2 ^ prec = 2 * 2 ^ (prec - 1)) by (apply Zpow2_half; lia).
        assert (0 < 2 ^ (prec - 1)) by (apply Z.pow_pos_nonneg; lia).
        lia. }
      assert (digits p2 <= prec) as Hd2.
      { pose proof (digits_bounds p2) as [Plo _].
        assert (2 ^ (digits p2 - 1) < 2 ^ prec) as Hp by lia.
        apply Z.pow_lt_mono_r_iff in Hp; lia. }
      assert (canonical p2 e1) as Hcan.
      { unfold IEEE754.canonical, SpecFloat.fexp. lia. }
      exists p2, e1. split; [assumption|]. split; [reflexivity|].
      rewrite (shr_fexp_noop _ _ Hcan). reflexivity.
    + (* normal result *)
      assert (e1 = d + e - prec) as Ee1 by (unfold e1, SpecFloat.fexp; lia).
      assert (k = d - prec) as Ek by (unfold k; lia).
      assert (2 ^ d = 2 ^ prec * 2 ^ k) as Hd.
      { rewrite <- Z.pow_add_r by lia. f_equal. lia. }
      assert (2 ^ (d - 1) = 2 ^ (prec - 1) * 2 ^ k) as Hd1.
      { rewrite <- Z.pow_add_r by lia. f_equal. lia. }
      assert (0 < 2 ^ (prec - 1)) by (apply Z.pow_pos_nonneg; lia).
      assert (2 ^ prec = 2 * 2 ^ (prec - 1)) as Hp2 by (apply Zpow2_half; lia).
      assert (Z.pos m / 2 ^ k < 2 ^ prec) as Hqhi.
      { apply Z.div_lt_upper_bound; lia. }
      assert (2 ^ (prec - 1) <= Z.pos m / 2 ^ k) as Hqlo.
      { apply Z.div_le_lower_bound; lia. }
      destruct (Z_lt_le_dec (Z.pos p2) (2 ^ prec)) as [Hlt|Hge].
      * assert (digits p2 = prec) as Hd2 by (apply digits_unique; lia).
        assert (canonical p2 e1) as Hcan.
        { unfold IEEE754.canonical. rewrite Hd2. unfold SpecFloat.fexp. lia. }
        exists p2, e1. split; [assumption|]. split; [reflexivity|].
        rewrite (shr_fexp_noop _ _ Hcan). reflexivity.
      * assert (Z.pos p2 = 2 ^ prec) as Ep2 by lia.
        assert (digits p2 = prec + 1) as Hd2.
        { apply digits_unique. replace (prec + 1 - 1) with prec by lia.
          rewrite (Zpow2_half (prec + 1)) by lia.
          replace (prec + 1 - 1) with prec by lia. lia. }
        unfold shr_fexp. simpl Zdigits2. rewrite Hd2.
        replace (fexp (prec + 1 + e1) - e1) with 1 by (unfold SpecFloat.fexp; lia).
        cbv beta iota delta [shr shr_record_of_loc iter_pos].
        assert (shr_m (shr_1 {| shr_m := Z.pos p2; shr_r := false; shr_s := false |})
                = 2 ^ (prec - 1)) as Hs1.
        { rewrite shr_1_m by (simpl; lia). simpl shr_m. rewrite Ep2, Hp2.
          rewrite Z.mul_comm, Z.div_mul by lia. reflexivity. }
        rewrite Hs1.
        destruct (2 ^ (prec - 1)) as [|p3|p3] eqn:Ep3; try lia.
        exists p3, (e1 + 1).
        assert (digits p3 = prec) as Hd3.
        { apply digits_unique. rewrite <- Ep3. lia. }
        split; [|split].
        -- unfold IEEE754.canonical. rewrite Hd3. unfold SpecFloat.fexp. lia.
        -- unfold val. rewrite pow2_add. rewrite Ep2, Hp2.
           rewrite mult_IZR. replace (pow2 1) with 2%R by (unfold pow2; simpl; lra).
           lra.
        -- reflexivity.
Qed.

Lemma rv_nonneg m e : aligned m e -> (0 <= rv m e)%R.
Proof.
  intros Hal. unfold IEEE754.rv, IEEE754.aligned in *.
  pose proof (RNE_bounds (fexp (digits m + e) - e) (Z.pos m) ltac:(lia)) as [Hlo _].
  assert (0 <= Z.pos m / 2 ^ (fexp (digits m + e) - e)).
  { apply Z.div_pos; [lia|]. apply Z.pow_pos_nonneg; lia. }
  apply Rmult_le_pos; [apply IZR_le; lia|]. pose proof (pow2_pos (fexp (digits m + e))). lra.
Qed.

Lemma rv_canonical m e : canonical m e -> rv m e = val m e.
Proof.
  unfold IEEE754.canonical, IEEE754.rv, val. intros ->. rewrite Z.sub_diag. reflexivity.
Qed.

Lemma RNE_small k m : 0 <= m < 2 ^ (k - 1) -> RNE k m = 0.
Proof.
  intros [Hlo Hhi]. unfold RNE.
  destruct (Z.eqb_spec k 0) as [->|Hk0].
  - simpl in Hhi. lia.
  - destruct (Z_lt_le_dec k 0) as [Hneg|Hk].
    { rewrite Z.pow_neg_r in Hhi by lia. lia. }
    assert (2 ^ k = 2 * 2 ^ (k - 1)) as Hh by (apply Zpow2_half; lia).
    rewrite Z.div_small, Z.mod_small by lia.
    destruct (Z.ltb_spec (2 ^ (k - 1)) m); [lia|].
    destruct (Z.eqb_spec m (2 ^ (k - 1))); [lia|]. reflexivity.
Qed.

Lemma rv_le_pow m e : aligned m e -> (rv m e <= pow2 (digits m + e))%R.
Proof.
  intros Hal. unfold IEEE754.rv, IEEE754.aligned in *.
  set (d := digits m) in *. set (e1 := fexp (d + e)) in *. set (k := e1 - e).
  pose proof (digits_bounds m) as [Dlo Dhi]. fold d in Dlo, Dhi.
  pose proof (pow2_pos e1). pose proof (pow2_pos (d + e)).
  destruct (Z_le_gt_dec k d) as [Hkd|Hkd].
  - assert (RNE k (Z.pos m) <= 2 ^ (d - k)) as Hle.
    { rewrite <- (RNE_exact k (2 ^ (d - k))) by (unfold k; lia).
      apply RNE_mono; [unfold k; lia|].
      rewrite <- Z.pow_add_r by (unfold k; lia).
      replace (d - k + k) with d by lia. lia. }
    apply IZR_le in Hle. rewrite <- pow2_IZR in Hle by lia.
    replace (d + e) with (d - k + e1) by (unfold k; lia). rewrite pow2_add.
    pose proof (pow2_pos (d - k)). nra.
  - rewrite RNE_small.
    + lra.
    + split; [lia|]. apply Z.lt_le_trans with (1 := Dhi).
      apply Z.pow_le_mono_r; lia.
Qed.

Lemma rv_ge_pow m e :
  aligned m e -> emin < fexp (digits m + e) ->
  (pow2 (digits m + e - 1) <= rv m e)%R.
Proof.
  intros Hal Hn. unfold IEEE754.rv, IEEE754.aligned in *.
  set (d := digits m) in *. set (e1 := fexp (d + e)) in *. set (k := e1 - e).
  assert (e1 = d + e - prec) as Ee1 by (unfold e1, SpecFloat.fexp in *; lia).
  pose proof (digits_bounds m) as [Dlo Dhi]. fold d in Dlo, Dhi.
  assert (2 ^ (prec - 1) <= RNE k (Z.pos m)) as Hle.
  { rewrite <- (RNE_exact k (2 ^ (prec - 1))) by (unfold k; lia).
    apply RNE_mono; [unfold k; lia|].
    rewrite <- Z.pow_add_r by (unfold k; lia).
    replace (prec - 1 + k) with (d - 1) by (unfold k; lia). lia. }
  apply IZR_le in Hle. rewrite <- pow2_IZR in Hle by lia.
  replace (d + e - 1) with (prec - 1 + e1) by lia. rewrite pow2_add.
  pose proof (pow2_pos e1). pose proof (pow2_pos (prec - 1)). nra.
Qed.

(** Rounding is monotone. *)
Lemma rv_mono m e m' e' :
  aligned m e -> aligned m' e' ->
  (val m e <= val m' e')%R -> (rv m e <= rv m' e')%R.
Proof.
  intros Hal Hal' Hv.
  pose proof (mag_mono _ _ _ _ Hv) as Hmag.
  pose proof (fexp_mono _ _ Hmag) as Hexp.
  destruct (Z.eq_dec (fexp (digits m + e)) (fexp (digits m' + e'))) as [Eq|Ne].
  - unfold IEEE754.rv. rewrite <- Eq. unfold IEEE754.aligned in *.
    set (e1 := fexp (digits m + e)) in *.
    set (c := Z.min e e').
    rewrite <- (RNE_scale (e1 - e) (e - c) (Z.pos m)) by (unfold c; lia).
    rewrite <- (RNE_scale (e1 - e') (e' - c) (Z.pos m')) by (unfold c; lia).
    replace (e1 - e + (e - c)) with (e1 - c) by lia.
    replace (e1 - e' + (e' - c)) with (e1 - c) by lia.
    apply Rmult_le_compat_r; [pose proof (pow2_pos e1); lra|].
    apply IZR_le. apply RNE_mono; [unfold c; lia|].
    apply le_IZR.
    rewrite <- (val_scale m e (e - c)) in Hv by (unfold c; lia).
    rewrite <- (val_scale m' e' (e' - c)) in Hv by (unfold c; lia).
    replace (e - (e - c)) with c in Hv by lia.
    replace (e' - (e' - c)) with c in Hv by lia.
    pose proof (pow2_pos c). nra.
  - assert (fexp (digits m + e) < fexp (digits m' + e')) as Hlt by lia.
    assert (digits m + e <= digits m' + e' - 1) as Hm.
    { unfold SpecFloat.fexp in Hlt. lia. }
    pose proof (rv_le_pow m e Hal).
    pose proof (rv_ge_pow m' e' Hal'
                  ltac:(pose proof (fexp_ge_emin (digits m + e)); lia)).
    apply pow2_le in Hm. lra.
Qed.

Lemma canonical_exp_mono m e m' e' :
  canonical m e -> canonical m' e' -> (val m e <= val m' e')%R -> e <= e'.
Proof.
  intros C C' Hv. unfold IEEE754.canonical in *. rewrite <- C, <- C'.
  apply fexp_mono. apply mag_mono. assumption.
Qed.

Lemma canonical_val_lt m e m' e' :
  canonical m e -> canonical m' e' -> e < e' -> (val m e < val m' e')%R.
Proof.
  intros C C' He.
  destruct (Rlt_le_dec (val m e) (val m' e')) as [|Hle]; [assumption|].
  pose proof (canonical_exp_mono _ _ _ _ C' C Hle). lia.
Qed.

(** ** Finite data of the format; comparisons *)

Lemma good_finite s m e :
  good (S754_finite s m e) <-> canonical m e /\ e <= emax - prec.
Proof.
  simpl. unfold bounded. rewrite andb_true_iff, canonical_iff, Z.leb_le. tauto.
Qed.

Lemma SFcompare_spec x y :
  good x -> good y ->
  match SFcompare x y with
  | Some Lt => (SF2R x < SF2R y)%R
  | Some Eq => SF2R x = SF2R y
  | Some Gt => (SF2R y < SF2R x)%R
  | None => False
  end.
Proof.
  intros Gx Gy.
  destruct x as [sx|sx| |sx mx ex]; try contradiction;
  destruct y as [sy|sy| |sy my ey]; try contradiction.
  - simpl. reflexivity.
  - pose proof (val_pos my ey). simpl. destruct sy; simpl; lra.
  - pose proof (val_pos mx ex). simpl. destruct sx; simpl; lra.
  - apply good_finite in Gx, Gy. destruct Gx as [Cx _], Gy as [Cy _].
    pose proof (val_pos mx ex). pose proof (val_pos my ey).
    assert (ex = ey -> (Z.pos mx < Z.pos my -> (val mx ex < val my ey)%R) /\
                       (Z.pos my < Z.pos mx -> (val my ey < val mx ex)%R)) as Hsame.
    { intros ->. unfold val. pose proof (pow2_pos ey).
      split; intros Hlt; apply IZR_lt in Hlt; nra. }
    simpl. change (Pos.compare_cont Eq mx my) with (Pos.compare mx my).
    destruct sx, sy; simpl; try lra;
      destruct (Z.compare_spec ex ey) as [E|L|G];
      try (pose proof (canonical_val_lt _ _ _ _ Cx Cy L); lra);
      try (pose proof (canonical_val_lt _ _ _ _ Cy Cx G); lra);
      destruct (Hsame E) as [H1 H2];
      destruct (Pos.compare_spec mx my) as [Em|Lm|Gm]; simpl;
      try (subst; lra);
      try (specialize (H1 ltac:(lia)); lra);
      try (specialize (H2 ltac:(lia)); lra).
Qed.

Lemma SFleb_SF2R x y :
  good x -> good y -> (SFleb x y = true <-> (SF2R x <= SF2R y)%R).
Proof.
  intros Gx Gy. pose proof (SFcompare_spec x y Gx Gy) as H.
  unfold SFleb. destruct (SFcompare x y) as [[| |]|]; try contradiction;
    split; intros; try reflexivity; try discriminate; lra.
Qed.

Lemma SFltb_SF2R x y :
  good x -> good y -> (SFltb x y = true <-> (SF2R x < SF2R y)%R).
Proof.
  intros Gx Gy. pose proof (SFcompare_spec x y Gx Gy) as H.
  unfold SFltb. destruct (SFcompare x y) as [[| |]|]; try contradiction;
    split; intros; try reflexivity; try discriminate; lra.
Qed.

(** ** Rounding a real number into the format *)

Local Abbreviation round_aux s m e := (binary_round_aux prec emax s (Z.pos m) e loc_Exact).

Lemma round_aux_good s m e :
  aligned m e -> good (round_aux s m e) ->
  SF2R (round_aux s m e) = (sgn s * rv m e)%R.
Proof.
  intros Hal G. destruct (bra_spec s m e Hal) as [[Hz E]|(m3 & e3 & C & Hv & E)].
  - rewrite E, Hz. simpl. lra.
  - rewrite E in *. destruct (e3 <=? emax - prec); [|contradiction].
    simpl. rewrite Hv. reflexivity.
Qed.

Lemma round_aux_good_mono s s' m e m' e' :
  aligned m e -> aligned m' e' -> (val m e <= val m' e')%R ->
  good (round_aux s' m' e') -> good (round_aux s m e).
Proof.
  intros Hal Hal' Hv G'.
  pose proof (rv_mono _ _ _ _ Hal Hal' Hv) as Hrv.
  destruct (bra_spec s m e Hal) as [[Hz E]|(m3 & e3 & C & Hv3 & E)].
  - rewrite E. exact I.
  - rewrite E. pose proof (val_pos m3 e3) as Hpos.
    destruct (bra_spec s' m' e' Hal') as [[Hz' E']|(m3' & e3' & C' & Hv3' & E')].
    + lra.
    + rewrite E' in G'. destruct (Z.leb_spec e3' (emax - prec)) as [Hb|]; [|contradiction].
      assert (e3 <= e3') as He.
      { apply (canonical_exp_mono m3 e3 m3' e3'); try assumption. lra. }
      destruct (Z.leb_spec e3 (emax - prec)) as [Hb3|]; [|lia].
      apply good_finite. split; assumption.
Qed.

Lemma Rnd_sign v f :
  Rnd v f -> good f ->
  (v <= 0 -> SF2R f <= 0)%R /\ (0 <= v -> 0 <= SF2R f)%R.
Proof.
  intros [[-> [s ->]]|(s & m & e & Hal & -> & ->)] G.
  - simpl. lra.
  - rewrite (round_aux_good _ _ _ Hal G).
    pose proof (rv_nonneg _ _ Hal). pose proof (val_pos m e).
    destruct s; simpl; split; intros; lra.
Qed.

Lemma Rnd_pos v f :
  Rnd v f -> (0 < v)%R ->
  exists m e, aligned m e /\ v = val m e /\ f = round_aux false m e.
Proof.
  intros [[-> _]|(s & m & e & Hal & -> & ->)] Hv; [lra|].
  pose proof (val_pos m e). destruct s; simpl in Hv; [lra|].
  exists m, e. split; [assumption|]. split; [simpl; lra|reflexivity].
Qed.

Lemma Rnd_neg v f :
  Rnd v f -> (v < 0)%R ->
  exists m e, aligned m e /\ v = (- val m e)%R /\ f = round_aux true m e.
Proof.
  intros [[-> _]|(s & m & e & Hal & -> & ->)] Hv; [lra|].
  pose proof (val_pos m e). destruct s; simpl in Hv; [|lra].
  exists m, e. split; [assumption|]. split; [simpl; lra|reflexivity].
Qed.

(** A rounded value lies between the roundings of any two bounds. *)
Lemma Rnd_between vl v vh fl f fh :
  Rnd vl fl -> Rnd v f -> Rnd vh fh ->
  (vl <= v <= vh)%R -> good fl -> good fh ->
  good f /\ (SF2R fl <= SF2R f <= SF2R fh)%R.
Proof.
  intros Rl Rv Rh [Hlo Hhi] Gl Gh.
  pose proof (Rnd_sign _ _ Rl Gl) as [Sl1 Sl2].
  pose proof (Rnd_sign _ _ Rh Gh) as [Sh1 Sh2].
  destruct (Rtotal_order v 0) as [Hneg|[Hzero|Hpos]].
  - (* v < 0 *)
    destruct (Rnd_neg _ _ Rv Hneg) as (m & e & Hal & Ev & Ef).
    destruct (Rnd_neg _ _ Rl ltac:(lra)) as (ml & el & Hall & Evl & Efl).
    assert (val m e <= val ml el)%R as Hvl by lra.
    assert (good f) as G.
    { rewrite Ef. apply (round_aux_good_mono true true m e ml el); try assumption.
      rewrite <- Efl. assumption. }
    split; [assumption|].
    pose proof (rv_mono _ _ _ _ Hal Hall Hvl) as Hrl.
    rewrite Ef in G |- *. rewrite (round_aux_good _ _ _ Hal G).
    rewrite Efl in Gl |- *. rewrite (round_aux_good _ _ _ Hall Gl).
    simpl sgn. split; [lra|].
    destruct (Rlt_le_dec vh 0) as [Hhn|Hhp].
    + destruct (Rnd_neg _ _ Rh Hhn) as (mh & eh & Halh & Evh & Efh).
      assert (val mh eh <= val m e)%R as Hvh by lra.
      pose proof (rv_mono _ _ _ _ Halh Hal Hvh).
      rewrite Efh in Gh |- *. rewrite (round_aux_good _ _ _ Halh Gh). simpl sgn. lra.
    + pose proof (rv_nonneg _ _ Hal). specialize (Sh2 Hhp). lra.
  - (* v = 0 *)
    destruct Rv as [[_ [s ->]]|(s & m & e & Hal & Ev & Ef)].
    + split; [exact I|]. simpl. split; [apply Sl1|apply Sh2]; lra.
    + pose proof (val_pos m e). destruct s; simpl in Ev; lra.
  - (* 0 < v *)
    destruct (Rnd_pos _ _ Rv Hpos) as (m & e & Hal & Ev & Ef).
    destruct (Rnd_pos _ _ Rh ltac:(lra)) as (mh & eh & Halh & Evh & Efh).
    assert (val m e <= val mh eh)%R as Hvh by lra.
    assert (good f) as G.
    { rewrite Ef. apply (round_aux_good_mono false false m e mh eh); try assumption.
      rewrite <- Efh. assumption. }
    split; [assumption|].
    pose proof (rv_mono _ _ _ _ Hal Halh Hvh) as Hrh.
    rewrite Ef in G |- *. rewrite (round_aux_good _ _ _ Hal G).
    rewrite Efh in Gh |- *. rewrite (round_aux_good _ _ _ Halh Gh).
    simpl sgn. split; [|lra].
    destruct (Rlt_le_dec 0 vl) as [Hlp|Hln].
    + destruct (Rnd_pos _ _ Rl Hlp) as (ml & el & Hall & Evl & Efl).
      assert (val ml el <= val m e)%R as Hvl by lra.
      pose proof (rv_mono _ _ _ _ Hall Hal Hvl).
      rewrite Efl in Gl |- *. rewrite (round_aux_good _ _ _ Hall Gl). simpl sgn. lra.
    + pose proof (rv_nonneg _ _ Hal). specialize (Sl1 Hln). lra.
Qed.

(** A datum of the format rounds to itself. *)
Lemma round_aux_canonical s m e :
  canonical m e -> e <= emax - prec ->
  round_aux s m e = S754_finite s m e.
Proof.
  intros C Hb. unfold binary_round_aux.
  rewrite (shr_fexp_noop _ _ C). simpl round_nearest_even.
  rewrite (shr_fexp_noop _ _ C). simpl.
  destruct (Z.leb_spec e (emax - prec)); [reflexivity|lia].
Qed.

Lemma Rnd_self f : good f -> Rnd (SF2R f) f.
Proof.
  destruct f as [s|s| |s m e]; try contradiction; intros G.
  - left. split; [reflexivity|]. exists s. reflexivity.
  - apply good_finite in G. destruct G as [C Hb]. right.
    exists s, m, e. split; [apply canonical_aligned; assumption|].
    split; [reflexivity|]. symmetry. apply round_aux_canonical; assumption.
Qed.

(** *** [binary_round] and [binary_normalize] *)

Lemma iter_xO_val m p : Z.pos (Pos.iter xO m p) = Z.pos m * 2 ^ Z.pos p.
Proof.
  induction p as [|p IH] using Pos.peano_ind.
  - simpl. lia.
  - rewrite Pos.iter_succ. rewrite Pos2Z.inj_xO, IH.
    rewrite Pos2Z.inj_succ, Z.pow_succ_r by lia. lia.
Qed.

Lemma iter_xO_digits m p :
  Z.pos (digits2_pos (Pos.iter xO m p)) = Z.pos (digits2_pos m) + Z.pos p.
Proof.
  induction p as [|p IH] using Pos.peano_ind.
  - simpl. lia.
  - rewrite Pos.iter_succ. simpl digits2_pos. rewrite Pos2Z.inj_succ, IH. lia.
Qed.

Lemma shl_align_fst m e e' :
  e' <= e -> Z.pos (fst (shl_align m e e')) = Z.pos m * 2 ^ (e - e').
Proof.
  intros He. unfold shl_align.
  destruct (e' - e) as [|p|p] eqn:E; try lia; simpl fst.
  - replace (e - e') with 0 by lia. simpl. lia.
  - rewrite iter_xO_val. f_equal. f_equal. lia.
Qed.

Lemma binary_round_Rnd s m e :
  Rnd (sgn s * val m e) (binary_round prec emax s m e).
Proof.
  unfold binary_round, shl_align.
  destruct (fexp (digits m + e) - e) as [|p|p] eqn:E.
  - right. exists s, m, e. unfold IEEE754.aligned. split; [lia|]. split; reflexivity.
  - right. exists s, m, e. unfold IEEE754.aligned. split; [lia|]. split; reflexivity.
  - right. exists s, (Pos.iter xO m p), (fexp (digits m + e)).
    split; [|split; [|reflexivity]].
    + unfold IEEE754.aligned. rewrite iter_xO_digits.
      apply fexp_mono. lia.
    + f_equal. unfold val. rewrite iter_xO_val, mult_IZR.
      rewrite <- pow2_IZR by lia. rewrite Rmult_assoc, <- pow2_add.
      f_equal. f_equal. lia.
Qed.

Lemma binary_normalize_Rnd z e :
  Rnd (IZR z * pow2 e) (binary_normalize prec emax z e false).
Proof.
  destruct z as [|m|m]; simpl binary_normalize.
  - left. split; [lra|]. exists false. reflexivity.
  - replace (IZR (Z.pos m) * pow2 e)%R with (sgn false * val m e)%R
      by (unfold val; simpl; lra).
    apply binary_round_Rnd.
  - replace (IZR (Z.neg m) * pow2 e)%R with (sgn true * val m e)%R.
    + apply binary_round_Rnd.
    + unfold val. simpl sgn. change (Z.neg m) with (- Z.pos m). rewrite opp_IZR. lra.
Qed.

(** *** The arithmetic operations *)

Lemma val_mul mx ex my ey :
  val (mx * my) (ex + ey) = (val mx ex * val my ey)%R.
Proof.
  unfold val. rewrite Pos2Z.inj_mul, mult_IZR, pow2_add. lra.
Qed.

Lemma sgn_xorb a b : sgn (xorb a b) = (sgn a * sgn b)%R.
Proof. destruct a, b; simpl; lra. Qed.

Lemma digits_mul mx my :
  digits mx + digits my - 1 <= digits (mx * my).
Proof.
  pose proof (digits_bounds mx) as [Xlo _]. pose proof (digits_bounds my) as [Ylo _].
  pose proof (digits_bounds (mx * my)) as [_ Phi].
  rewrite Pos2Z.inj_mul in Phi.
  assert (0 < 2 ^ (digits mx - 1)) by (apply Z.pow_pos_nonneg; lia).
  assert (0 < 2 ^ (digits my - 1)) by (apply Z.pow_pos_nonneg; lia).
  assert (2 ^ (digits mx - 1 + (digits my - 1)) < 2 ^ digits (mx * my)) as Hlt.
  { rewrite Z.pow_add_r by lia. nia. }
  apply Z.pow_lt_mono_r_iff in Hlt; lia.
Qed.

Lemma mul_aligned mx ex my ey :
  canonical mx ex -> canonical my ey -> aligned (mx * my) (ex + ey).
Proof.
  unfold IEEE754.canonical, IEEE754.aligned. intros Cx Cy.
  pose proof (digits_mul mx my).
  unfold SpecFloat.fexp, SpecFloat.emin in *. lia.
Qed.

Lemma SFmul_Rnd x y :
  good x -> good y -> Rnd (SF2R x * SF2R y) (SFmul prec emax x y).
Proof.
  intros Gx Gy.
  destruct x as [sx|sx| |sx mx ex]; try contradiction;
  destruct y as [sy|sy| |sy my ey]; try contradiction; simpl SFmul.
  - left. split; [simpl; lra|]. eexists; reflexivity.
  - left. split; [simpl; lra|]. eexists; reflexivity.
  - left. split; [simpl; lra|]. eexists; reflexivity.
  - apply good_finite in Gx, Gy. destruct Gx as [Cx _], Gy as [Cy _].
    right. exists (xorb sx sy), (mx * my)%positive, (ex + ey).
    split; [apply mul_aligned; assumption|]. split; [|reflexivity].
    simpl. rewrite sgn_xorb, val_mul. lra.
Qed.

Lemma IZR_cond_Zopp s z : IZR (cond_Zopp s z) = (sgn s * IZR z)%R.
Proof. destruct s; simpl; [rewrite opp_IZR|]; lra. Qed.

Lemma aligned_sum sx mx ex sy my ey :
  let ez := Z.min ex ey in
  ((IZR (cond_Zopp sx (Z.pos (fst (shl_align mx ex ez)))) * pow2 ez)%R
     = (sgn sx * val mx ex)%R) /\
  ((IZR (cond_Zopp sy (Z.pos (fst (shl_align my ey ez)))) * pow2 ez)%R
     = (sgn sy * val my ey)%R).
Proof.
  intros ez. rewrite !IZR_cond_Zopp.
  rewrite !shl_align_fst by (unfold ez; lia).
  rewrite <- (val_scale mx ex (ex - ez)) by (unfold ez; lia).
  rewrite <- (val_scale my ey (ey - ez)) by (unfold ez; lia).
  replace (ex - (ex - ez)) with ez by lia.
  replace (ey - (ey - ez)) with ez by lia.
  split; lra.
Qed.

Lemma SFadd_Rnd x y :
  good x -> good y -> Rnd (SF2R x + SF2R y) (SFadd prec emax x y).
Proof.
  intros Gx Gy.
  destruct x as [sx|sx| |sx mx ex]; try contradiction;
  destruct y as [sy|sy| |sy my ey]; try contradiction.
  - left. split; [simpl; lra|]. simpl. destruct sx, sy; eexists; reflexivity.
  - simpl SFadd. replace (SF2R (S754_zero sx) + SF2R (S754_finite sy my ey))%R
      with (SF2R (S754_finite sy my ey)) by (simpl; lra).
    apply Rnd_self. assumption.
  - simpl SFadd. replace (SF2R (S754_finite sx mx ex) + SF2R (S754_zero sy))%R
      with (SF2R (S754_finite sx mx ex)) by (simpl; lra).
    apply Rnd_self. assumption.
  - unfold SFadd. destruct (aligned_sum sx mx ex sy my ey) as [E1 E2].
    simpl SF2R. rewrite <- E1, <- E2, <- Rmult_plus_distr_r, <- plus_IZR.
    apply binary_normalize_Rnd.
Qed.

Lemma SFsub_Rnd x y :
  good x -> good y -> Rnd (SF2R x - SF2R y) (SFsub prec emax x y).
Proof.
  intros Gx Gy.
  destruct x as [sx|sx| |sx mx ex]; try contradiction;
  destruct y as [sy|sy| |sy my ey]; try contradiction.
  - left. split; [simpl; lra|]. simpl. destruct sx, sy; eexists; reflexivity.
  - simpl SFsub. replace (SF2R (S754_zero sx) - SF2R (S754_finite sy my ey))%R
      with (SF2R (S754_finite (negb sy) my ey)) by (destruct sy; simpl; lra).
    apply Rnd_self. exact Gy.
  - simpl SFsub. replace (SF2R (S754_finite sx mx ex) - SF2R (S754_zero sy))%R
      with (SF2R (S754_finite sx mx ex)) by (simpl; lra).
    apply Rnd_self. assumption.
  - unfold SFsub. destruct (aligned_sum sx mx ex sy my ey) as [E1 E2].
    simpl SF2R. rewrite <- E1, <- E2.
    unfold Rminus. rewrite Ropp_mult_distr_l, <- Rmult_plus_distr_r.
    rewrite <- opp_IZR, <- plus_IZR.
    apply binary_normalize_Rnd.
Qed.

Lemma SFround_Rnd f :
  match f with S754_zero _ | S754_finite _ _ _ => True | _ => False end ->
  Rnd (SF2R f) (SFround f).
Proof.
  destruct f as [s|s| |s m e]; try contradiction; intros _.
  - left. split; [reflexivity|]. exists s. reflexivity.
  - apply binary_round_Rnd.
Qed.

End Format.

(** ** binary64 (the primitive floats) and binary32 *)

Lemma prec64_pos : 0 < prec.
Proof. reflexivity. Qed.

Lemma prec64_lt_emax : prec < emax.
Proof. reflexivity. Qed.

Lemma finite_good x : finite x = true -> good prec emax (Prim2SF x).
Proof.
  unfold finite. pose proof (Prim2SF_valid x) as Hv.
  destruct (Prim2SF x); try discriminate; intros _; [exact I|exact Hv].
Qed.

Lemma good_finite64 x : good prec emax (Prim2SF x) -> finite x = true.
Proof. unfold finite. destruct (Prim2SF x); simpl; tauto. Qed.

Lemma leb_B2R x y :
  finite x = true -> finite y = true ->
  ((x <=? y)%float = true <-> (B2R x <= B2R y)%R).
Proof.
  intros Fx Fy. rewrite leb_spec.
  apply (SFleb_SF2R prec emax); auto using finite_good.
Qed.

Lemma ltb_B2R x y :
  finite x = true -> finite y = true ->
  ((x <? y)%float = true <-> (B2R x < B2R y)%R).
Proof.
  intros Fx Fy. rewrite ltb_spec.
  apply (SFltb_SF2R prec emax); auto using finite_good.
Qed.

Lemma between_finite lo x hi :
  finite lo = true -> finite hi = true ->
  (lo <=? x)%float = true -> (x <=? hi)%float = true -> finite x = true.
Proof.
  unfold finite. rewrite !leb_spec. unfold SFleb.
  destruct (Prim2SF lo) as [?|?| |? ? ?]; try discriminate;
  destruct (Prim2SF hi) as [?|?| |? ? ?]; try discriminate;
  destruct (Prim2SF x) as [?|[|]| |? ? ?]; simpl; intros; try reflexivity;
    discriminate.
Qed.

Section Between.

Variable op : float -> float.
Variable g : R -> R.
Hypothesis op_Rnd :
  forall x, finite x = true -> Rnd prec emax (g (B2R x)) (Prim2SF (op x)).
Hypothesis g_mono : forall a b, (a <= b)%R -> (g a <= g b)%R.

Lemma op_between lo x hi :
  finite lo = true -> finite hi = true ->
  (lo <=? x)%float = true -> (x <=? hi)%float = true ->
  finite (op lo) = true -> finite (op hi) = true ->
  finite (op x) = true /\
  (op lo <=? op x)%float = true /\ (op x <=? op hi)%float = true.
Proof.
  intros Flo Fhi Hlo Hhi Folo Fohi.
  pose proof (between_finite lo x hi Flo Fhi Hlo Hhi) as Fx.
  apply leb_B2R in Hlo, Hhi; try assumption.
  destruct (Rnd_between prec emax prec64_pos
              (g (B2R lo)) (g (B2R x)) (g (B2R hi))
              (Prim2SF (op lo)) (Prim2SF (op x)) (Prim2SF (op hi)))
    as [G [B1 B2]]; auto using finite_good.
  apply good_finite64 in G.
  split; [assumption|]. split; apply leb_B2R; assumption.
Qed.

End Between.

Lemma mul_between c lo x hi :
  finite c = true -> (0 <=? c)%float = true ->
  finite lo = true -> finite hi = true ->
  (lo <=? x)%float = true -> (x <=? hi)%float = true ->
  finite (lo * c) = true -> finite (hi * c) = true ->
  finite (x * c) = true /\
  (lo * c <=? x * c)%float = true /\ (x * c <=? hi * c)%float = true.
Proof.
  intros Fc Hc. apply leb_B2R in Hc; [|reflexivity|assumption].
  change (B2R 0) with 0%R in Hc.
  apply (op_between (fun x => (x * c)%float) (fun v => (v * B2R c)%R)).
  - intros y Fy. rewrite mul_spec.
    apply SFmul_Rnd; auto using finite_good, prec64_lt_emax.
  - intros a b Hab. nra.
Qed.

Lemma add_between c lo x hi :
  finite c = true ->
  finite lo = true -> finite hi = true ->
  (lo <=? x)%float = true -> (x <=? hi)%float = true ->
  finite (c + lo) = true -> finite (c + hi) = true ->
  finite (c + x) = true /\
  (c + lo <=? c + x)%float = true /\ (c + x <=? c + hi)%float = true.
Proof.
  intros Fc.
  apply (op_between (fun x => (c + x)%float) (fun v => (B2R c + v)%R)).
  - intros y Fy. rewrite add_spec.
    apply SFadd_Rnd; auto using finite_good.
  - intros a b Hab. lra.
Qed.

Lemma sub_between c lo x hi :
  finite c = true ->
  finite lo = true -> finite hi = true ->
  (lo <=? x)%float = true -> (x <=? hi)%float = true ->
  finite (lo - c) = true -> finite (hi - c) = true ->
  finite (x - c) = true /\
  (lo - c <=? x - c)%float = true /\ (x - c <=? hi - c)%float = true.
Proof.
  intros Fc.
  apply (op_between (fun x => (x - c)%float) (fun v => (v - B2R c)%R)).
  - intros y Fy. rewrite sub_spec.
    apply SFsub_Rnd; auto using finite_good.
  - intros a b Hab. lra.
Qed.

Lemma lt_one_le_below_one x :
  (0 <=? x)%float = true -> (x <? 1)%float = true ->
  finite x = true /\ (x <=? below_one)%float = true.
Proof.
  intros H0 H1.
  assert (finite x = true) as Fx.
  { revert H0 H1. unfold finite. rewrite leb_spec, ltb_spec.
    unfold SFleb, SFltb.
    destruct (Prim2SF x) as [?|[|]| |? ? ?]; simpl; intros; try reflexivity;
      discriminate. }
  split; [assumption|].
  apply ltb_B2R in H1; [|assumption|reflexivity].
  apply leb_B2R; [assumption|reflexivity|].
  pose proof (finite_good x Fx) as G.
  unfold B2R in *. destruct (Prim2SF x) as [s|s| |s m e]; try contradiction.
  - vm_compute SF2R at 1. unfold below_one.
    change (Prim2SF 0x1.fffffffffffffp-1) with (S754_finite false 9007199254740991 (-53)).
    pose proof (val_pos 9007199254740991 (-53)). simpl. lra.
  - change (Prim2SF below_one) with (S754_finite false 9007199254740991 (-53)).
    change (Prim2SF 1) with (S754_finite false 4503599627370496 (-52)) in H1.
    apply (good_finite prec emax) in G. destruct G as [C _].
    pose proof (val_pos m e) as Hp.
    pose proof (val_pos 9007199254740991 (-53)).
    destruct s; [simpl; lra|].
    simpl in H1 |- *.
    assert (val 4503599627370496 (-52) = 1)%R as E1.
    { unfold val. change 4503599627370496%Z with (2 ^ 52)%Z.
      rewrite <- pow2_IZR, <- pow2_add by lia. reflexivity. }
    rewrite E1 in H1.
    pose proof (val_bounds m e) as [Vlo Vhi].
    assert (pow2 (Z.pos (digits2_pos m) + e - 1) < pow2 0)%R as Hm by (rewrite pow2_0; lra).
    apply pow2_lt_inv in Hm.
    destruct (Z.eq_dec (Z.pos (digits2_pos m) + e) 0) as [Ez|Nz].
    + unfold canonical in C. rewrite Ez in C.
      assert (e = -53) as -> by (rewrite <- C; reflexivity).
      assert (Z.pos (digits2_pos m) = 53) as Hd by lia.
      pose proof (digits_bounds m) as [_ Dhi]. rewrite Hd in Dhi.
      assert (Z.pos m <= 9007199254740991) as Hle by (change (2 ^ 53) with 9007199254740992 in Dhi; lia).
      apply IZR_le in Hle. unfold val. pose proof (pow2_pos (-53)). nra.
    + assert (Z.pos (digits2_pos m) + e <= -1) as Hle by lia.
      apply pow2_le in Hle.
      assert (pow2 (-1) <= val 9007199254740991 (-53))%R.
      { unfold val. replace (-1) with (52 + -53) by lia. rewrite pow2_add.
        rewrite (pow2_IZR 52) by lia. pose proof (pow2_pos (-53)).
        assert (IZR (2 ^ 52) <= IZR 9007199254740991)%R by (apply IZR_le; vm_compute; discriminate).
        nra. }
      lra.
Qed.

(** ** The store into a [Float32Array] *)

Lemma ToFloat32_between lo v hi :
  finite lo = true -> finite hi = true ->
  (lo <=? v)%float = true -> (v <=? hi)%float = true ->
  Binary64.float32_finite (Binary64.ToFloat32 lo) ->
  Binary64.float32_finite (Binary64.ToFloat32 hi) ->
  Binary64.float32_finite (Binary64.ToFloat32 v) /\
  Binary64.float32_le (Binary64.ToFloat32 lo) (Binary64.ToFloat32 v) /\
  Binary64.float32_le (Binary64.ToFloat32 v) (Binary64.ToFloat32 hi).
Proof.
  intros Flo Fhi Hlo Hhi Glo Ghi.
  pose proof (between_finite lo v hi Flo Fhi Hlo Hhi) as Fv.
  apply leb_B2R in Hlo, Hhi; try assumption.
  assert (forall y, finite y = true ->
            Rnd 24 128 (B2R y) (Binary64.ToFloat32 y)) as HR.
  { intros y Fy. apply SFround_Rnd. unfold finite in Fy.
    destruct (Prim2SF y); try discriminate; exact I. }
  destruct (Rnd_between 24 128 ltac:(reflexivity)
              (B2R lo) (B2R v) (B2R hi)
              (Binary64.ToFloat32 lo) (Binary64.ToFloat32 v) (Binary64.ToFloat32 hi))
    as [G [B1 B2]]; auto.
  split; [exact G|].
  split; apply (SFleb_SF2R 24 128); assumption.
Qed.

Lemma SF2R_float32_50 :
  SF2R (Binary64.ToFloat32 50) = 50%R /\ SF2R (Binary64.ToFloat32 (-50)) = (-50)%R.
Proof.
  assert (val 13107200 (-18) = 50%R) as E.
  { unfold val. change (Z.pos 13107200) with (50 * 2 ^ 18).
    rewrite mult_IZR, <- (pow2_IZR 18), Rmult_assoc, <- pow2_add by lia.
    change (18 + -18) with 0. rewrite pow2_0. lra. }
  change (Binary64.ToFloat32 50) with (S754_finite false 13107200 (-18)).
  change (Binary64.ToFloat32 (-50)) with (S754_finite true 13107200 (-18)).
  simpl. rewrite E. split; lra.
Qed.

Lemma float32_le_SF2R a b :
  Binary64.float32_finite a -> Binary64.float32_finite b ->
  Binary64.float32_le a b -> (SF2R a <= SF2R b)%R.
Proof.
  intros Ga Gb H. apply (SFleb_SF2R 24 128); assumption.
Qed.

Lemma leb_ltb_trans a b c :
  finite a = true -> finite b = true -> finite c = true ->
  (a <=? b)%float = true -> (b <? c)%float = true -> (a <? c)%float = true.
Proof.
  intros Fa Fb Fc Hab Hbc.
  apply leb_B2R in Hab; try assumption. apply ltb_B2R in Hbc; try assumption.
  apply ltb_B2R; try assumption. lra.
Qed.

End Rounding.

(** * The page in binary64 *)

Section Binary64Facts.

Import IEEE754 Binary64.
Local Open Scope float_scope.

(** ** What a value of [Math.random()] becomes *)

Section Ranges64.

Variable u : float.
Hypothesis u_nonneg : (0 <=? u) = true.
Hypothesis u_below_one : (u <? 1) = true.

Lemma draw_finite : finite u = true /\ (u <=? below_one) = true.
Proof. apply lt_one_le_below_one; assumption. Qed.

(** Line 99. *)
Lemma radius_range64 :
  (15 <=? 15 + u * 5) = true /\ (15 + u * 5 <=? 20) = true.
Proof.
  destruct draw_finite as [Fu Hu].
  destruct (mul_between 5 0 u below_one) as (F1 & L1 & U1);
    try reflexivity; try assumption.
  destruct (add_between 15 (0 * 5) (u * 5) (below_one * 5)) as (F2 & L2 & U2);
    try reflexivity; try assumption.
  split; [exact L2|exact U2].
Qed.

(** Line 109. *)
Lemma speed_range64 :
  (0.5 <=? 0.5 + u * 0.5) = true /\ (0.5 + u * 0.5 <=? 1) = true.
Proof.
  destruct draw_finite as [Fu Hu].
  destruct (mul_between 0.5 0 u below_one) as (F1 & L1 & U1);
    try reflexivity; try assumption.
  destruct (add_between 0.5 (0 * 0.5) (u * 0.5) (below_one * 0.5))
    as (F2 & L2 & U2); try reflexivity; try assumption.
  split; [exact L2|exact U2].
Qed.

(** Line 110. *)
Lemma offset_range64 :
  (0 <=? u * Math_PI * 2) = true /\ (u * Math_PI * 2 <? Math_PI * 2) = true.
Proof.
  destruct draw_finite as [Fu Hu].
  destruct (mul_between Math_PI 0 u below_one) as (F1 & L1 & U1);
    try reflexivity; try assumption.
  destruct (mul_between 2 (0 * Math_PI) (u * Math_PI) (below_one * Math_PI))
    as (F2 & L2 & U2); try reflexivity; try assumption.
  split; [exact L2|].
  apply (leb_ltb_trans _ (below_one * Math_PI * 2)); try reflexivity; assumption.
Qed.

(** Line 111. *)
Lemma rotSpeed_range64 :
  (-0.01 <=? (u - 0.5) * 0.02) = true /\ ((u - 0.5) * 0.02 <? 0.01) = true.
Proof.
  destruct draw_finite as [Fu Hu].
  destruct (sub_between 0.5 0 u below_one) as (F1 & L1 & U1);
    try reflexivity; try assumption.
  destruct (mul_between 0.02 (0 - 0.5) (u - 0.5) (below_one - 0.5))
    as (F2 & L2 & U2); try reflexivity; try assumption.
  split; [exact L2|].
  apply (leb_ltb_trans _ ((below_one - 0.5) * 0.02)); try reflexivity; assumption.
Qed.

(** Line 51: the element stored is a finite binary32 datum between -50
    and 50. *)
Lemma particle_range64 :
  float32_finite (ToFloat32 ((u - 0.5) * 100)) /\
  (-50 <= SF2R (ToFloat32 ((u - 0.5) * 100)) <= 50)%R.
Proof.
  destruct draw_finite as [Fu Hu].
  destruct (sub_between 0.5 0 u below_one) as (F1 & L1 & U1);
    try reflexivity; try assumption.
  destruct (mul_between 100 (0 - 0.5) (u - 0.5) (below_one - 0.5))
    as (F2 & L2 & U2); try reflexivity; try assumption.
  destruct (ToFloat32_between ((0 - 0.5) * 100) ((u - 0.5) * 100)
              ((below_one - 0.5) * 100)) as (G & B1 & B2);
    try reflexivity; try assumption.
  split; [exact G|].
  destruct SF2R_float32_50 as [E1 E2].
  apply float32_le_SF2R in B1; [|reflexivity|exact G].
  apply float32_le_SF2R in B2; [|exact G|reflexivity].
  change (ToFloat32 ((0 - 0.5) * 100)) with (ToFloat32 (-50)) in B1.
  change (ToFloat32 ((below_one - 0.5) * 100)) with (ToFloat32 50) in B2.
  rewrite E2 in B1. rewrite E1 in B2. split; assumption.
Qed.

End Ranges64.

(** ** Construction and the events *)

Section Model64.

Variable Math_random : nat -> float.
Variables Math_sin Math_cos : float -> float.

Local Abbreviation loadedWorld64 := (loadedWorld Math_random Math_sin Math_cos).
Local Abbreviation builtShape64 := (builtShape Math_random Math_sin Math_cos).
Local Abbreviation animateAll64 := (animateAll Math_sin).

Lemma fillPosArray64_spec (n : nat) (h : Host) :
  fillPosArray Math_random n h =
  (map (fun k => ToFloat32 ((Math_random k - 0.5) * 100)) (seq (randomCalls h) n),
   mkHost (randomCalls h + n) (effects h)).
Proof.
  revert h; induction n as [|n IH]; intros h.
  - cbn [fillPosArray seq map]. unfold ret. rewrite Nat.add_0_r.
    destruct h; reflexivity.
  - cbn [fillPosArray]. unfold bind at 1. unfold random at 1.
    unfold bind at 1. rewrite IH. cbn [randomCalls effects seq map]. unfold ret.
    do 2 f_equal. lia.
Qed.

Lemma createShape64_spec (i : nat) (h : Host) :
  createShape Math_random Math_sin Math_cos i h =
  (builtShape64 (randomCalls h) i, mkHost (randomCalls h + 5) (effects h)).
Proof.
  unfold createShape, bind, random, ret, builtShape, shapeData, shapeRadius,
    shapeAngle.
  cbn [randomCalls effects y].
  rewrite !Nat.add_succ_r, Nat.add_0_r. reflexivity.
Qed.

Lemma createShapes64_spec (count i : nat) (h : Host) :
  createShapes Math_random Math_sin Math_cos i count h =
  (map (fun j => builtShape64 (randomCalls h + 5 * j) (i + j)) (seq 0 count),
   mkHost (randomCalls h + 5 * count) (effects h)).
Proof.
  revert i h; induction count as [|count IH]; intros i h.
  - cbn [createShapes seq map]. unfold ret. rewrite Nat.mul_0_r, Nat.add_0_r.
    destruct h; reflexivity.
  - cbn [createShapes]. unfold bind at 1. rewrite createShape64_spec.
    unfold bind at 1. rewrite IH. unfold ret.
    cbn [randomCalls effects seq map]. f_equal.
    + f_equal.
      * rewrite Nat.mul_0_r, !Nat.add_0_r. reflexivity.
      * rewrite <- seq_shift, map_map. apply map_ext. intros j.
        f_equal; lia.
    + f_equal; lia.
Qed.

(** Line 116 is reached with 2125 calls of [Math.random()] made by
    [main.js]. *)
Lemma buildScene64_spec :
  buildScene Math_random Math_sin Math_cos (mkHost 0 []) =
  (mkWorld (builtPosArray Math_random)
           (map (fun i => builtShape64 (firstDraw i) i) (seq 0 shapeCount)),
   mkHost (particlesCount * 3 + 5 * shapeCount) []).
Proof.
  unfold buildScene. unfold bind at 1. rewrite fillPosArray64_spec.
  unfold bind at 1. rewrite createShapes64_spec. unfold ret.
  cbn [randomCalls effects]. reflexivity.
Qed.

Lemma posArray_runWorld64 (evs : list Event) (w : World) :
  posArray (runWorld Math_sin evs w) = posArray w.
Proof.
  unfold runWorld. revert w.
  induction evs as [|[t|window] evs IH]; intros w; cbn [fold_left].
  - reflexivity.
  - rewrite IH. reflexivity.
  - rewrite IH. reflexivity.
Qed.

Lemma shapes_runWorld64 (evs : list Event) (w : World) :
  shapes (runWorld Math_sin evs w) = map (animateAll64 (frameTimes evs)) (shapes w).
Proof.
  unfold runWorld. revert w.
  induction evs as [|[t|window] evs IH]; intros w; cbn [fold_left frameTimes].
  - unfold animateAll. cbn [fold_left]. symmetry. apply map_id.
  - rewrite IH. cbn [applyEvent tickWorld shapes].
    rewrite map_map. reflexivity.
  - rewrite IH. reflexivity.
Qed.

Lemma animateAll64_snoc (ts : list float) (t : float) (s : Shape) :
  animateAll64 (ts ++ [t]) s = animate Math_sin t (animateAll64 ts s).
Proof. unfold animateAll. rewrite fold_left_app. reflexivity. Qed.

(** The fields an execution of [tick] never writes. *)
Lemma animateAll64_fixed (ts : list float) (s : Shape) :
  fixedPart (animateAll64 ts s) = fixedPart s.
Proof.
  induction ts as [|t ts IH] using rev_ind.
  - reflexivity.
  - rewrite animateAll64_snoc. rewrite <- IH. reflexivity.
Qed.

Lemma animateAll64_userData (ts : list float) (s : Shape) :
  userData (animateAll64 ts s) = userData s.
Proof.
  pose proof (animateAll64_fixed ts s) as H. unfold fixedPart in H.
  congruence.
Qed.

(** Each execution adds [rotSpeed] to both angles, in binary64. *)
Lemma animateAll64_rotation (ts : list float) (s : Shape) :
  rx (rotation (object (animateAll64 ts s))) =
    Nat.iter (List.length ts) (fun r => r + rotSpeed (userData s))
      (rx (rotation (object s))) /\
  ry (rotation (object (animateAll64 ts s))) =
    Nat.iter (List.length ts) (fun r => r + rotSpeed (userData s))
      (ry (rotation (object s))).
Proof.
  induction ts as [|t ts [IHx IHy]] using rev_ind.
  - split; reflexivity.
  - rewrite animateAll64_snoc, length_app, Nat.add_comm.
    cbn [List.length Nat.add animate rotation object rx ry Nat.iter nat_rect].
    rewrite animateAll64_userData, IHx, IHy. split; reflexivity.
Qed.

(** The vertical position is the one of the latest execution. *)
Lemma animateAll64_y (ts : list float) (t0 : float) (s : Shape) :
  y (position (object (animateAll64 (t0 :: ts) s))) =
  floatY Math_sin (userData s) (last ts t0).
Proof.
  induction ts as [|t ts _] using rev_ind.
  - reflexivity.
  - rewrite app_comm_cons, animateAll64_snoc, last_last.
    cbn [animate position object y]. rewrite animateAll64_userData.
    reflexivity.
Qed.

Lemma loadedWorld64_shapes (firstTime : float) (evs : list Event) :
  shapes (loadedWorld64 firstTime evs) =
  map (fun i => animateAll64 (firstTime :: frameTimes evs)
                  (builtShape64 (firstDraw i) i))
      (seq 0 shapeCount).
Proof.
  unfold loadedWorld. rewrite shapes_runWorld64, buildScene64_spec.
  cbn [fst tickWorld shapes]. rewrite !map_map. reflexivity.
Qed.

Lemma loadedWorld64_posArray (firstTime : float) (evs : list Event) :
  posArray (loadedWorld64 firstTime evs) = builtPosArray Math_random.
Proof.
  unfold loadedWorld. rewrite posArray_runWorld64, buildScene64_spec.
  reflexivity.
Qed.

(** Everything the page knows about the shape of index [i] once it is
    loaded and [evs] have been dispatched. *)
Lemma loaded_shape64 (firstTime : float) (evs : list Event) (i : nat) :
  (i < shapeCount)%nat ->
  exists s,
    nth_error (shapes (loadedWorld64 firstTime evs)) i = Some s /\
    fixedPart s = fixedPart (builtShape64 (firstDraw i) i) /\
    y (position (object s)) =
      floatY Math_sin (shapeData Math_random (firstDraw i))
        (lastTime firstTime evs) /\
    rx (rotation (object s)) =
      accumulate (iterations evs) (rotSpeed (shapeData Math_random (firstDraw i))) /\
    ry (rotation (object s)) =
      accumulate (iterations evs) (rotSpeed (shapeData Math_random (firstDraw i))).
Proof.
  intros Hi. set (b := builtShape64 (firstDraw i) i).
  exists (animateAll64 (firstTime :: frameTimes evs) b). split.
  { rewrite loadedWorld64_shapes, nth_error_map, nth_error_seq.
    apply Nat.ltb_lt in Hi. rewrite Hi. reflexivity. }
  destruct (animateAll64_rotation (firstTime :: frameTimes evs) b) as [Hrx Hry].
  rewrite animateAll64_fixed, animateAll64_y, Hrx, Hry.
  repeat split.
Qed.

End Model64.

(** ** C1 *)




(** ** C6 *)

Lemma fixedPart_runWorld64
    (Math_sin : float -> float) (evs : list Event) (w : World) :
  map fixedPart (shapes (runWorld Math_sin evs w)) = map fixedPart (shapes w).
Proof.
  rewrite shapes_runWorld64, map_map. apply map_ext. intros s.
  apply animateAll64_fixed.
Qed.

Lemma userData_runWorld64
    (Math_sin : float -> float) (evs : list Event) (w : World) :
  map userData (shapes (runWorld Math_sin evs w)) = map userData (shapes w).
Proof.
  rewrite shapes_runWorld64, map_map. apply map_ext. intros s.
  apply animateAll64_userData.
Qed.

Lemma loaded_shape64_fixed
    (Math_random : nat -> float) (Math_sin Math_cos : float -> float)
    (firstTime : float) (evs : list Event) (i : nat) :
  (i < shapeCount)%nat ->
  exists s,
    nth_error (shapes (loadedWorld Math_random Math_sin Math_cos firstTime evs)) i
      = Some s /\
    userData s = shapeData Math_random (firstDraw i) /\
    x (position (object s)) =
      Math_cos (shapeAngle i) * shapeRadius Math_random (firstDraw i) /\
    z (position (object s)) =
      Math_sin (shapeAngle i) * shapeRadius Math_random (firstDraw i).
Proof.
  intros Hi.
  destruct (loaded_shape64 Math_random Math_sin Math_cos firstTime evs i Hi)
    as (s & Hn & Hf & _).
  exists s. unfold fixedPart in Hf.
  cbn [builtShape geometry userData object position x z rotation rz] in Hf.
  injection Hf as _ Hd Hx Hz _.
  repeat split; assumption.
Qed.

(** C6, as amended.  With every value of [Math.random()] in [0, 1), the
    shape of index [i < 5] of a loaded page has, after any sequence of
    events, [speed = 0.5 + u2 * 0.5] in [0.5, 1], [offset = u3 * Math.PI * 2]
    in [0, Math.PI * 2), [rotSpeed = (u4 - 0.5) * 0.02] in [-0.01, 0.01) and
    sits at radius [15 + u0 * 5] in [15, 20], all computed in binary64,
    where [u0], [u2], [u3], [u4] are the values of four different calls of
    [Math.random()] that no other shape and no particle uses.  The upper
    ends 1 and 20 are closed.  No event changes the [userData] of any
    shape. *)
Theorem C6_shape_parameters_binary64
    (Math_random : nat -> float) (Math_sin Math_cos : float -> float)
    (firstTime : float) (evs : list Event) (i : nat) :
  (forall k, (0 <=? Math_random k) = true /\ (Math_random k <? 1) = true) ->
  (i < shapeCount)%nat ->
  (exists s,
     nth_error (shapes (loadedWorld Math_random Math_sin Math_cos firstTime evs)) i
       = Some s /\
     speed (userData s) = 0.5 + Math_random (firstDraw i + 2)%nat * 0.5 /\
     (0.5 <=? speed (userData s)) = true /\
     (speed (userData s) <=? 1) = true /\
     offset (userData s) = Math_random (firstDraw i + 3)%nat * Math_PI * 2 /\
     (0 <=? offset (userData s)) = true /\
     (offset (userData s) <? Math_PI * 2) = true /\
     rotSpeed (userData s) = (Math_random (firstDraw i + 4)%nat - 0.5) * 0.02 /\
     (-0.01 <=? rotSpeed (userData s)) = true /\
     (rotSpeed (userData s) <? 0.01) = true /\
     x (position (object s)) =
       Math_cos (shapeAngle i) * (15 + Math_random (firstDraw i) * 5) /\
     z (position (object s)) =
       Math_sin (shapeAngle i) * (15 + Math_random (firstDraw i) * 5) /\
     (15 <=? 15 + Math_random (firstDraw i) * 5) = true /\
     (15 + Math_random (firstDraw i) * 5 <=? 20) = true) /\
  (particlesCount * 3 <= firstDraw i)%nat /\
  (forall j k l : nat,
     (k < 5)%nat -> (l < 5)%nat ->
     (firstDraw i + k = firstDraw j + l)%nat -> i = j /\ k = l) /\
  (forall (w0 : World) (evs0 : list Event),
     map userData (shapes (runWorld Math_sin evs0 w0)) = map userData (shapes w0)).
Proof.
  intros Hrange Hi. split; [|split; [|split]].
  - destruct (loaded_shape64_fixed Math_random Math_sin Math_cos firstTime evs i Hi)
      as (s & Hn & Hd & Hx & Hz).
    exists s. rewrite Hd, Hx, Hz.
    cbn [shapeData speed offset rotSpeed]. unfold shapeRadius.
    destruct (Hrange (firstDraw i)) as [R0 R1].
    destruct (Hrange (firstDraw i + 2)%nat) as [S0 S1].
    destruct (Hrange (firstDraw i + 3)%nat) as [O0 O1].
    destruct (Hrange (firstDraw i + 4)%nat) as [T0 T1].
    destruct (radius_range64 _ R0 R1) as [Hr1 Hr2].
    destruct (speed_range64 _ S0 S1) as [Hs1 Hs2].
    destruct (offset_range64 _ O0 O1) as [Ho1 Ho2].
    destruct (rotSpeed_range64 _ T0 T1) as [Ht1 Ht2].
    repeat split; assumption.
  - unfold firstDraw. lia.
  - unfold firstDraw. intros j k l Hk Hl E. lia.
  - intros w0 evs0. apply userData_runWorld64.
Qed.

Lemma half_in_range64 (k : nat) :
  (0 <=? constantDraws 0.5 k) = true /\ (constantDraws 0.5 k <? 1) = true.
Proof. split; reflexivity. Qed.

Lemma three_lt_shapeCount64 : (3 < shapeCount)%nat.
Proof. unfold shapeCount. lia. Qed.

Lemma C6_shape_parameters_binary64_witness :
  (forall k, (0 <=? constantDraws 0.5 k) = true /\
             (constantDraws 0.5 k <? 1) = true) /\
  (3 < shapeCount)%nat /\
  exists s,
    nth_error (shapes (loadedWorld (constantDraws 0.5) (fun v => v) (fun v => v)
                         0 twoFrames)) 3 = Some s /\
    (0.5 <=? speed (userData s)) = true /\
    (speed (userData s) <=? 1) = true /\
    (0 <=? offset (userData s)) = true /\
    (offset (userData s) <? Math_PI * 2) = true /\
    (-0.01 <=? rotSpeed (userData s)) = true /\
    (rotSpeed (userData s) <? 0.01) = true.
Proof.
  split; [exact half_in_range64|].
  split; [exact three_lt_shapeCount64|].
  destruct (C6_shape_parameters_binary64 (constantDraws 0.5) (fun v => v)
              (fun v => v) 0 twoFrames 3 half_in_range64 three_lt_shapeCount64)
    as [(s & Hs & _ & Hs1 & Hs2 & _ & Ho1 & Ho2 & _ & Hr1 & Hr2 & _) _].
  exists s. repeat split; assumption.
Defined.

(** C6 as stated fails at two upper ends: when [Math.random()] returns
    the largest double below 1, line 109 computes the speed
    [0.5 + u * 0.5 = 1] and line 99 the radius [15 + u * 5 = 20], outside
    [0.5, 1) and [15, 20). *)
Lemma C6_largest_draw_reaches_the_upper_ends :
  ((0 <=? below_one) = true /\ (below_one <? 1) = true) /\
  forall Math_sin Math_cos : float -> float,
  exists s,
    nth_error (shapes (loadedWorld (constantDraws below_one) Math_sin Math_cos
                         0 [])) 0 = Some s /\
    speed (userData s) = 1 /\
    (speed (userData s) <? 1) = false /\
    15 + constantDraws below_one (firstDraw 0) * 5 = 20 /\
    (15 + constantDraws below_one (firstDraw 0) * 5 <? 20) = false.
Proof.
  split; [split; reflexivity|].
  intros Math_sin Math_cos.
  assert (Hi : (0 < shapeCount)%nat) by (unfold shapeCount; lia).
  destruct (loaded_shape64_fixed (constantDraws below_one) Math_sin Math_cos 0 [] 0 Hi)
    as (s & Hn & Hd & _).
  exists s. rewrite Hd.
  repeat split; try assumption; vm_compute; reflexivity.
Qed.

(** ** C7 *)

(** C7, as amended.  With every value of [Math.random()] in [0, 1), the
    shape of index [i < 5] of a loaded page sits, after any sequence of
    events, at [x = Math.cos(a) * r] and [z = Math.sin(a) * r] for the
    angle [a = i / 5 * Math.PI * 2] and the radius [r = 15 + u * 5] in
    [15, 20] drawn at line 99, all computed in binary64; the five angles
    are the doubles nearest to 0, 2π/5, 4π/5, 6π/5 and 8π/5 up to one
    rounding step.  There are five shapes, and no event changes a
    shape's geometry, [userData], [x], [z] or rotation about Z: only [y]
    and the rotations about X and Y move. *)
Theorem C7_shapes_keep_their_place_binary64
    (Math_random : nat -> float) (Math_sin Math_cos : float -> float)
    (firstTime : float) (evs : list Event) (i : nat) :
  (forall k, (0 <=? Math_random k) = true /\ (Math_random k <? 1) = true) ->
  (i < shapeCount)%nat ->
  (exists s radius,
     List.length (shapes (loadedWorld Math_random Math_sin Math_cos firstTime evs))
       = 5%nat /\
     nth_error (shapes (loadedWorld Math_random Math_sin Math_cos firstTime evs)) i
       = Some s /\
     radius = 15 + Math_random (firstDraw i) * 5 /\
     (15 <=? radius) = true /\ (radius <=? 20) = true /\
     x (position (object s)) = Math_cos (Number_of_nat i / 5 * Math_PI * 2) * radius /\
     z (position (object s)) = Math_sin (Number_of_nat i / 5 * Math_PI * 2) * radius) /\
  map (fun j => Number_of_nat j / 5 * Math_PI * 2) (seq 0 shapeCount) =
    [0; 1.2566370614359172; 2.5132741228718345; 3.7699111843077517;
     5.026548245743669] /\
  (forall (w0 : World) (evs0 : list Event),
     map fixedPart (shapes (runWorld Math_sin evs0 w0)) = map fixedPart (shapes w0)).
Proof.
  intros Hrange Hi.
  split; [|split; [vm_compute; reflexivity|intros w0 evs0; apply fixedPart_runWorld64]].
  destruct (loaded_shape64_fixed Math_random Math_sin Math_cos firstTime evs i Hi)
    as (s & Hn & _ & Hx & Hz).
  exists s, (15 + Math_random (firstDraw i) * 5).
  destruct (Hrange (firstDraw i)) as [R0 R1].
  destruct (radius_range64 _ R0 R1) as [Hr1 Hr2].
  split.
  { rewrite loadedWorld64_shapes, length_map, length_seq. reflexivity. }
  repeat split; assumption.
Qed.

Lemma C7_shapes_keep_their_place_binary64_witness :
  (forall k, (0 <=? constantDraws 0.5 k) = true /\
             (constantDraws 0.5 k <? 1) = true) /\
  (3 < shapeCount)%nat /\
  exists s,
    nth_error (shapes (loadedWorld (constantDraws 0.5) (fun v => v) (fun v => v)
                         0 twoFrames)) 3 = Some s /\
    x (position (object s)) = 3.7699111843077517 * 17.5 /\
    z (position (object s)) = 3.7699111843077517 * 17.5.
Proof.
  split; [exact half_in_range64|].
  split; [exact three_lt_shapeCount64|].
  destruct (C7_shapes_keep_their_place_binary64 (constantDraws 0.5) (fun v => v)
              (fun v => v) 0 twoFrames 3 half_in_range64 three_lt_shapeCount64)
    as [(s & radius & _ & Hs & Hr & _ & _ & Hx & Hz) _].
  exists s. rewrite Hx, Hz, Hr.
  repeat split; try assumption; vm_compute; reflexivity.
Defined.

(** C7 as stated fails at the upper end of the radius: when
    [Math.random()] returns the largest double below 1, line 99 computes
    the radius 20 and every shape sits at [x = Math.cos(a) * 20],
    [z = Math.sin(a) * 20]. *)
Lemma C7_radius_reaches_20 :
  ((0 <=? below_one) = true /\ (below_one <? 1) = true) /\
  forall (Math_sin Math_cos : float -> float) (i : nat),
  (i < shapeCount)%nat ->
  exists s,
    nth_error (shapes (loadedWorld (constantDraws below_one) Math_sin Math_cos
                         0 [])) i = Some s /\
    x (position (object s)) = Math_cos (Number_of_nat i / 5 * Math_PI * 2) * 20 /\
    z (position (object s)) = Math_sin (Number_of_nat i / 5 * Math_PI * 2) * 20 /\
    (20 <? 20) = false.
Proof.
  split; [split; reflexivity|].
  intros Math_sin Math_cos i Hi.
  destruct (loaded_shape64_fixed (constantDraws below_one) Math_sin Math_cos 0 [] i Hi)
    as (s & Hn & _ & Hx & Hz).
  exists s. rewrite Hx, Hz.
  repeat split; try assumption; reflexivity.
Qed.

(** ** C8 *)

(** C8, as amended.  With every value of [Math.random()] in [0, 1),
    [posArray] of a loaded page has, after any sequence of events, exactly
    2100 elements, element [k] being the binary32 rounding of
    [(u - 0.5) * 100] for the value [u] of the [k]-th call of
    [Math.random()], a finite binary32 datum whose value lies in
    [-50, 50]: the upper end is closed.  No event writes to [posArray]. *)
Theorem C8_particle_positions_binary32
    (Math_random : nat -> float) (Math_sin Math_cos : float -> float)
    (firstTime : float) (evs : list Event) :
  (forall k, (0 <=? Math_random k) = true /\ (Math_random k <? 1) = true) ->
  (List.length (posArray (loadedWorld Math_random Math_sin Math_cos firstTime evs))
     = 2100%nat /\
   (particlesCount = 700 /\ 700 * 3 = 2100)%nat /\
   posArray (loadedWorld Math_random Math_sin Math_cos firstTime evs)
     = map (fun k => ToFloat32 ((Math_random k - 0.5) * 100)) (seq 0 2100) /\
   Forall (fun v => float32_finite v /\ (-50 <= SF2R v <= 50)%R)
          (posArray (loadedWorld Math_random Math_sin Math_cos firstTime evs))) /\
  (forall (w0 : World) (evs0 : list Event),
     posArray (runWorld Math_sin evs0 w0) = posArray w0).
Proof.
  intros Hrange. split; [|intros w0 evs0; apply posArray_runWorld64].
  rewrite loadedWorld64_posArray. unfold builtPosArray.
  change (particlesCount * 3)%nat with 2100%nat.
  split; [rewrite length_map; apply length_seq|].
  split; [split; reflexivity|]. split; [reflexivity|].
  apply Forall_forall. intros v Hv. apply in_map_iff in Hv.
  destruct Hv as (k & <- & _). destruct (Hrange k) as [H0 H1].
  apply particle_range64; assumption.
Qed.

Lemma C8_particle_positions_binary32_witness :
  (forall k, (0 <=? constantDraws 0.5 k) = true /\
             (constantDraws 0.5 k <? 1) = true) /\
  List.length (posArray (loadedWorld (constantDraws 0.5) (fun v => v) (fun v => v)
                           0 twoFrames)) = 2100%nat /\
  Forall (fun v => float32_finite v /\ (-50 <= SF2R v <= 50)%R)
         (posArray (loadedWorld (constantDraws 0.5) (fun v => v) (fun v => v)
                      0 twoFrames)).
Proof.
  split; [exact half_in_range64|].
  destruct (C8_particle_positions_binary32 (constantDraws 0.5) (fun v => v)
              (fun v => v) 0 twoFrames half_in_range64)
    as [(Hlen & _ & _ & Hall) _].
  split; assumption.
Defined.

(** C8 as stated fails at the upper end: when [Math.random()] returns
    [1 - 2^-26], line 51 computes a Number below 50 and the store into the
    [Float32Array] rounds it to 50. *)
Lemma C8_a_draw_near_1_is_stored_as_50 :
  ((0 <=? 0x1.ffffff8p-1) = true /\ (0x1.ffffff8p-1 <? 1) = true /\
   ((0x1.ffffff8p-1 - 0.5) * 100 <? 50) = true) /\
  forall Math_sin Math_cos : float -> float,
  exists v,
    nth_error (posArray (loadedWorld (constantDraws 0x1.ffffff8p-1)
                           Math_sin Math_cos 0 [])) 0 = Some v /\
    v = S754_finite false 13107200 (-18) /\
    SF2R v = 50%R /\
    ~ (-50 <= SF2R v < 50)%R.
Proof.
  split; [repeat split; reflexivity|].
  intros Math_sin Math_cos. exists (ToFloat32 50).
  rewrite loadedWorld64_posArray.
  destruct SF2R_float32_50 as [E _].
  split; [vm_compute; reflexivity|]. split; [vm_compute; reflexivity|].
  split; [exact E|]. rewrite E. lra.
Qed.

End Binary64Facts.
